(** * dgraph: GraphQL schema generation and the HTTP gateway of alpha

  A shallow embedding of two Go packages:

  - [Schema]: [dgraph/cmd/graphql/schema/schemagen.go]
    ([NewHandler], [parentInterface], [DgraphMapping], [genDgSchema]);
  - [Alpha]: the HTTP handlers of the alpha server ([commonHandler],
    [readRequest], [writeResponse], [parseBool], [parseUint64],
    [queryHandler], [mutationHandler], [commitHandler], [handleAbort],
    [handleCommit], [convertJSONError], [jsonLineAndChar]).

  Go strings are byte strings and are modelled by [string]; Go maps
  by [gmap]; a nil-pointer dereference (a run-time panic) by [None]. *)

From Stdlib Require Import ZArith Ascii.
From Stdlib Require DecimalString.
From stdpp Require Import base option list gmap strings sorting fin_maps.

Local Open Scope Z_scope.

(** ** Go's [strings] package, the part the code uses *)

Module GoStrings.

(** [strings.HasPrefix(s, prefix)] *)
Fixpoint HasPrefix (s prefix : string) {struct prefix} : bool :=
  match prefix, s with
  | EmptyString, _ => true
  | String _ _, EmptyString => false
  | String p prefix', String c s' =>
      if Ascii.eqb c p then HasPrefix s' prefix' else false
  end.

(** [s[n:]], for [n <= len(s)] *)
Fixpoint drop_bytes (n : nat) (s : string) : string :=
  match n, s with
  | O, _ => s
  | S _, EmptyString => EmptyString
  | S n', String _ s' => drop_bytes n' s'
  end.

(** [s[:n]], for [n <= len(s)] *)
Fixpoint take_bytes (n : nat) (s : string) : string :=
  match n, s with
  | O, _ => EmptyString
  | S _, EmptyString => EmptyString
  | S n', String c s' => String c (take_bytes n' s')
  end.

(** [strings.HasSuffix(s, suffix)]:
    [len(s) >= len(suffix) && s[len(s)-len(suffix):] == suffix] *)
Definition HasSuffix (s suffix : string) : bool :=
  (String.length suffix <=? String.length s)%nat &&
  String.eqb (drop_bytes (String.length s - String.length suffix) s) suffix.

(** [strings.TrimPrefix(s, prefix)] *)
Definition TrimPrefix (s prefix : string) : string :=
  if HasPrefix s prefix then drop_bytes (String.length prefix) s else s.

(** [strings.TrimSuffix(s, suffix)] *)
Definition TrimSuffix (s suffix : string) : string :=
  if HasSuffix s suffix
  then take_bytes (String.length s - String.length suffix) s
  else s.

(** [strings.Join(elems, "")] *)
Definition Join0 (elems : list string) : string :=
  fold_right String.append EmptyString elems.

End GoStrings.

(** ** Package [schema] *)

Module Schema.

Import GoStrings.

(** *** The part of [gqlparser/ast] the generator reads *)

(** [ast.DefinitionKind] *)
Inductive DefinitionKind : Set :=
| Scalar | Object | Interface | Union | Enum | InputObject.

Definition DefinitionKind_eqb (a b : DefinitionKind) : bool :=
  match a, b with
  | Scalar, Scalar | Object, Object | Interface, Interface
  | Union, Union | Enum, Enum | InputObject, InputObject => true
  | _, _ => false
  end.

(** [ast.Type], as the parser builds it with [ast.NamedType] and
    [ast.ListType]: a type name, which is never empty, or a list whose
    [Elem] is set. *)
Inductive Type_ : Set :=
| NamedType (name : string) (NonNull : bool)
| ListType (Elem : Type_) (NonNull : bool).

(** [t.Elem], nil for a named type *)
Definition Elem (t : Type_) : option Type_ :=
  match t with
  | NamedType _ _ => None
  | ListType e _ => Some e
  end.

(** [func (t *Type) Name() string]: the name, of the element for a list *)
Fixpoint Type_Name (t : Type_) : string :=
  match t with
  | NamedType n _ => n
  | ListType e _ => Type_Name e
  end.

(** [ast.Argument], with the [Raw] text of its [ast.Value], and
    [ast.Directive] *)
Record Argument : Set := { aName : string; aValueRaw : string }.
Record Directive : Set := { dirName : string; dirArguments : list Argument }.

(** [func (l ArgumentList) ForName(name string) *Argument] *)
Fixpoint ArgumentList_ForName (l : list Argument) (name : string)
  : option Argument :=
  match l with
  | [] => None
  | it :: l' =>
      if String.eqb (aName it) name then Some it
      else ArgumentList_ForName l' name
  end.

(** [func (l DirectiveList) ForName(name string) *Directive] *)
Fixpoint DirectiveList_ForName (l : list Directive) (name : string)
  : option Directive :=
  match l with
  | [] => None
  | it :: l' =>
      if String.eqb (dirName it) name then Some it
      else DirectiveList_ForName l' name
  end.

(** [ast.FieldDefinition] *)
Record FieldDefinition : Set := {
  fName : string;
  fType : Type_;
  fDirectives : list Directive
}.

(** [ast.Definition] *)
Record Definition_ : Set := {
  dKind : DefinitionKind;
  dName : string;
  dInterfaces : list string;
  dFields : list FieldDefinition;
  dBuiltIn : bool
}.

(** [ast.Schema]: only [Types map[string]*Definition] is read. *)
Record Schema : Type := { Types : gmap string Definition_ }.

(** *** [parentInterface] *)

(** The inner loop
    [for _, interfaceField := range interfaceDef.Fields]:
    does some field carry the name [fieldName]? *)
Fixpoint declaresField (fields : list FieldDefinition) (fieldName : string)
  : bool :=
  match fields with
  | [] => false
  | interfaceField :: rest =>
      if String.eqb fieldName (fName interfaceField) then true
      else declaresField rest fieldName
  end.

(** The outer loop [for _, iface := range typDef.Interfaces].
    [sch.Types[iface]] is a nil pointer when the name is not a key of the
    map, and reading [interfaceDef.Fields] then panics: [None]. *)
Fixpoint parentInterface_range (sch : Schema) (ifaces : list string)
    (fieldName : string) : option string :=
  match ifaces with
  | [] => Some ""
  | iface :: rest =>
      match Types sch !! iface with
      | None => None
      | Some interfaceDef =>
          if declaresField (dFields interfaceDef) fieldName then Some iface
          else parentInterface_range sch rest fieldName
      end
  end.

Definition parentInterface (sch : Schema) (typDef : Definition_)
    (fieldName : string) : option string :=
  if (length (dInterfaces typDef) =? 0)%nat then Some ""
  else parentInterface_range sch (dInterfaces typDef) fieldName.

(** What it means for the interface named [iface] to declare a field. *)
Definition declares (sch : Schema) (iface fieldName : string) : Prop :=
  ∃ interfaceDef, Types sch !! iface = Some interfaceDef ∧
    ∃ fld, fld ∈ dFields interfaceDef ∧ fName fld = fieldName.

(** Every implemented interface is a type of the schema. *)
Definition interfaces_resolve (sch : Schema) (typDef : Definition_) : Prop :=
  ∀ iface, iface ∈ dInterfaces typDef → is_Some (Types sch !! iface).

(** *** [DgraphMapping] *)

(** [typName := name; if parentInt != "" { typName = parentInt }] *)
Definition pickNamespace (parentInt inputTypeName : string) : string :=
  if negb (String.eqb parentInt "") then parentInt else inputTypeName.

Definition del : string := "Delete".
Definition payload : string := "Payload".

(** The guard at the head of the loop body: the types the loop skips. *)
Definition skipped (inputTyp : Definition_) : bool :=
  dBuiltIn inputTyp || String.eqb (dName inputTyp) "query" ||
  String.eqb (dName inputTyp) "mutation" ||
  (negb (DefinitionKind_eqb (dKind inputTyp) Object) &&
   negb (DefinitionKind_eqb (dKind inputTyp) Interface)).

(** The type whose fields are read and the name used as namespace:
    [inputTyp] itself and its name, unless the name starts with [del] and
    ends with [payload]; then both affixes are trimmed and the type is
    looked up again.  A missing type leaves [inputTyp] nil, and the
    [range inputTyp.Fields] that follows panics: [None]. *)
Definition resolveTyp (sch : Schema) (inputTyp : Definition_)
  : option (Definition_ * string) :=
  let inputTypeName := dName inputTyp in
  if HasPrefix inputTypeName del && HasSuffix inputTypeName payload then
    let inputTypeName := TrimSuffix (TrimPrefix inputTypeName del) payload in
    match Types sch !! inputTypeName with
    | Some inputTyp => Some (inputTyp, inputTypeName)
    | None => None
    end
  else Some (inputTyp, inputTypeName).

(** The value stored for one field: [typName + "." + fld.Name]. *)
Definition predicateOf (typName fldName : string) : string :=
  typName +:+ "." +:+ fldName.

(** [for _, fld := range inputTyp.Fields], threading the map. *)
Fixpoint DgraphMapping_fields (sch : Schema) (originalTyp inputTyp : Definition_)
    (inputTypeName : string) (flds : list FieldDefinition)
    (dgraphPredicate : gmap string string) : option (gmap string string) :=
  match flds with
  | [] => Some dgraphPredicate
  | fld :: rest =>
      match parentInterface sch inputTyp (fName fld) with
      | None => None
      | Some parentInt =>
          let typName := pickNamespace parentInt inputTypeName in
          DgraphMapping_fields sch originalTyp inputTyp inputTypeName rest
            (<[dName originalTyp +:+ fName fld := predicateOf typName (fName fld)]>
               dgraphPredicate)
      end
  end.

(** The body of [for _, inputTyp := range sch.Types]. *)
Definition DgraphMapping_type (sch : Schema) (inputTyp : Definition_)
    (dgraphPredicate : gmap string string) : option (gmap string string) :=
  if skipped inputTyp then Some dgraphPredicate
  else
    let originalTyp := inputTyp in
    match resolveTyp sch inputTyp with
    | None => None
    | Some (inputTyp, inputTypeName) =>
        DgraphMapping_fields sch originalTyp inputTyp inputTypeName
          (dFields inputTyp) dgraphPredicate
    end.

(** Go leaves the order in which [range] visits a map unspecified: [visit]
    is the list of the values of [sch.Types] in the order of one run. *)
Fixpoint DgraphMapping_range (sch : Schema) (visit : list Definition_)
    (dgraphPredicate : gmap string string) : option (gmap string string) :=
  match visit with
  | [] => Some dgraphPredicate
  | inputTyp :: rest =>
      match DgraphMapping_type sch inputTyp dgraphPredicate with
      | None => None
      | Some dgraphPredicate' => DgraphMapping_range sch rest dgraphPredicate'
      end
  end.

Definition DgraphMapping (sch : Schema) (visit : list Definition_)
  : option (gmap string string) :=
  DgraphMapping_range sch visit ∅.


(** *** [genDgSchema] *)

(** One [fmt.Fprintf] into a [strings.Builder], kept with its arguments:
    - [LTypeOpen name]: ["type %s {\n"];
    - [LTypeField typName fName typStr]: ["  %s.%s: %s\n"];
    - [LTypeClose]: ["}\n"];
    - [LPred typName fName typStr indexStr]: ["%s.%s: %s%s .\n"], which is
      also the text of ["%s.%s: %s .\n"] (empty [indexStr]) and of
      ["%s.%s: string @index(exact) .\n"]. *)
Inductive Line : Set :=
| LTypeOpen (name : string)
| LTypeField (typName fldName typStr : string)
| LTypeClose
| LPred (typName fldName typStr indexStr : string).

Definition lf : string := String (ascii_of_nat 10) EmptyString.

Definition render (l : Line) : string :=
  match l with
  | LTypeOpen name => "type " +:+ name +:+ " {" +:+ lf
  | LTypeField typName fldName typStr =>
      "  " +:+ typName +:+ "." +:+ fldName +:+ ": " +:+ typStr +:+ lf
  | LTypeClose => "}" +:+ lf
  | LPred typName fldName typStr indexStr =>
      typName +:+ "." +:+ fldName +:+ ": " +:+ typStr +:+ indexStr +:+ " ." +:+ lf
  end.

(** The [String()] method of [strings.Builder] *)
Definition Builder_String (b : list Line) : string := Join0 (render <$> b).

Section Generator.

(** Package-level values of [schema] declared in another file: the name of
    the indexing directive and of its argument, the table from GraphQL
    scalars to Dgraph types and the table of default index kinds.  A Go map
    read at an absent key gives the empty string. *)
Variable searchableDirective searchableArg : string.
Variable scalarToDgraph defaultSearchables : gmap string string.

Definition tableGet (table : gmap string string) (key : string) : string :=
  default "" (table !! key).

(** The index specification of a Scalar field (lines 234-243). *)
Definition scalarIndexStr (f : FieldDefinition) : string :=
  match DirectiveList_ForName (fDirectives f) searchableDirective with
  | Some searchable =>
      match ArgumentList_ForName (dirArguments searchable) searchableArg with
      | Some arg => " @index(" +:+ aValueRaw arg +:+ ")"
      | None =>
          " @index(" +:+ tableGet defaultSearchables (Type_Name (fType f)) +:+ ")"
      end
  | None => ""
  end.

(** The body of [for _, f := range def.Fields]: what it appends to
    [typeDef] and to [preds]. *)
Definition genField (gqlSch : Schema) (def : Definition_) (f : FieldDefinition)
  : option (list Line * list Line) :=
  if String.eqb (Type_Name (fType f)) "ID" then Some ([], [])
  else
    match parentInterface gqlSch def (fName f) with
    | None => None
    | Some parentInt =>
        let typName := pickNamespace parentInt (dName def) in
        let '(prefix, suffix) :=
          match Elem (fType f) with
          | Some _ => ("[", "]")
          | None => ("", "")
          end in
        let own (l : list Line) : list Line :=
          if String.eqb parentInt "" then l else [] in
        match Types gqlSch !! Type_Name (fType f) with
        | None => None
        | Some fdef =>
            match dKind fdef with
            | Object =>
                let typStr := prefix +:+ "uid" +:+ suffix in
                Some ([LTypeField typName (fName f) typStr],
                      own [LPred typName (fName f) typStr ""])
            | Scalar =>
                let typStr :=
                  prefix +:+ tableGet scalarToDgraph (Type_Name (fType f))
                         +:+ suffix in
                let indexStr := scalarIndexStr f in
                Some ([LTypeField typName (fName f) typStr],
                      own [LPred typName (fName f) typStr indexStr])
            | Enum =>
                Some ([LTypeField typName (fName f) "string"],
                      own [LPred typName (fName f) "string" " @index(exact)"])
            | _ => Some ([], [])
            end
        end
    end.

(** [for _, f := range def.Fields], threading the two builders. *)
Fixpoint genFields (gqlSch : Schema) (def : Definition_)
    (fields : list FieldDefinition) (typeDef preds : list Line)
  : option (list Line * list Line) :=
  match fields with
  | [] => Some (typeDef, preds)
  | f :: rest =>
      match genField gqlSch def f with
      | None => None
      | Some (t, p) => genFields gqlSch def rest (typeDef ++ t) (preds ++ p)
      end
  end.

(** The case [ast.Object, ast.Interface] of the outer switch: the two
    builders when the closing brace has been written. *)
Definition genType (gqlSch : Schema) (def : Definition_)
  : option (list Line * list Line) :=
  match genFields gqlSch def (dFields def) [LTypeOpen (dName def)] [] with
  | None => None
  | Some (typeDef, preds) => Some (typeDef ++ [LTypeClose], preds)
  end.

(** [for _, key := range definitions]: the blocks appended to
    [typeStrings], before they are printed.  [gqlSch.Types[key]] is nil for
    an unknown key and [def.Kind] then panics. *)
Fixpoint genDgSchema_blocks (gqlSch : Schema) (definitions : list string)
  : option (list (list Line * list Line)) :=
  match definitions with
  | [] => Some []
  | key :: rest =>
      match Types gqlSch !! key with
      | None => None
      | Some def =>
          match dKind def with
          | Object | Interface =>
              match genType gqlSch def with
              | None => None
              | Some block => cons block <$> genDgSchema_blocks gqlSch rest
              end
          | _ => genDgSchema_blocks gqlSch rest
          end
      end
  end.

(** [fmt.Sprintf("%s%s", typeDef.String(), preds.String())] *)
Definition blockString (block : list Line * list Line) : string :=
  Builder_String block.1 +:+ Builder_String block.2.

Definition genDgSchema (gqlSch : Schema) (definitions : list string)
  : option string :=
  (λ typeStrings, Join0 (blockString <$> typeStrings))
    <$> genDgSchema_blocks gqlSch definitions.

(** The storage type and index specification the generator gives a field
    whose type is the definition [fdef]. *)
Definition typStrOf (f : FieldDefinition) (fdef : Definition_) : string :=
  let '(prefix, suffix) :=
    match Elem (fType f) with Some _ => ("[", "]") | None => ("", "") end in
  match dKind fdef with
  | Object => prefix +:+ "uid" +:+ suffix
  | Scalar => prefix +:+ tableGet scalarToDgraph (Type_Name (fType f)) +:+ suffix
  | _ => "string"
  end.

Definition indexStrOf (f : FieldDefinition) (fdef : Definition_) : string :=
  match dKind fdef with
  | Scalar => scalarIndexStr f
  | Enum => " @index(exact)"
  | _ => ""
  end.

(** All standalone predicate declarations of the output, in order. *)
Definition declaredPreds (blocks : list (list Line * list Line)) : list Line :=
  concat (snd <$> blocks).

End Generator.

(** *** Vocabulary for the properties of [DgraphMapping] *)

(** Every key of [sch.Types] is the name of the definition stored under it,
    as in a schema built by the validator. *)
Definition names_agree (sch : Schema) : Prop :=
  ∀ key def, Types sch !! key = Some def → dName def = key.

(** The loop of [DgraphMapping] meets no nil pointer: every visited type
    that is not skipped is read through a type of the schema, whose
    interfaces are types of the schema. *)
Definition mapping_wf (sch : Schema) (visit : list Definition_) : Prop :=
  ∀ U, U ∈ visit → skipped U = false →
    ∃ T tn, resolveTyp sch U = Some (T, tn) ∧ interfaces_resolve sch T.

(** The pass over [U] assigns to the key [k] of the map. *)
Definition writes_key (sch : Schema) (U : Definition_) (k : string) : Prop :=
  skipped U = false ∧
  ∃ T tn fld, resolveTyp sch U = Some (T, tn) ∧ fld ∈ dFields T ∧
    dName U +:+ fName fld = k.


(** *** Example schemas *)

Definition tString : Type_ := NamedType "String" false.
Definition tInt : Type_ := NamedType "Int" false.
Definition tID : Type_ := NamedType "ID" true.

Definition scalarDef (name : string) : Definition_ :=
  {| dKind := Scalar; dName := name; dInterfaces := []; dFields := [];
     dBuiltIn := true |}.

Definition field (name : string) (t : Type_) : FieldDefinition :=
  {| fName := name; fType := t; fDirectives := [] |}.

(** The schema of the comment on [parentInterface]. *)
Definition ifaceA : Definition_ :=
  {| dKind := Interface; dName := "A"; dInterfaces := [];
     dFields := [field "name" tString]; dBuiltIn := false |}.

Definition typeB : Definition_ :=
  {| dKind := Object; dName := "B"; dInterfaces := ["A"];
     dFields := [field "name" tString; field "age" tInt];
     dBuiltIn := false |}.

Definition schAB : Schema :=
  {| Types := <["A" := ifaceA]> (<["B" := typeB]>
                (<["String" := scalarDef "String"]>
                (<["Int" := scalarDef "Int"]> ∅))) |}.

(** An author who is a person, with two generated payload types. *)
Definition ifacePerson : Definition_ :=
  {| dKind := Interface; dName := "Person"; dInterfaces := [];
     dFields := [field "name" tString]; dBuiltIn := false |}.

Definition typeAuthor : Definition_ :=
  {| dKind := Object; dName := "Author"; dInterfaces := ["Person"];
     dFields := [field "name" tString; field "rating" tInt];
     dBuiltIn := false |}.

Definition typeDeleteAuthorPayload : Definition_ :=
  {| dKind := Object; dName := "DeleteAuthorPayload"; dInterfaces := [];
     dFields := [field "msg" tString]; dBuiltIn := false |}.

Definition typeAuthorPayload : Definition_ :=
  {| dKind := Object; dName := "AuthorPayload"; dInterfaces := [];
     dFields := [field "name" tString]; dBuiltIn := false |}.

Definition schAuthor : Schema :=
  {| Types := <["Person" := ifacePerson]> (<["Author" := typeAuthor]>
                (<["DeleteAuthorPayload" := typeDeleteAuthorPayload]>
                (<["AuthorPayload" := typeAuthorPayload]>
                (<["String" := scalarDef "String"]>
                (<["Int" := scalarDef "Int"]> ∅))))) |}.

Definition visitAuthor : list Definition_ := (map_to_list (Types schAuthor)).*2.

(** *** Vocabulary for the properties of [genDgSchema] *)

(** Is the line the standalone declaration of the predicate
    [typName.fldName]? *)
Definition isPred (typName fldName : string) (l : Line) : bool :=
  match l with
  | LPred tn fn _ _ => String.eqb tn typName && String.eqb fn fldName
  | _ => false
  end.

(** How many times the predicate [typName.fldName] is declared. *)
Definition countPred (typName fldName : string) (lines : list Line) : nat :=
  length (List.filter (isPred typName fldName) lines).

(** A field that is stored under a predicate: its type is not [ID] and is
    of one of the three kinds the generator has a case for. *)
Definition has_predicate (gqlSch : Schema) (f : FieldDefinition) : Prop :=
  Type_Name (fType f) ≠ "ID" ∧
  ∃ fdef, Types gqlSch !! Type_Name (fType f) = Some fdef ∧
    (dKind fdef = Object ∨ dKind fdef = Scalar ∨ dKind fdef = Enum).

(** The generator meets no nil pointer: every definition is a type of the
    schema, and those of Object or Interface kind implement interfaces of
    the schema and have fields whose types, [ID] apart, are types of the
    schema. *)
Definition gen_wf (gqlSch : Schema) (definitions : list string) : Prop :=
  ∀ key, key ∈ definitions →
    ∃ def, Types gqlSch !! key = Some def ∧
      (dKind def = Object ∨ dKind def = Interface →
       interfaces_resolve gqlSch def ∧
       ∀ f, f ∈ dFields def → Type_Name (fType f) ≠ "ID" →
         is_Some (Types gqlSch !! Type_Name (fType f))).

(** *** Example: a type with a searchable field, and an interface with an
    identifier *)

Definition exDirective : string := "searchable".
Definition exArg : string := "by".
Definition exScalarToDgraph : gmap string string :=
  <["Int" := "int"]> (<["String" := "string"]> (<["ID" := "uid"]> ∅)).
Definition exDefaultSearchables : gmap string string :=
  <["Int" := "int"]> (<["String" := "term"]> ∅).

Definition fieldSearchable : FieldDefinition :=
  {| fName := "f"; fType := tInt;
     fDirectives := [ {| dirName := "searchable"; dirArguments := [] |} ] |}.

Definition typeT : Definition_ :=
  {| dKind := Object; dName := "T"; dInterfaces := [];
     dFields := [fieldSearchable]; dBuiltIn := false |}.

Definition schT : Schema :=
  {| Types := <["T" := typeT]> (<["Int" := scalarDef "Int"]> ∅) |}.

Definition ifaceCharacter : Definition_ :=
  {| dKind := Interface; dName := "Character"; dInterfaces := [];
     dFields := [field "id" tID; field "name" tString]; dBuiltIn := false |}.

Definition typeHuman : Definition_ :=
  {| dKind := Object; dName := "Human"; dInterfaces := ["Character"];
     dFields := [field "id" tID; field "name" tString;
                 field "totalCredits" tInt;
                 field "friends" (ListType (NamedType "Human" false) false)];
     dBuiltIn := false |}.

(** A type that does not list the fields of its interface again. *)
Definition typeDroid : Definition_ :=
  {| dKind := Object; dName := "Droid"; dInterfaces := ["Character"];
     dFields := [field "primaryFunction" tString]; dBuiltIn := false |}.

Definition schHuman : Schema :=
  {| Types := <["Character" := ifaceCharacter]> (<["Human" := typeHuman]>
                (<["Droid" := typeDroid]>
                (<["ID" := scalarDef "ID"]>
                (<["String" := scalarDef "String"]>
                (<["Int" := scalarDef "Int"]> ∅))))) |}.

Definition defsHuman : list string := ["Character"; "Human"; "Droid"].

(** *** [NewHandler] *)

(** The result of [NewHandler]: the handler, the error list, or a panic of
    [genDgSchema]. *)
Record handler : Type := {
  input : string;
  originalDefs : list string;
  completeSchema_ : Schema;
  dgraphSchema : string
}.

Inductive HandlerResult : Type :=
| HandlerOk (h : handler)
| HandlerErr (errs : list string)
| HandlerPanic.

(** [func (s *handler) DGSchema() string] *)
Definition DGSchema (s : handler) : string := dgraphSchema s.

(** The loop over [doc.Definitions] that records the original definitions:
    the names of those that are not built in, in the order of the document. *)
Fixpoint originalDefinitions (definitions : list Definition_) : list string :=
  match definitions with
  | [] => []
  | defn :: rest =>
      if dBuiltIn defn then originalDefinitions rest
      else dName defn :: originalDefinitions rest
  end.

Section NewHandler.

Variable searchableDirective searchableArg : string.
Variable scalarToDgraph defaultSearchables : gmap string string.

(** The collaborators of [NewHandler], none of them under this package's
    [schemagen.go]: the parser (on the prelude and the input), the two
    validations of the layer, the expansion and the completion, which
    change their argument in place, and the GraphQL validator.  An error
    list is [None] for Go's nil. *)
Variable SchemaDocument : Type.
Variable Definitions : SchemaDocument → list Definition_.
Variable parser_ParseSchemas : string → SchemaDocument + string.
Variable preGQLValidation : SchemaDocument → option (list string).
Variable expandSchema : SchemaDocument → SchemaDocument.
Variable validator_ValidateSchemaDocument : SchemaDocument → Schema + string.
Variable postGQLValidation : Schema → list string → option (list string).
Variable completeSchema : Schema → list string → Schema.

Definition NewHandler (input : string) : HandlerResult :=
  if String.eqb input "" then HandlerErr ["No schema specified"]
  else
    match parser_ParseSchemas input with
    | inr gqlErr => HandlerErr [gqlErr]
    | inl doc =>
        match preGQLValidation doc with
        | Some gqlErrList => HandlerErr gqlErrList
        | None =>
            let defns := originalDefinitions (Definitions doc) in
            let doc := expandSchema doc in
            match validator_ValidateSchemaDocument doc with
            | inr gqlErr => HandlerErr [gqlErr]
            | inl sch =>
                match postGQLValidation sch defns with
                | Some gqlErrList => HandlerErr gqlErrList
                | None =>
                    match genDgSchema searchableDirective searchableArg
                            scalarToDgraph defaultSearchables sch defns with
                    | None => HandlerPanic
                    | Some dgSchema =>
                        let sch := completeSchema sch defns in
                        HandlerOk {| input := input;
                                     dgraphSchema := dgSchema;
                                     completeSchema_ := sch;
                                     originalDefs := defns |}
                    end
                end
            end
        end
    end.

End NewHandler.

(** *** More vocabulary for [DgraphMapping] and [genDgSchema] *)

(** No key of the map is written by two of the visited types. *)
Definition unambiguous (sch : Schema) (visit : list Definition_) : Prop :=
  ∀ U1 U2 k, U1 ∈ visit → U2 ∈ visit →
    writes_key sch U1 k → writes_key sch U2 k → U1 = U2.

(** Does [genDgSchema] write a block for the definition under [key]? *)
Definition isGenerated (gqlSch : Schema) (key : string) : bool :=
  match Types gqlSch !! key with
  | Some def =>
      DefinitionKind_eqb (dKind def) Object ||
      DefinitionKind_eqb (dKind def) Interface
  | None => false
  end.

Definition isTypeFieldLine (l : Line) : Prop :=
  match l with LTypeField _ _ _ => True | _ => False end.

Definition isPredLine (l : Line) : Prop :=
  match l with LPred _ _ _ _ => True | _ => False end.

(** Two types whose names and fields run into the same key. *)
Definition typeA_bc : Definition_ :=
  {| dKind := Object; dName := "A"; dInterfaces := [];
     dFields := [field "bc" tString]; dBuiltIn := false |}.

Definition typeAb_c : Definition_ :=
  {| dKind := Object; dName := "Ab"; dInterfaces := [];
     dFields := [field "c" tString]; dBuiltIn := false |}.

Definition schClash : Schema :=
  {| Types := <["A" := typeA_bc]> (<["Ab" := typeAb_c]> ∅) |}.

(** A schema with a payload type whose original type is missing. *)
Definition schOrphan : Schema :=
  {| Types := <["DeleteAuthorPayload" := typeDeleteAuthorPayload]> ∅ |}.

(** Stand-ins for the collaborators of [NewHandler]: a parser that gives
    the document of the example with a built-in scalar in front, and
    checks that pass. *)
Definition exParse (input : string) : list Definition_ + string :=
  inl [scalarDef "String"; ifaceCharacter; typeHuman; typeDroid].

Definition exNewHandler : string → HandlerResult :=
  NewHandler exDirective exArg exScalarToDgraph exDefaultSearchables
    (list Definition_) id exParse (λ _, None) id (λ _, inl schHuman)
    (λ _ _, None) (λ sch _, sch).

Definition exInput : string := "interface Character { id: ID! name: String }".

(** *** Example: the indexing directive with an argument *)

Definition searchableBy (kind : string) : Directive :=
  {| dirName := "searchable";
     dirArguments := [ {| aName := "by"; aValueRaw := kind |} ] |}.

(** [type Tag { label: String @searchable(by: hash) }] *)
Definition fieldLabel : FieldDefinition :=
  {| fName := "label"; fType := tString; fDirectives := [searchableBy "hash"] |}.

Definition typeTag : Definition_ :=
  {| dKind := Object; dName := "Tag"; dInterfaces := [];
     dFields := [fieldLabel]; dBuiltIn := false |}.

Definition schTag : Schema :=
  {| Types := <["Tag" := typeTag]> (<["String" := scalarDef "String"]> ∅) |}.

(** [interface Person { name: String }] and
    [type Writer implements Person {
       id: ID! @searchable(by: hash)  name: String @searchable(by: hash) }] *)
Definition fieldIdHash : FieldDefinition :=
  {| fName := "id"; fType := tID; fDirectives := [searchableBy "hash"] |}.

Definition fieldNameHash : FieldDefinition :=
  {| fName := "name"; fType := tString; fDirectives := [searchableBy "hash"] |}.

Definition typeWriter : Definition_ :=
  {| dKind := Object; dName := "Writer"; dInterfaces := ["Person"];
     dFields := [fieldIdHash; fieldNameHash]; dBuiltIn := false |}.

Definition schWriter : Schema :=
  {| Types := <["Person" := ifacePerson]> (<["Writer" := typeWriter]>
                (<["ID" := scalarDef "ID"]>
                (<["String" := scalarDef "String"]> ∅))) |}.

(** *** Example: a payload type without the [Delete] prefix that implements
    an interface *)

(** [type WriterPayload implements Person { name: String }] *)
Definition typeWriterPayload : Definition_ :=
  {| dKind := Object; dName := "WriterPayload"; dInterfaces := ["Person"];
     dFields := [field "name" tString]; dBuiltIn := false |}.

Definition schWriterPayload : Schema :=
  {| Types := <["Person" := ifacePerson]>
                (<["WriterPayload" := typeWriterPayload]>
                (<["String" := scalarDef "String"]> ∅)) |}.

Definition visitWriterPayload : list Definition_ :=
  (map_to_list (Types schWriterPayload)).*2.

(** *** Vocabulary for the directives of a field *)

(** [d] is the first directive of the list named [name]. *)
Definition firstDirective (l : list Directive) (name : string) (d : Directive)
  : Prop :=
  ∃ pre post, l = pre ++ d :: post ∧ dirName d = name ∧
    ∀ x, x ∈ pre → dirName x ≠ name.

(** [a] is the first argument of the list named [name]. *)
Definition firstArgument (l : list Argument) (name : string) (a : Argument)
  : Prop :=
  ∃ pre post, l = pre ++ a :: post ∧ aName a = name ∧
    ∀ x, x ∈ pre → aName x ≠ name.

End Schema.

(** ** Package [alpha]: the HTTP handlers *)

Module Alpha.

Import GoStrings.

(** *** Values shared by the handlers *)

(** The status codes of package [x] the handlers use ([x.Success],
    [x.Error], [x.ErrorInvalidRequest], [x.ErrorInvalidMethod]). *)
Inductive StatusCode : Set :=
| Success | Error | ErrorInvalidRequest | ErrorInvalidMethod.

(** Go [error] values, as far as the handlers tell them apart:
    the sentinel [dgo.ErrAborted] (compared by identity), the two JSON
    decode errors that carry an offset (with the text of their [Error()]),
    the error of [strconv] on a malformed value, an error wrapped by
    [errors.Wrapf], and an error made from a message. *)
Inductive error : Set :=
| dgo_ErrAborted
| json_SyntaxError (msg : string) (Offset : Z)
| json_UnmarshalTypeError (msg : string) (Offset : Z)
| strconv_NumError (Func Num : string)
| errors_Wrapf (err : error) (msg : string)
| errorString (msg : string).

(** What a handler does to its [http.ResponseWriter] and request body:
    [x.SetStatus] and [x.SetStatusWithData] with a message, or with the
    text of an error, and the calls that read the body. *)
Inductive Event : Set :=
| EvSetStatus (code : StatusCode) (msg : string)
| EvSetStatusErr (code : StatusCode) (err : error)
| EvSetStatusWithData (code : StatusCode) (msg : string)
| EvSetStatusWithDataErr (code : StatusCode) (err : error)
| EvGzipNewReader
| EvReadAll.

(** [url.Values] and [http.Header]: [map[string][]string]; [Get] gives the
    first value of the key, or the empty string. *)
Definition Values_Get (v : gmap string (list string)) (key : string) : string :=
  match v !! key with
  | Some (value :: _) => value
  | _ => ""
  end.

(** [%d] of a Go [int] *)
Definition fmt_d (z : Z) : string :=
  DecimalString.NilZero.string_of_int (Z.to_int z).

(** *** [readRequest] *)

Section ReadRequest.

(** [io.Reader]s are opaque: [ioutil.ReadAll] gives the bytes or an error
    text, [gzip.NewReader] a decompressing reader or fails. *)
Variable Reader : Type.
Variable ioutil_ReadAll : Reader → string + string.
Variable gzip_NewReader : Reader → option Reader.

(** The result is the body, [None] for Go's nil, with the events in the
    order they happen. *)
Definition readRequest (Header : gmap string (list string)) (Body : Reader)
  : option string * list Event :=
  let finish (in_ : Reader) (before : list Event) :=
    match ioutil_ReadAll in_ with
    | inr errText =>
        (None, before ++ [EvReadAll; EvSetStatus ErrorInvalidRequest errText])
    | inl body => (Some body, before ++ [EvReadAll])
    end in
  let enc := Values_Get Header "Content-Encoding" in
  if negb (String.eqb enc "") && negb (String.eqb enc "identity") then
    if String.eqb enc "gzip" then
      match gzip_NewReader Body with
      | None =>
          (None, [EvGzipNewReader;
                  EvSetStatus Error "Unable to create decompressor"])
      | Some gz => finish gz [EvGzipNewReader]
      end
    else
      (None, [EvSetStatus ErrorInvalidRequest "Unsupported content encoding"])
  else finish Body [].

End ReadRequest.

(** *** [parseBool] *)

(** [strconv.ParseBool] of the Go standard library *)
Definition strconv_ParseBool (str : string) : option bool :=
  if existsb (String.eqb str) ["1"; "t"; "T"; "TRUE"; "true"; "True"]
  then Some true
  else if existsb (String.eqb str) ["0"; "f"; "F"; "FALSE"; "false"; "False"]
  then Some false
  else None.

Definition parseBool (URLQuery : gmap string (list string)) (name : string)
  : bool + error :=
  let value := Values_Get URLQuery name in
  if String.eqb value "" then inl false
  else
    match strconv_ParseBool value with
    | None =>
        inr (errors_Wrapf (strconv_NumError "ParseBool" value)
               ("while parsing " +:+ name +:+ " as bool"))
    | Some boolval => inl boolval
    end.

(** *** [parseUint64] *)

Section ParseUint64.

(** [strconv.ParseUint(value, 0, 64)] of the Go standard library *)
Variable strconv_ParseUint : string → option Z.

Definition parseUint64 (URLQuery : gmap string (list string)) (name : string)
  : Z + error :=
  let value := Values_Get URLQuery name in
  if String.eqb value "" then inl 0
  else
    match strconv_ParseUint value with
    | None =>
        inr (errors_Wrapf (strconv_NumError "ParseUint" value)
               ("while parsing " +:+ name +:+ " as uint64"))
    | Some uintVal => inl uintVal
    end.

End ParseUint64.

(** *** [api.Request], [api.TxnContext], [api.Latency], [api.Response]

    The fields the handlers read or write; the variables and mutations of
    a request are passed on to the engine untouched. *)

Module Request.
Record t : Set := {
  Query : string;
  StartTs : Z;
  ReadOnly : bool;
  BestEffort : bool;
  CommitNow : bool
}.
End Request.

Module TxnContext.
Record t : Set := {
  StartTs : Z;
  CommitTs : Z;
  Aborted : bool;
  Keys : list string;
  Preds : list string
}.
End TxnContext.

Module Latency.
Record t : Set := { ParsingNs : Z; ProcessingNs : Z; EncodingNs : Z }.
End Latency.

Module Response.
Record t : Type := {
  Json : string;
  Txn : option TxnContext.t;
  Latency : option Latency.t;
  Uids : gmap string string
}.
End Response.

(** [query.Extensions], without the metrics *)
Module Extensions.
Record t : Set := { Txn : TxnContext.t; Latency : Latency.t }.
End Extensions.

(** *** [queryHandler]: the request sent to the engine (lines 219-246) *)

Definition queryHandler_request (URLQuery : gmap string (list string))
    (paramsQuery : string) (startTs : Z) : Event + Request.t :=
  let req := {| Request.Query := paramsQuery; Request.StartTs := startTs;
                Request.ReadOnly := false; Request.BestEffort := false;
                Request.CommitNow := false |} in
  if Request.StartTs req =? 0 then
    match parseBool URLQuery "be" with
    | inr err => inl (EvSetStatusErr ErrorInvalidRequest err)
    | inl isBestEffort =>
        let req :=
          if isBestEffort
          then {| Request.Query := Request.Query req;
                  Request.StartTs := Request.StartTs req;
                  Request.ReadOnly := true; Request.BestEffort := true;
                  Request.CommitNow := Request.CommitNow req |}
          else req in
        match parseBool URLQuery "ro" with
        | inr err => inl (EvSetStatusErr ErrorInvalidRequest err)
        | inl isReadOnly =>
            inr (if isReadOnly
                 then {| Request.Query := Request.Query req;
                         Request.StartTs := Request.StartTs req;
                         Request.ReadOnly := true;
                         Request.BestEffort := Request.BestEffort req;
                         Request.CommitNow := Request.CommitNow req |}
                 else req)
        end
    end
  else inr req.

(** *** [mutationHandler]: assembling the response (lines 371-408) *)

(** How a piece of a handler ends: with a value, with an error status
    written to the response, or with a run-time panic. *)
Inductive Outcome (A : Type) : Type :=
| Done (a : A)
| Failed (ev : Event)
| Panic.
Arguments Done {A} a.
Arguments Failed {A} ev.
Arguments Panic {A}.

(** [sort.Strings]: ascending in Go's [<] on strings, the byte-wise
    lexicographic order.  Equal strings cannot be told apart, so the result
    does not depend on the sorting algorithm. *)
Definition sort_Strings (a : list string) : list string :=
  merge_sort String.le a.

(** Lines 371-382.  [parsingNs] is the measured parsing time.
    [resp.Latency] and [resp.Txn] are pointers; writing or reading a field
    through a nil one panics. *)
Definition mutationHandler_extensions (parsingNs : Z) (reqCommitNow : bool)
    (resp : Response.t) : Outcome Extensions.t :=
  match Response.Latency resp with
  | None => Panic
  | Some latency =>
      let latency :=
        {| Latency.ParsingNs := parsingNs;
           Latency.ProcessingNs := Latency.ProcessingNs latency;
           Latency.EncodingNs := Latency.EncodingNs latency |} in
      match Response.Txn resp with
      | None => Panic
      | Some txn =>
          let keys := sort_Strings (TxnContext.Keys txn) in
          let preds := sort_Strings (TxnContext.Preds txn) in
          let keys := if reqCommitNow then [] else keys in
          Done {| Extensions.Txn :=
                    {| TxnContext.StartTs := TxnContext.StartTs txn;
                       TxnContext.CommitTs := TxnContext.CommitTs txn;
                       TxnContext.Aborted := TxnContext.Aborted txn;
                       TxnContext.Keys := keys;
                       TxnContext.Preds := preds |};
                  Extensions.Latency := latency |}
      end
  end.

(** The values stored in a [map[string]interface{}] by the handlers. *)
Inductive Value : Type :=
| VCode (code : StatusCode)
| VString (s : string)
| VUids (uids : gmap string string).

(** [response["data"]]: the raw bytes of a [json.RawMessage], or the map. *)
Inductive Data : Type :=
| DataRaw (bytes : string)
| DataMap (mp : gmap string Value).

(** [mp], lines 386-389 *)
Definition mutationHandler_mp (resp : Response.t) : gmap string Value :=
  <["uids" := VUids (Response.Uids resp)]>
    (<["message" := VString "Done"]> (<["code" := VCode Success]> ∅)).

Section MutationData.

(** [json.Marshal] on the map: the bytes, or the text of the error. *)
Variable json_Marshal : gmap string Value → string + string.

(** Lines 391-408.  [data[1:]] panics on an empty [data]. *)
Definition mutationHandler_data (resp : Response.t) : Outcome Data :=
  let mp := mutationHandler_mp resp in
  let l := String.length (Response.Json resp) in
  if (2 <? l)%nat &&
     bool_decide (String.get (l - 1) (Response.Json resp) = Some "}"%char)
  then
    match json_Marshal mp with
    | inr errText => Failed (EvSetStatusWithData Error errText)
    | inl data =>
        match data with
        | EmptyString => Panic
        | String _ _ =>
            let out := take_bytes (l - 1) (Response.Json resp) in
            let out := out +:+ "," in
            let out := out +:+ drop_bytes 1 data in
            Done (DataRaw out)
        end
    end
  else Done (DataMap mp).

End MutationData.

(** *** [mutationHandler], from the parameters to the response *)

Section MutationHandler.

Variable strconv_ParseUint : string → option Z.
Variable json_Marshal : gmap string Value → string + string.

(** [(&edgraph.Server{}).Query(ctx, req)]: the response or the error.  The
    callee is taken to leave [req.CommitNow] as the handler has set it. *)
Variable edgraph_Query : Request.t → Response.t + error.

(** [parsed] stands for lines 302-356, reading and decoding the body: the
    request, or the error status written.  [parsingNs] is the time they
    took.  A successful run gives the two entries of [response]. *)
Definition mutationHandler (URLQuery : gmap string (list string))
    (parsed : Event + Request.t) (parsingNs : Z)
  : Outcome (Extensions.t * Data) :=
  match parseBool URLQuery "commitNow" with
  | inr err => Failed (EvSetStatusErr ErrorInvalidRequest err)
  | inl commitNow =>
      match parseUint64 strconv_ParseUint URLQuery "startTs" with
      | inr err => Failed (EvSetStatusErr ErrorInvalidRequest err)
      | inl startTs =>
          match parsed with
          | inl ev => Failed ev
          | inr req =>
              let req := {| Request.Query := Request.Query req;
                            Request.StartTs := startTs;
                            Request.ReadOnly := Request.ReadOnly req;
                            Request.BestEffort := Request.BestEffort req;
                            Request.CommitNow := commitNow |} in
              match edgraph_Query req with
              | inr err =>
                  Failed (EvSetStatusWithDataErr ErrorInvalidRequest err)
              | inl resp =>
                  match mutationHandler_extensions parsingNs
                          (Request.CommitNow req) resp with
                  | Panic => Panic
                  | Failed ev => Failed ev
                  | Done e =>
                      match mutationHandler_data json_Marshal resp with
                      | Panic => Panic
                      | Failed ev => Failed ev
                      | Done data => Done (e, data)
                      end
                  end
              end
          end
      end
  end.

End MutationHandler.

(** *** [handleAbort] *)

Section HandleAbort.

(** [worker.CommitOverNetwork]: the commit timestamp and the error. *)
Variable CommitOverNetwork : TxnContext.t → Z * option error.

Definition handleAbort (startTs : Z) : gmap string Value + error :=
  let tc := {| TxnContext.StartTs := startTs; TxnContext.CommitTs := 0;
               TxnContext.Aborted := true; TxnContext.Keys := [];
               TxnContext.Preds := [] |} in
  let '(_, err) := CommitOverNetwork tc in
  match err with
  | Some dgo_ErrAborted =>
      inl (<["message" := VString "Done"]> (<["code" := VCode Success]> ∅))
  | None => inr (errorString "transaction could not be aborted")
  | Some err => inr err
  end.

End HandleAbort.

(** *** [commitHandler] *)

Section CommitHandler.

Variable strconv_ParseUint : string → option Z.
Variable CommitOverNetwork : TxnContext.t → Z * option error.

(** [commitPath] stands for the branch without abort, lines 445-451:
    reading the body and [handleCommit]. *)
Variable commitPath : Z → Outcome (gmap string Value).

(** A successful run gives the [response] that is then serialized. *)
Definition commitHandler (URLQuery : gmap string (list string))
  : Outcome (gmap string Value) :=
  match parseUint64 strconv_ParseUint URLQuery "startTs" with
  | inr err => Failed (EvSetStatusErr ErrorInvalidRequest err)
  | inl startTs =>
      if startTs =? 0 then
        Failed (EvSetStatus ErrorInvalidRequest
                  "startTs parameter is mandatory while trying to commit")
      else
        match parseBool URLQuery "abort" with
        | inr err => Failed (EvSetStatusErr ErrorInvalidRequest err)
        | inl abort =>
            if abort then
              match handleAbort CommitOverNetwork startTs with
              | inr err => Failed (EvSetStatusErr ErrorInvalidRequest err)
              | inl response => Done response
              end
            else commitPath startTs
        end
  end.

End CommitHandler.

(** The transaction context of an abort. *)
Definition abortContext (startTs : Z) : TxnContext.t :=
  {| TxnContext.StartTs := startTs; TxnContext.CommitTs := 0;
     TxnContext.Aborted := true; TxnContext.Keys := [];
     TxnContext.Preds := [] |}.

(** The success envelope: code [Success], message [Done]. *)
Definition successEnvelope : gmap string Value :=
  <["message" := VString "Done"]> (<["code" := VCode Success]> ∅).

(** An engine that reports every aborted transaction as aborted. *)
Definition abortingCommit (tc : TxnContext.t) : Z * option error :=
  (0, if TxnContext.Aborted tc then Some dgo_ErrAborted else None).

(** *** [jsonLineAndChar] and [convertJSONError] *)

Definition RuneError : Z := 0xFFFD.

Definition byteZ (c : ascii) : Z := Z.of_N (N_of_ascii c).

(** [utf8.DecodeRuneInString]: the rune at the head of [s] and its width in
    bytes; an invalid or truncated encoding gives [RuneError] of width 1. *)
Definition DecodeRuneInString (s : string) : Z * nat :=
  match s with
  | EmptyString => (RuneError, 0%nat)
  | String c0 t0 =>
      let s0 := byteZ c0 in
      if s0 <? 0x80 then (s0, 1%nat)
      else if (s0 <? 0xC2) || (0xF4 <? s0) then (RuneError, 1%nat)
      else
        let sz : nat :=
          if s0 <? 0xE0 then 2%nat else if s0 <? 0xF0 then 3%nat else 4%nat in
        let '(lo, hi) :=
          if s0 =? 0xE0 then (0xA0, 0xBF)
          else if s0 =? 0xED then (0x80, 0x9F)
          else if s0 =? 0xF0 then (0x90, 0xBF)
          else if s0 =? 0xF4 then (0x80, 0x8F)
          else (0x80, 0xBF) in
        if (String.length s <? sz)%nat then (RuneError, 1%nat)
        else
          match t0 with
          | EmptyString => (RuneError, 1%nat)
          | String c1 t1 =>
              let s1 := byteZ c1 in
              if (s1 <? lo) || (hi <? s1) then (RuneError, 1%nat)
              else if (sz <=? 2)%nat then
                (Z.lor (Z.shiftl (Z.land s0 0x1F) 6) (Z.land s1 0x3F), 2%nat)
              else
                match t1 with
                | EmptyString => (RuneError, 1%nat)
                | String c2 t2 =>
                    let s2 := byteZ c2 in
                    if (s2 <? 0x80) || (0xBF <? s2) then (RuneError, 1%nat)
                    else if (sz <=? 3)%nat then
                      (Z.lor (Z.lor (Z.shiftl (Z.land s0 0x0F) 12)
                                    (Z.shiftl (Z.land s1 0x3F) 6))
                             (Z.land s2 0x3F), 3%nat)
                    else
                      match t2 with
                      | EmptyString => (RuneError, 1%nat)
                      | String c3 _ =>
                          let s3 := byteZ c3 in
                          if (s3 <? 0x80) || (0xBF <? s3)
                          then (RuneError, 1%nat)
                          else
                            (Z.lor (Z.lor (Z.lor
                               (Z.shiftl (Z.land s0 0x07) 18)
                               (Z.shiftl (Z.land s1 0x3F) 12))
                               (Z.shiftl (Z.land s2 0x3F) 6))
                               (Z.land s3 0x3F), 4%nat)
                      end
                end
          end
  end.

(** [for i, b := range s]: the pairs of byte index and rune the loop
    yields.  [skip] counts the bytes still to pass of the rune in progress. *)
Fixpoint range_string_go (s : string) (i : Z) (skip : nat) : list (Z * Z) :=
  match s with
  | EmptyString => []
  | String _ s' =>
      match skip with
      | S skip' => range_string_go s' (i + 1) skip'
      | O =>
          let '(b, width) := DecodeRuneInString s in
          (i, b) :: range_string_go s' (i + 1) (width - 1)
      end
  end.

Definition range_string (s : string) : list (Z * Z) := range_string_go s 0 0.

(** The loop of [jsonLineAndChar] over the pairs still to come. *)
Fixpoint jsonLineAndChar_range (pairs : list (Z * Z)) (offset line character : Z)
  : Z * Z :=
  match pairs with
  | [] => (line, character)
  | (i, b) :: rest =>
      let '(line, character) :=
        if b =? 0x0A then (line + 1, 0) else (line, character) in
      let character := character + 1 in
      if i =? offset then (line, character)
      else jsonLineAndChar_range rest offset line character
  end.

Definition jsonLineAndChar (input : string) (offset : Z)
  : Z * Z * option error :=
  if (Z.of_nat (String.length input) <? offset) || (offset <? 0) then
    (0, 0, Some (errorString ("Couldn't find offset " +:+ fmt_d offset +:+
                              " within the input.")))
  else
    let '(line, character) :=
      jsonLineAndChar_range (range_string input) offset 1 0 in
    (line, character, None).

(** The message of ["Error parsing JSON at line %d, character %d: %v\n"] *)
Definition jsonErrorText (line character : Z) (msg : string) : string :=
  "Error parsing JSON at line " +:+ fmt_d line +:+ ", character " +:+
  fmt_d character +:+ ": " +:+ msg +:+ String (ascii_of_nat 10) EmptyString.

Definition convertJSONError (input : string) (err : option error)
  : option error :=
  match err with
  | None => None
  | Some (json_SyntaxError msg Offset as jsonError)
  | Some (json_UnmarshalTypeError msg Offset as jsonError) =>
      let '(line, character, lcErr) := jsonLineAndChar input Offset in
      match lcErr with
      | Some _ => err
      | None => Some (errorString (jsonErrorText line character msg))
      end
  | Some _ => err
  end.

(** *** Vocabulary for the properties of [jsonLineAndChar] *)

(** The pairs the loop visits: up to and with the one at [offset], all of
    them when no rune starts at [offset]. *)
Fixpoint scanned (pairs : list (Z * Z)) (offset : Z) : list (Z * Z) :=
  match pairs with
  | [] => []
  | (i, b) :: rest => (i, b) :: if i =? offset then [] else scanned rest offset
  end.

Definition isLF (b : Z) : bool := b =? 0x0A.

(** The number of line feeds among the runes. *)
Definition countLF (runes : list Z) : Z :=
  Z.of_nat (length (List.filter isLF runes)).

(** The runes from the last line feed on, with it; all of them when there
    is none. *)
Fixpoint lastLine (runes : list Z) : list Z :=
  match runes with
  | [] => []
  | b :: rest => if existsb isLF rest then lastLine rest else b :: rest
  end.

(** *** Example values *)

Definition dquote : string := String (ascii_of_nat 34) EmptyString.

(** The body [{"query": }] *)
Definition badBody : string :=
  "{" +:+ dquote +:+ "query" +:+ dquote +:+ ": }".

Definition exMutationQuery : gmap string (list string) :=
  <["commitNow" := ["true"]]> ∅.

Definition exAbortQuery : gmap string (list string) :=
  <["abort" := ["true"]]> (<["startTs" := ["5"]]> ∅).

Definition exQueryQuery : gmap string (list string) :=
  <["be" := ["true"]]> ∅.

Definition exRequest : Request.t :=
  {| Request.Query := ""; Request.StartTs := 0; Request.ReadOnly := false;
     Request.BestEffort := false; Request.CommitNow := false |}.

Definition exResponse : Response.t :=
  {| Response.Json := "{}";
     Response.Txn := Some {| TxnContext.StartTs := 7; TxnContext.CommitTs := 9;
                             TxnContext.Aborted := false;
                             TxnContext.Keys := ["k2"; "k1"];
                             TxnContext.Preds := ["1-name"; "1-age"] |};
     Response.Latency := Some {| Latency.ParsingNs := 0;
                                 Latency.ProcessingNs := 5;
                                 Latency.EncodingNs := 3 |};
     Response.Uids := ∅ |}.

(** A response with a query result, and a stand-in for [json.Marshal]. *)
Definition exQueryResponse : Response.t :=
  {| Response.Json := "{" +:+ dquote +:+ "q" +:+ dquote +:+ ":[]}";
     Response.Txn := Response.Txn exResponse;
     Response.Latency := Response.Latency exResponse;
     Response.Uids := ∅ |}.

Definition exMarshal (mp : gmap string Value) : string + string :=
  inl ("{" +:+ dquote +:+ "code" +:+ dquote +:+ ":" +:+
       dquote +:+ "Success" +:+ dquote +:+ "}").

(** *** [allowed] and [commonHandler] *)

(** [http.MethodPost] and [http.MethodPut] *)
Definition allowed (method : string) : bool :=
  String.eqb method "POST" || String.eqb method "PUT".

(** What [commonHandler] does to the response: the CORS headers of
    [x.AddCorsHeaders], a header set, the status line, [x.SetStatus]. *)
Inductive CommonEvent : Set :=
| CevAddCorsHeaders
| CevHeaderSet (key value : string)
| CevWriteHeader (statusCode : Z)
| CevSetStatus (code : StatusCode) (msg : string).

(** The result is true when the request is completely handled. *)
Definition commonHandler (Method : string) : bool * list CommonEvent :=
  let before :=
    [CevAddCorsHeaders; CevHeaderSet "Content-Type" "application/json"] in
  if String.eqb Method "OPTIONS" then (true, before)
  else if negb (allowed Method) then
    (true, before ++ [CevWriteHeader 400;
                      CevSetStatus ErrorInvalidMethod "Invalid method"])
  else (false, before).

(** *** [writeResponse] *)

(** [strings.Contains(s, substr)] *)
Fixpoint Contains (s substr : string) : bool :=
  if HasPrefix s substr then true
  else
    match s with
    | EmptyString => false
    | String _ s' => Contains s' substr
    end.

(** The state of an [http.ResponseWriter]: its header and the bytes
    written to it.  A failure of the connection is not modelled, and the
    count and error [writeResponse] returns with it. *)
Record ResponseWriter : Type := {
  wHeader : gmap string (list string);
  wBody : string
}.

Section WriteResponse.

(** What a [gzip.Writer] has written to its sink when it is closed. *)
Variable gzip_compress : string → string.

Definition writeResponse (w : ResponseWriter)
    (Header : gmap string (list string)) (b : string) : ResponseWriter :=
  if Contains (Values_Get Header "Accept-Encoding") "gzip" then
    {| wHeader := <["Content-Encoding" := ["gzip"]]> (wHeader w);
       wBody := wBody w +:+ gzip_compress b |}
  else {| wHeader := wHeader w; wBody := wBody w +:+ b |}.

End WriteResponse.

(** *** [handleCommit] *)

(** The [response] of [handleCommit]: the transaction context under
    [extensions] and the map under [data]. *)
Record CommitResponse : Type := {
  crTxn : TxnContext.t;
  crData : gmap string Value
}.

Section HandleCommit.

(** [json.Unmarshal] of the body into a [[]string], [None] when it fails,
    and into a [map[string][]string]. *)
Variable json_Unmarshal_list : string → option (list string).
Variable json_Unmarshal_map : string → gmap string (list string) + error.
Variable CommitOverNetwork : TxnContext.t → Z * option error.

(** A key that is absent from a Go map reads as nil. *)
Definition mapGet (m : gmap string (list string)) (key : string) : list string :=
  default [] (m !! key).

Definition handleCommit (startTs : Z) (reqText : string)
  : CommitResponse + error :=
  let continue (keys preds : list string) : CommitResponse + error :=
    let tc := {| TxnContext.StartTs := startTs; TxnContext.CommitTs := 0;
                 TxnContext.Aborted := false; TxnContext.Keys := keys;
                 TxnContext.Preds := preds |} in
    let '(cts, err) := CommitOverNetwork tc in
    match err with
    | Some err => inr err
    | None =>
        inl {| crTxn := {| TxnContext.StartTs := TxnContext.StartTs tc;
                           TxnContext.CommitTs := cts;
                           TxnContext.Aborted := TxnContext.Aborted tc;
                           TxnContext.Keys := [];
                           TxnContext.Preds := TxnContext.Preds tc |};
               crData := <["message" := VString "Done"]>
                           (<["code" := VCode Success]> ∅) |}
    end in
  match json_Unmarshal_list reqText with
  | Some reqList => continue reqList []
  | None =>
      match json_Unmarshal_map reqText with
      | inr err => inr err
      | inl reqMap => continue (mapGet reqMap "keys") (mapGet reqMap "preds")
      end
  end.

End HandleCommit.

(** *** [mutationHandler]: decoding a JSON body (lines 314-342) *)

Module Mutation.
Record t : Set := {
  SetJson : option string;
  DeleteJson : option string;
  Cond : string
}.
End Mutation.

Section MutationJSON.

(** [json.Unmarshal] into [map[string]*skipJSONUnmarshal]: the raw bytes of
    the value of each key, [None] for a nil pointer (a JSON null).
    [strconv.Unquote] of the Go standard library. *)
Variable json_Unmarshal_ms : string → gmap string (option string) + error.
Variable strconv_Unquote : string → string + error.

(** [ms[key]] with [ok && value != nil] *)
Definition msGet (ms : gmap string (option string)) (key : string)
  : option string :=
  match ms !! key with
  | Some (Some bs) => Some bs
  | _ => None
  end.

(** The query of the request and its one mutation, from the decoded map. *)
Definition mutationFromMap (ms : gmap string (option string))
  : Outcome (string * Mutation.t) :=
  let setJson := msGet ms "set" in
  let deleteJson := msGet ms "delete" in
  let withQuery (k : string → Outcome (string * Mutation.t)) :=
    match msGet ms "query" with
    | Some queryText =>
        match strconv_Unquote queryText with
        | inr err => Failed (EvSetStatusErr ErrorInvalidRequest err)
        | inl query => k query
        end
    | None => k ""
    end in
  withQuery (λ query,
    match msGet ms "cond" with
    | Some condText =>
        match strconv_Unquote condText with
        | inr err => Failed (EvSetStatusErr ErrorInvalidRequest err)
        | inl cond =>
            Done (query, {| Mutation.SetJson := setJson;
                            Mutation.DeleteJson := deleteJson;
                            Mutation.Cond := cond |})
        end
    | None =>
        Done (query, {| Mutation.SetJson := setJson;
                        Mutation.DeleteJson := deleteJson;
                        Mutation.Cond := "" |})
    end).

(** The status of a decode error is the text of [convertJSONError]; its
    result is nil for no error only, and [jsonErr.Error()] on nil panics. *)
Definition decodeMutationJSON (body : string) : Outcome (string * Mutation.t) :=
  match json_Unmarshal_ms body with
  | inr err =>
      match convertJSONError body (Some err) with
      | Some jsonErr => Failed (EvSetStatusErr ErrorInvalidRequest jsonErr)
      | None => Panic
      end
  | inl ms => mutationFromMap ms
  end.

End MutationJSON.

(** *** More vocabulary for [jsonLineAndChar] *)

(** The bytes of a string as numbers, and strings of one-byte runes. *)
Fixpoint bytesZ (s : string) : list Z :=
  match s with
  | EmptyString => []
  | String c s' => byteZ c :: bytesZ s'
  end.

Definition isASCII (s : string) : bool := forallb (λ b, b <? 0x80) (bytesZ s).

(** *** More example values *)

Definition exCompress (b : string) : string := "gz:" +:+ b.

Definition exDecompress (b : string) : option string :=
  if HasPrefix b "gz:" then Some (drop_bytes 3 b) else None.

Definition exWriter : ResponseWriter := {| wHeader := ∅; wBody := "" |}.

Definition exAcceptGzip : gmap string (list string) :=
  <["Accept-Encoding" := ["deflate, gzip"]]> ∅.

Definition exCommitEngine (tc : TxnContext.t) : Z * option error := (42, None).

Definition exUnmarshalList (reqText : string) : option (list string) :=
  Some ["k1"; "k2"].

Definition exUnmarshalMs (body : string) : gmap string (option string) + error :=
  inl (<["set" := Some "[]"]> (<["extra" := Some "1"]> (<["cond" := None]> ∅))).

(** *** [commitHandler], from its first line *)

(** The whole handler on a request with the method [Method]: the gate of
    [commonHandler] (lines 420-422), then, for a request that passes it,
    [commitHandler] above (lines 424-465).  The result is what the gate did
    to the response and, for a request that passed, how the rest ended;
    [None] when the gate has answered the request. *)
Definition commitHandler_gated (strconv_ParseUint : string → option Z)
    (CommitOverNetwork : TxnContext.t → Z * option error)
    (commitPath : Z → Outcome (gmap string Value))
    (Method : string) (URLQuery : gmap string (list string))
  : list CommonEvent * option (Outcome (gmap string Value)) :=
  let '(handled, events) := commonHandler Method in
  if handled then (events, None)
  else
    (events,
     Some (commitHandler strconv_ParseUint CommitOverNetwork commitPath URLQuery)).

(** *** Runes and their encoding: [unicode/utf8] and [string(runes)] *)

(** [utf8.ValidRune]: a code point that is no surrogate. *)
Definition ValidRune (r : Z) : bool :=
  ((0 <=? r) && (r <? 0xD800)) || ((0xDFFF <? r) && (r <=? 0x10FFFF)).

(** The conversion [byte(x)] keeps the low eight bits. *)
Definition byte_of (x : Z) : Z := x mod 256.

Definition ascii_of_byte (b : Z) : ascii := ascii_of_N (Z.to_N b).

Fixpoint string_of_bytes (bytes : list Z) : string :=
  match bytes with
  | [] => EmptyString
  | b :: rest => String (ascii_of_byte b) (string_of_bytes rest)
  end.

(** [utf8.EncodeRune], as the string of the bytes it writes.  The switch is
    on [uint32(r)]; a rune out of range or a surrogate is written as
    [RuneError]. *)
Definition EncodeRune (r : Z) : string :=
  let i := r mod 2 ^ 32 in
  let three (r : Z) : string :=
    string_of_bytes
      [Z.lor 0xE0 (byte_of (Z.shiftr r 12));
       Z.lor 0x80 (Z.land (byte_of (Z.shiftr r 6)) 0x3F);
       Z.lor 0x80 (Z.land (byte_of r) 0x3F)] in
  if i <=? 0x7F then string_of_bytes [byte_of r]
  else if i <=? 0x7FF then
    string_of_bytes
      [Z.lor 0xC0 (byte_of (Z.shiftr r 6));
       Z.lor 0x80 (Z.land (byte_of r) 0x3F)]
  else if (0x10FFFF <? i) || ((0xD800 <=? i) && (i <=? 0xDFFF)) then
    three RuneError
  else if i <=? 0xFFFF then three r
  else
    string_of_bytes
      [Z.lor 0xF0 (byte_of (Z.shiftr r 18));
       Z.lor 0x80 (Z.land (byte_of (Z.shiftr r 12)) 0x3F);
       Z.lor 0x80 (Z.land (byte_of (Z.shiftr r 6)) 0x3F);
       Z.lor 0x80 (Z.land (byte_of r) 0x3F)].

(** [string(runes)] for a slice of runes: the encodings, one after the
    other. *)
Fixpoint string_of_runes (runes : list Z) : string :=
  match runes with
  | [] => EmptyString
  | r :: rest => EncodeRune r +:+ string_of_runes rest
  end.

(** The length in bytes of [string(runes)]. *)
Definition byteLen (runes : list Z) : Z :=
  Z.of_nat (String.length (string_of_runes runes)).

(** The runes of [string(runes)] with the byte index each starts at, the
    first at [i]. *)
Fixpoint runeStarts (i : Z) (runes : list Z) : list (Z * Z) :=
  match runes with
  | [] => []
  | r :: rest =>
      (i, r) :: runeStarts (i + Z.of_nat (String.length (EncodeRune r))) rest
  end.

(** The position after the runes [scannedRunes]: the line is 1 plus the
    number of line feeds among them, the character the number of runes from
    the last line feed on, with it. *)
Definition positionAfter (scannedRunes : list Z) : Z * Z :=
  (1 + countLF scannedRunes, Z.of_nat (length (lastLine scannedRunes))).

(** Three lines, with [é] (two bytes) as the value on the first:
    [{"query": é,] then ["variables": {}] then [}]. *)
Definition accentRunes : list Z :=
  [0x7B; 0x22; 0x71; 0x75; 0x65; 0x72; 0x79; 0x22; 0x3A; 0x20; 0xE9; 0x2C; 0x0A;
   0x22; 0x76; 0x61; 0x72; 0x69; 0x61; 0x62; 0x6C; 0x65; 0x73; 0x22; 0x3A; 0x20;
   0x7B; 0x7D; 0x0A; 0x7D].

Definition accentBody : string := string_of_runes accentRunes.

End Alpha.

(** ** Properties of Go's string functions *)

Module GoStringsFacts.

Import GoStrings.

Lemma append_nil s : "" +:+ s = s.
Proof. reflexivity. Qed.

Lemma append_cons c s1 s2 : String c s1 +:+ s2 = String c (s1 +:+ s2).
Proof. reflexivity. Qed.

Lemma length_append s1 s2 :
  String.length (s1 +:+ s2) = (String.length s1 + String.length s2)%nat.
Proof.
  induction s1 as [|c s1 IH]; [done|].
  rewrite append_cons. simpl. by rewrite IH.
Qed.

Lemma append_assoc s1 s2 s3 : (s1 +:+ s2) +:+ s3 = s1 +:+ s2 +:+ s3.
Proof.
  induction s1 as [|c s1 IH]; [done|].
  by rewrite !append_cons, IH.
Qed.

Lemma HasPrefix_append p s : HasPrefix (p +:+ s) p = true.
Proof.
  induction p as [|c p IH]; [done|].
  rewrite append_cons. simpl. by rewrite Ascii.eqb_refl.
Qed.

Lemma drop_bytes_append p s : drop_bytes (String.length p) (p +:+ s) = s.
Proof.
  induction p as [|c p IH]; [by destruct s|].
  by rewrite append_cons.
Qed.

Lemma take_bytes_append s q : take_bytes (String.length s) (s +:+ q) = s.
Proof.
  induction s as [|c s IH]; [by destruct q|].
  rewrite append_cons. simpl. by rewrite IH.
Qed.

Lemma HasSuffix_append s q : HasSuffix (s +:+ q) q = true.
Proof.
  unfold HasSuffix. rewrite length_append.
  replace (String.length s + String.length q - String.length q)%nat
    with (String.length s) by lia.
  rewrite drop_bytes_append, String.eqb_refl, andb_true_r.
  apply Nat.leb_le. lia.
Qed.

Lemma TrimPrefix_append p s : TrimPrefix (p +:+ s) p = s.
Proof. unfold TrimPrefix. by rewrite HasPrefix_append, drop_bytes_append. Qed.

Lemma TrimSuffix_append s q : TrimSuffix (s +:+ q) q = s.
Proof.
  unfold TrimSuffix. rewrite HasSuffix_append, length_append.
  replace (String.length s + String.length q - String.length q)%nat
    with (String.length s) by lia.
  apply take_bytes_append.
Qed.

Lemma get_append_last body c :
  String.get (String.length body) (body +:+ String c "") = Some c.
Proof. induction body as [|a body IH]; [done|]. by rewrite append_cons. Qed.

(** A string whose last byte is [c] is a body followed by [c]. *)
Lemma last_byte_split s c :
  String.get (String.length s - 1) s = Some c →
  s = take_bytes (String.length s - 1) s +:+ String c "".
Proof.
  induction s as [|a s IH]; [done|]. simpl String.length.
  replace (S (String.length s) - 1)%nat with (String.length s) by lia.
  destruct s as [|b s'].
  - simpl. by intros [= ->].
  - simpl String.length in *.
    replace (S (String.length s') - 1)%nat with (String.length s') in IH by lia.
    intros Hget. change (String.get (String.length s') (String b s') = Some c)
      in Hget.
    change (String a (String b s') =
            String a (take_bytes (String.length s') (String b s') +:+ String c "")).
    f_equal. by apply IH.
Qed.

End GoStringsFacts.

(** ** Properties of package [schema] *)

Module SchemaFacts.

Import GoStrings GoStringsFacts Schema.

(** *** [parentInterface] *)

Lemma declaresField_true fields fieldName :
  declaresField fields fieldName = true ↔
  ∃ fld, fld ∈ fields ∧ fName fld = fieldName.
Proof.
  induction fields as [|fld rest IH]; simpl.
  - split; [discriminate | intros (? & Hin & _); inversion Hin].
  - destruct (String.eqb_spec fieldName (fName fld)) as [Heq|Hne].
    + split; [|done]. intros _. exists fld. split; [left | done].
    + rewrite IH. split.
      * intros (g & Hin & Hg). exists g. split; [by right | done].
      * intros (g & Hin & Hg). apply elem_of_cons in Hin as [->|Hin]; [|eauto].
        by subst.
Qed.

Lemma declaresField_declares sch iface interfaceDef fieldName :
  Types sch !! iface = Some interfaceDef →
  declaresField (dFields interfaceDef) fieldName = true ↔
  declares sch iface fieldName.
Proof.
  intros Hdef. rewrite declaresField_true. unfold declares. split.
  - intros Hfld. exists interfaceDef. done.
  - intros (d & Hd & Hfld). by simplify_eq.
Qed.

Lemma parentInterface_unfold sch typDef fieldName :
  parentInterface sch typDef fieldName =
  parentInterface_range sch (dInterfaces typDef) fieldName.
Proof.
  unfold parentInterface. by destruct (dInterfaces typDef).
Qed.

(** The loop runs through interfaces that do not declare the field. *)
Lemma parentInterface_range_skip sch pre rest fieldName :
  (∀ j, j ∈ pre → is_Some (Types sch !! j)) →
  (∀ j, j ∈ pre → ¬ declares sch j fieldName) →
  parentInterface_range sch (pre ++ rest) fieldName =
  parentInterface_range sch rest fieldName.
Proof.
  induction pre as [|j pre IH]; intros Hres Hno; [done|]. simpl.
  destruct (Hres j) as [d Hd]; [left|]. rewrite Hd.
  destruct (declaresField (dFields d) fieldName) eqn:Hdecl.
  - exfalso. apply (Hno j); [left|]. by eapply declaresField_declares.
  - apply IH; intros; [apply Hres | apply Hno]; by right.
Qed.

(** With every implemented interface in the schema the call returns. *)
Lemma parentInterface_total sch typDef fieldName :
  interfaces_resolve sch typDef →
  is_Some (parentInterface sch typDef fieldName).
Proof.
  rewrite parentInterface_unfold. unfold interfaces_resolve.
  induction (dInterfaces typDef) as [|j l IH]; intros Hres; simpl; [eauto|].
  destruct (Hres j) as [d Hd]; [left|]. rewrite Hd.
  destruct (declaresField _ _); [eauto|].
  apply IH. intros. apply Hres. by right.
Qed.

(** The result of the loop, read backwards. *)
Lemma parentInterface_range_inv sch ifaces fieldName p :
  parentInterface_range sch ifaces fieldName = Some p →
  (∃ pre post, ifaces = pre ++ p :: post ∧
     (∀ j, j ∈ pre → ¬ declares sch j fieldName) ∧ declares sch p fieldName) ∨
  (p = "" ∧ ∀ j, j ∈ ifaces → ¬ declares sch j fieldName).
Proof.
  induction ifaces as [|i l IH]; simpl.
  - intros [= <-]. right. split; [done|]. intros j Hj. inversion Hj.
  - destruct (Types sch !! i) as [d|] eqn:Hd; [|done].
    destruct (declaresField (dFields d) fieldName) eqn:Hdecl.
    + intros [= <-]. left. exists [], l. split; [done|]. split.
      * intros j Hj. inversion Hj.
      * by eapply declaresField_declares.
    + intros Hrest.
      assert (¬ declares sch i fieldName) as Hni.
      { rewrite <- (declaresField_declares _ _ _ _ Hd). by rewrite Hdecl. }
      destruct (IH Hrest) as [(pre & post & -> & Hno & Hp)|[-> Hno]].
      * left. exists (i :: pre), post. split; [done|]. split; [|done].
        intros j Hj. apply elem_of_cons in Hj as [->|Hj]; auto.
      * right. split; [done|].
        intros j Hj. apply elem_of_cons in Hj as [->|Hj]; auto.
Qed.

(** A field no implemented interface declares is the type's own. *)
Lemma parentInterface_own sch def fieldName :
  interfaces_resolve sch def →
  (∀ j, j ∈ dInterfaces def → ¬ declares sch j fieldName) →
  parentInterface sch def fieldName = Some "".
Proof.
  intros Hres Hno. rewrite parentInterface_unfold.
  rewrite <- (app_nil_r (dInterfaces def)).
  by rewrite parentInterface_range_skip.
Qed.

(** C5. Whenever [parentInterface] returns, it returns the name of the
    first implemented interface, in declaration order, whose field list
    contains [fieldName], or the empty string when no implemented interface
    declares the field.  It returns the empty string for a type that
    implements no interface, and it does return, with these results, on a
    schema that holds every interface the type implements. *)
Theorem parentInterface_first_match sch typDef fieldName :
  (∀ r, parentInterface sch typDef fieldName = Some r →
     (∃ pre post, dInterfaces typDef = pre ++ r :: post ∧
        (∀ j, j ∈ pre → ¬ declares sch j fieldName) ∧
        declares sch r fieldName) ∨
     (r = "" ∧ ∀ j, j ∈ dInterfaces typDef → ¬ declares sch j fieldName)) ∧
  (dInterfaces typDef = [] → parentInterface sch typDef fieldName = Some "") ∧
  (interfaces_resolve sch typDef →
     (∀ pre iface post,
        dInterfaces typDef = pre ++ iface :: post →
        (∀ j, j ∈ pre → ¬ declares sch j fieldName) →
        declares sch iface fieldName →
        parentInterface sch typDef fieldName = Some iface) ∧
     ((∀ j, j ∈ dInterfaces typDef → ¬ declares sch j fieldName) →
      parentInterface sch typDef fieldName = Some "")).
Proof.
  split; [|split; [|intros Hres; split]].
  - intros r. rewrite parentInterface_unfold. apply parentInterface_range_inv.
  - intros Hnil. unfold parentInterface. by rewrite Hnil.
  - intros pre iface post Hsplit Hno Hdecl.
    rewrite parentInterface_unfold, Hsplit, parentInterface_range_skip; [|..|done].
    + simpl. destruct Hdecl as (d & Hd & Hfld). rewrite Hd.
      assert (declaresField (dFields d) fieldName = true) as ->; [|done].
      by apply declaresField_true.
    + intros j Hj. apply Hres. rewrite Hsplit. apply elem_of_app. by left.
  - intros Hno. by apply parentInterface_own.
Qed.

Lemma schAB_resolves : interfaces_resolve schAB typeB.
Proof.
  intros iface Hin. apply list_elem_of_singleton in Hin as ->.
  vm_compute. eauto.
Qed.

Lemma schAB_declares_name : declares schAB "A" "name".
Proof.
  exists ifaceA. split; [by vm_compute|].
  exists (field "name" tString). split; [left | done].
Qed.

Lemma parentInterface_first_match_witness :
  parentInterface schAB typeB "name" = Some "A".
Proof.
  destruct (parentInterface_first_match schAB typeB "name")
    as (_ & _ & Hreturns).
  apply (proj1 (Hreturns schAB_resolves) [] "A" []).
  - reflexivity.
  - intros j Hj. inversion Hj.
  - exact schAB_declares_name.
Defined.

(** A type named [Delete<X>Payload] is read through the type named [X]. *)
Lemma resolveTyp_delete_payload sch W X :
  dName W = del +:+ X +:+ payload →
  resolveTyp sch W = (λ T, (T, X)) <$> Types sch !! X.
Proof.
  intros HW. unfold resolveTyp. rewrite HW.
  rewrite HasPrefix_append. rewrite <- append_assoc at 1.
  rewrite HasSuffix_append. simpl andb. cbv iota.
  rewrite TrimPrefix_append, TrimSuffix_append.
  by destruct (Types sch !! X).
Qed.


(** *** [DgraphMapping] *)


(** The loop over the fields leaves a key alone or one of the fields has it. *)
Lemma DgraphMapping_fields_other sch orig T tn flds acc m k :
  DgraphMapping_fields sch orig T tn flds acc = Some m →
  m !! k = acc !! k ∨ ∃ fld, fld ∈ flds ∧ dName orig +:+ fName fld = k.
Proof.
  revert acc. induction flds as [|fld rest IH]; simpl; intros acc.
  - intros [= <-]. by left.
  - destruct (parentInterface sch T (fName fld)) as [p|]; [|done].
    intros Hrest. destruct (IH _ Hrest) as [Heq|(g & Hg & Hk)].
    + destruct (decide (dName orig +:+ fName fld = k)) as [Hk|Hk].
      * right. exists fld. split; [left | done].
      * left. by rewrite Heq, lookup_insert_ne.
    + right. exists g. split; [by right | done].
Qed.

(** After the loop, the key of each field holds the predicate of that field. *)
Lemma DgraphMapping_fields_hit sch orig T tn flds acc m fld :
  DgraphMapping_fields sch orig T tn flds acc = Some m →
  fld ∈ flds →
  ∃ parentInt, parentInterface sch T (fName fld) = Some parentInt ∧
    m !! (dName orig +:+ fName fld) =
      Some (predicateOf (pickNamespace parentInt tn) (fName fld)).
Proof.
  revert acc fld.
  induction flds as [|fld0 rest IH]; simpl; intros acc fld Hrun Hin.
  { inversion Hin. }
  destruct (parentInterface sch T (fName fld0)) as [p|] eqn:Hp; [|done].
  destruct (DgraphMapping_fields_other _ _ _ _ _ _ _
              (dName orig +:+ fName fld) Hrun) as [Hsame|(g & Hg & Hk)].
  - apply elem_of_cons in Hin as [->|Hin]; [|by eapply IH].
    exists p. split; [done|]. by rewrite Hsame, lookup_insert_eq.
  - apply (inj (String.append (dName orig))) in Hk.
    destruct (IH _ g Hrun Hg) as (q & Hq & Hm).
    exists q. by rewrite Hk in Hq, Hm.
Qed.

Lemma DgraphMapping_fields_total sch orig T tn flds acc :
  interfaces_resolve sch T →
  is_Some (DgraphMapping_fields sch orig T tn flds acc).
Proof.
  intros Hres. revert acc. induction flds as [|fld rest IH]; simpl; [eauto|].
  intros acc.
  destruct (parentInterface_total sch T (fName fld) Hres) as [p ->].
  apply IH.
Qed.

(** The pass over one type leaves a key alone or writes it. *)
Lemma DgraphMapping_type_other sch U acc m k :
  DgraphMapping_type sch U acc = Some m →
  m !! k = acc !! k ∨ writes_key sch U k.
Proof.
  unfold DgraphMapping_type, writes_key.
  destruct (skipped U) eqn:Hskip; [intros [= <-]; by left|].
  destruct (resolveTyp sch U) as [[T tn]|] eqn:Hres; [|done].
  intros Hrun.
  destruct (DgraphMapping_fields_other _ _ _ _ _ _ _ k Hrun)
    as [?|(fld & ? & ?)]; [by left|].
  right. split; [done|]. by exists T, tn, fld.
Qed.

Lemma DgraphMapping_range_total sch visit acc :
  mapping_wf sch visit → is_Some (DgraphMapping_range sch visit acc).
Proof.
  revert acc. induction visit as [|U rest IH]; simpl; intros acc Hwf; [eauto|].
  assert (is_Some (DgraphMapping_type sch U acc)) as [acc' ->].
  { unfold DgraphMapping_type. destruct (skipped U) eqn:Hskip; [eauto|].
    destruct (Hwf U) as (T & tn & -> & Hres); [left | done |].
    by apply DgraphMapping_fields_total. }
  apply IH. intros V HV. apply Hwf. by right.
Qed.

(** The last word on a key: when [W] is visited and every visited type
    that writes the key of a field of [W] is [W] itself, the map holds the
    predicate of that field under it. *)
Lemma DgraphMapping_range_hit sch visit acc m W T tn fld parentInt :
  let k := dName W +:+ fName fld in
  let v := predicateOf (pickNamespace parentInt tn) (fName fld) in
  skipped W = false →
  resolveTyp sch W = Some (T, tn) →
  fld ∈ dFields T →
  parentInterface sch T (fName fld) = Some parentInt →
  DgraphMapping_range sch visit acc = Some m →
  (∀ U, U ∈ visit → writes_key sch U k → U = W) →
  W ∈ visit ∨ acc !! k = Some v →
  m !! k = Some v.
Proof.
  intros k v Hskip Hres Hfld Hp.
  assert (∀ acc acc', DgraphMapping_type sch W acc = Some acc' →
            acc' !! k = Some v) as HW.
  { intros a a'. unfold DgraphMapping_type. rewrite Hskip, Hres.
    intros Hrun.
    destruct (DgraphMapping_fields_hit _ _ _ _ _ _ _ fld Hrun Hfld)
      as (q & Hq & Hm).
    unfold k, v. rewrite Hm. congruence. }
  revert acc. induction visit as [|U rest IH]; simpl; intros acc Hrun Honly Hinit.
  { destruct Hinit as [Hin|Hacc]; [inversion Hin|]. by simplify_eq. }
  destruct (DgraphMapping_type sch U acc) as [acc'|] eqn:HU; [|done].
  apply (IH acc' Hrun).
  { intros V HV. apply Honly. by right. }
  destruct Hinit as [Hin|Hacc].
  - apply elem_of_cons in Hin as [->|Hin]; [right; by eapply HW | by left].
  - right. destruct (DgraphMapping_type_other _ _ _ _ k HU) as [->|Hw]; [done|].
    rewrite (Honly U) in HU; [by eapply HW | left | done].
Qed.




Lemma visitAuthor_eq :
  visitAuthor = [scalarDef "String"; scalarDef "Int"; typeAuthorPayload;
                 typeAuthor; typeDeleteAuthorPayload; ifacePerson].
Proof. by vm_compute. Qed.

(** Membership in an explicit list, by position. *)
Ltac elem_by_position := repeat first [by left | right].

(** Case analysis on the member [H : x ∈ l] of an explicit list. *)
Ltac each_elem H :=
  repeat (apply elem_of_cons in H as [->|H]); [..|by inversion H].

Lemma schAuthor_resolves U :
  U ∈ [typeAuthorPayload; typeAuthor; typeDeleteAuthorPayload; ifacePerson] →
  interfaces_resolve schAuthor U.
Proof.
  intros HU iface Hi.
  repeat (apply elem_of_cons in HU as [->|HU];
          [vm_compute in Hi;
           repeat (apply elem_of_cons in Hi as [->|Hi]; [by vm_compute; eauto|]);
           inversion Hi|]).
  inversion HU.
Qed.

Lemma visitAuthor_wf : mapping_wf schAuthor visitAuthor.
Proof.
  intros U HU Hskip. rewrite visitAuthor_eq in HU.
  each_elem HU; try discriminate Hskip.
  - exists typeAuthorPayload, "AuthorPayload". split; [by vm_compute|].
    apply schAuthor_resolves. elem_by_position.
  - exists typeAuthor, "Author". split; [by vm_compute|].
    apply schAuthor_resolves. elem_by_position.
  - exists typeAuthor, "Author". split; [by vm_compute|].
    apply schAuthor_resolves. elem_by_position.
  - exists ifacePerson, "Person". split; [by vm_compute|].
    apply schAuthor_resolves. elem_by_position.
Qed.

(** In the example no two types write the same key. *)
Lemma visitAuthor_one_writer W fieldName :
  W ∈ [typeAuthor; typeDeleteAuthorPayload] →
  fieldName ∈ ["name"; "rating"] →
  ∀ U, U ∈ visitAuthor → writes_key schAuthor U (dName W +:+ fieldName) → U = W.
Proof.
  intros HW Hf U HU (Hskip & T & tn & fld & Hres & Hfld & Hk).
  rewrite visitAuthor_eq in HU.
  each_elem HU; try discriminate Hskip;
    vm_compute in Hres; simplify_eq; vm_compute in Hfld;
    each_elem Hfld; each_elem HW; each_elem Hf;
    try discriminate Hk; reflexivity.
Qed.




(** *** [genDgSchema] *)

Section GeneratorFacts.

Variable searchableDirective searchableArg : string.
Variable scalarToDgraph defaultSearchables : gmap string string.

Local Abbreviation genField :=
  (genField searchableDirective searchableArg scalarToDgraph defaultSearchables).
Local Abbreviation genFields :=
  (genFields searchableDirective searchableArg scalarToDgraph defaultSearchables).
Local Abbreviation genType :=
  (genType searchableDirective searchableArg scalarToDgraph defaultSearchables).
Local Abbreviation genDgSchema_blocks :=
  (genDgSchema_blocks searchableDirective searchableArg scalarToDgraph
     defaultSearchables).
Local Abbreviation scalarIndexStr :=
  (scalarIndexStr searchableDirective searchableArg defaultSearchables).
Local Abbreviation typStrOf := (typStrOf scalarToDgraph).
Local Abbreviation indexStrOf :=
  (indexStrOf searchableDirective searchableArg defaultSearchables).

(** The loop body, case by case. *)
Lemma genField_ID gqlSch def f :
  Type_Name (fType f) = "ID" → genField gqlSch def f = Some ([], []).
Proof. intros H. unfold Schema.genField. by rewrite H. Qed.

Lemma genField_stored gqlSch def f fdef parentInt :
  Type_Name (fType f) ≠ "ID" →
  parentInterface gqlSch def (fName f) = Some parentInt →
  Types gqlSch !! Type_Name (fType f) = Some fdef →
  dKind fdef = Object ∨ dKind fdef = Scalar ∨ dKind fdef = Enum →
  genField gqlSch def f =
    Some ([LTypeField (pickNamespace parentInt (dName def)) (fName f)
             (typStrOf f fdef)],
          if String.eqb parentInt "" then
            [LPred (pickNamespace parentInt (dName def)) (fName f)
               (typStrOf f fdef) (indexStrOf f fdef)]
          else []).
Proof.
  intros HID Hp Hfdef Hkind.
  unfold Schema.genField, Schema.typStrOf, Schema.indexStrOf.
  apply String.eqb_neq in HID. rewrite HID, Hp, Hfdef.
  destruct (Elem (fType f)); destruct Hkind as [->|[->| ->]]; done.
Qed.

Lemma genField_other_kind gqlSch def f fdef parentInt :
  Type_Name (fType f) ≠ "ID" →
  parentInterface gqlSch def (fName f) = Some parentInt →
  Types gqlSch !! Type_Name (fType f) = Some fdef →
  ¬ (dKind fdef = Object ∨ dKind fdef = Scalar ∨ dKind fdef = Enum) →
  genField gqlSch def f = Some ([], []).
Proof.
  intros HID Hp Hfdef Hkind. unfold Schema.genField.
  apply String.eqb_neq in HID. rewrite HID, Hp, Hfdef.
  destruct (Elem (fType f)); destruct (dKind fdef); tauto.
Qed.

(** Whatever the loop body returns has one of these three shapes. *)
Lemma genField_inv gqlSch def f t p :
  genField gqlSch def f = Some (t, p) →
  (t = [] ∧ p = []) ∨
  ∃ fdef parentInt,
    Type_Name (fType f) ≠ "ID" ∧
    parentInterface gqlSch def (fName f) = Some parentInt ∧
    Types gqlSch !! Type_Name (fType f) = Some fdef ∧
    (dKind fdef = Object ∨ dKind fdef = Scalar ∨ dKind fdef = Enum) ∧
    t = [LTypeField (pickNamespace parentInt (dName def)) (fName f)
           (typStrOf f fdef)] ∧
    p = if String.eqb parentInt "" then
          [LPred (pickNamespace parentInt (dName def)) (fName f)
             (typStrOf f fdef) (indexStrOf f fdef)]
        else [].
Proof.
  destruct (String.eqb_spec (Type_Name (fType f)) "ID") as [HID|HID].
  { rewrite genField_ID by done. intros [= <- <-]. by left. }
  destruct (parentInterface gqlSch def (fName f)) as [parentInt|] eqn:Hp; cycle 1.
  { unfold Schema.genField. apply String.eqb_neq in HID. by rewrite HID, Hp. }
  destruct (Types gqlSch !! Type_Name (fType f)) as [fdef|] eqn:Hfdef; cycle 1.
  { unfold Schema.genField. apply String.eqb_neq in HID. rewrite HID, Hp, Hfdef.
    by destruct (Elem (fType f)). }
  assert (Decision (dKind fdef = Object ∨ dKind fdef = Scalar ∨ dKind fdef = Enum))
    as [Hkind|Hkind].
  { destruct (dKind fdef); (left; tauto) || (right; intros [|[|]]; done). }
  - rewrite (genField_stored _ _ _ _ _ HID Hp Hfdef Hkind).
    intros [= <- <-]. right. exists fdef, parentInt. done.
  - rewrite (genField_other_kind _ _ _ _ _ HID Hp Hfdef Hkind).
    intros [= <- <-]. by left.
Qed.


(** **** Counting declarations *)

Lemma countPred_app tn fn l1 l2 :
  countPred tn fn (l1 ++ l2) = (countPred tn fn l1 + countPred tn fn l2)%nat.
Proof. unfold countPred. by rewrite List.filter_app, length_app. Qed.

Lemma countPred_none tn fn l :
  (∀ line, line ∈ l → isPred tn fn line = false) → countPred tn fn l = 0%nat.
Proof.
  unfold countPred. induction l as [|x l IH]; intros Hno; [done|]. simpl.
  rewrite (Hno x) by left. apply IH. intros. apply Hno. by right.
Qed.

(** A declaration written by the loop body is for the own field of the
    type: its namespace is the type's name. *)
Lemma genField_pred_inv gqlSch def f t p line :
  genField gqlSch def f = Some (t, p) → line ∈ p →
  parentInterface gqlSch def (fName f) = Some "" ∧
  ∃ typStr indexStr, line = LPred (dName def) (fName f) typStr indexStr.
Proof.
  intros Hgen Hin.
  apply genField_inv in Hgen as [[_ ->]|(fdef & pi & _ & Hp & _ & _ & _ & ->)];
    [inversion Hin|].
  destruct (String.eqb_spec pi "") as [->|_]; [|inversion Hin].
  apply list_elem_of_singleton in Hin as ->. eauto.
Qed.

(** A line of the type block written by the loop body names the field
    with the namespace picked for it. *)
Lemma genField_typeDef_inv gqlSch def f t p line :
  genField gqlSch def f = Some (t, p) → line ∈ t →
  ∃ parentInt typStr,
    parentInterface gqlSch def (fName f) = Some parentInt ∧
    line = LTypeField (pickNamespace parentInt (dName def)) (fName f) typStr.
Proof.
  intros Hgen Hin.
  apply genField_inv in Hgen as [[-> _]|(fdef & pi & _ & Hp & _ & _ & -> & _)];
    [inversion Hin|].
  apply list_elem_of_singleton in Hin as ->. eauto.
Qed.

Lemma genField_count_other gqlSch def f t p tn fn :
  genField gqlSch def f = Some (t, p) →
  tn ≠ dName def ∨ fn ≠ fName f →
  countPred tn fn p = 0%nat.
Proof.
  intros Hgen Hne. apply countPred_none. intros line Hin.
  destruct (genField_pred_inv _ _ _ _ _ _ Hgen Hin) as (_ & ts & ix & ->).
  simpl. apply andb_false_iff.
  destruct Hne as [Hne|Hne]; [left | right]; by apply String.eqb_neq.
Qed.

Lemma genField_total gqlSch def f :
  interfaces_resolve gqlSch def →
  (Type_Name (fType f) ≠ "ID" →
   is_Some (Types gqlSch !! Type_Name (fType f))) →
  is_Some (genField gqlSch def f).
Proof.
  intros Hres Hty.
  destruct (String.eqb_spec (Type_Name (fType f)) "ID") as [HID|HID].
  { rewrite genField_ID by done. eauto. }
  destruct (parentInterface_total gqlSch def (fName f) Hres) as [pi Hp].
  destruct (Hty HID) as [fdef Hfdef].
  assert (Decision (dKind fdef = Object ∨ dKind fdef = Scalar ∨ dKind fdef = Enum))
    as [Hkind|Hkind].
  { destruct (dKind fdef); (left; tauto) || (right; intros [|[|]]; done). }
  - rewrite (genField_stored _ _ _ _ _ HID Hp Hfdef Hkind). eauto.
  - rewrite (genField_other_kind _ _ _ _ _ HID Hp Hfdef Hkind). eauto.
Qed.

(** **** The loop over the fields *)

Lemma genFields_total gqlSch def fields typeDef preds :
  (∀ f, f ∈ fields → is_Some (genField gqlSch def f)) →
  is_Some (genFields gqlSch def fields typeDef preds).
Proof.
  revert typeDef preds.
  induction fields as [|f rest IH]; intros typeDef preds Hall; simpl; [eauto|].
  destruct (Hall f) as [[t p] ->]; [left|].
  apply IH. intros. apply Hall. by right.
Qed.

(** Where the lines of the two builders come from. *)
Lemma genFields_origin gqlSch def fields typeDef preds typeDef' preds' :
  genFields gqlSch def fields typeDef preds = Some (typeDef', preds') →
  (∀ line, line ∈ typeDef' →
     line ∈ typeDef ∨
     ∃ f t p, f ∈ fields ∧ genField gqlSch def f = Some (t, p) ∧ line ∈ t) ∧
  (∀ line, line ∈ preds' →
     line ∈ preds ∨
     ∃ f t p, f ∈ fields ∧ genField gqlSch def f = Some (t, p) ∧ line ∈ p).
Proof.
  revert typeDef preds.
  induction fields as [|f rest IH]; intros typeDef preds; simpl.
  { intros [= <- <-]. split; intros; by left. }
  destruct (genField gqlSch def f) as [[t p]|] eqn:Hf; [|done].
  intros Hrest. destruct (IH _ _ Hrest) as [IHt IHp].
  split; intros line Hline.
  - destruct (IHt line Hline) as [Hin|(g & t' & p' & Hg & Hgen & Hin)].
    + apply elem_of_app in Hin as [Hin|Hin]; [by left|].
      right. exists f, t, p. split; [left | done].
    + right. exists g, t', p'. split; [by right | done].
  - destruct (IHp line Hline) as [Hin|(g & t' & p' & Hg & Hgen & Hin)].
    + apply elem_of_app in Hin as [Hin|Hin]; [by left|].
      right. exists f, t, p. split; [left | done].
    + right. exists g, t', p'. split; [by right | done].
Qed.

(** What a field writes to the type block stays there. *)
Lemma genFields_typeDef_keeps gqlSch def fields typeDef preds typeDef' preds' :
  genFields gqlSch def fields typeDef preds = Some (typeDef', preds') →
  (∀ line, line ∈ typeDef → line ∈ typeDef') ∧
  (∀ f t p line, f ∈ fields → genField gqlSch def f = Some (t, p) →
     line ∈ t → line ∈ typeDef').
Proof.
  revert typeDef preds.
  induction fields as [|f rest IH]; intros typeDef preds; simpl.
  { intros [= <- <-]. split; [done|]. intros ???? Hin. inversion Hin. }
  destruct (genField gqlSch def f) as [[t p]|] eqn:Hf; [|done].
  intros Hrest. destruct (IH _ _ Hrest) as [IHold IHnew].
  split.
  - intros line Hin. apply IHold. apply elem_of_app. by left.
  - intros g t' p' line Hg Hgen Hin.
    apply elem_of_cons in Hg as [->|Hg]; [|by eapply IHnew].
    apply IHold. apply elem_of_app. right. by simplify_eq.
Qed.

(** Fields that do not declare the predicate leave its count alone. *)
Lemma genFields_count_none gqlSch def fields typeDef preds typeDef' preds' tn fn :
  genFields gqlSch def fields typeDef preds = Some (typeDef', preds') →
  (∀ f t p, f ∈ fields → genField gqlSch def f = Some (t, p) →
     countPred tn fn p = 0%nat) →
  countPred tn fn preds' = countPred tn fn preds.
Proof.
  revert typeDef preds.
  induction fields as [|f rest IH]; intros typeDef preds; simpl.
  { by intros [= <- <-]. }
  destruct (genField gqlSch def f) as [[t p]|] eqn:Hf; [|done].
  intros Hrest Hnone. rewrite (IH _ _ Hrest).
  - rewrite countPred_app, (Hnone f t p); [lia | left | done].
  - intros g t' p' Hg. apply Hnone. by right.
Qed.

(** With distinct field names, the one field that declares the predicate
    once makes the count go up by one. *)
Lemma genFields_count_one gqlSch def fields typeDef preds typeDef' preds'
    fI tI pI fn :
  NoDup (fName <$> fields) →
  fI ∈ fields → fName fI = fn →
  genField gqlSch def fI = Some (tI, pI) →
  countPred (dName def) fn pI = 1%nat →
  genFields gqlSch def fields typeDef preds = Some (typeDef', preds') →
  countPred (dName def) fn preds' = S (countPred (dName def) fn preds).
Proof.
  intros Hnodup HfI Hfn HgenI HcountI. revert typeDef preds Hnodup HfI.
  induction fields as [|f rest IH]; intros typeDef preds Hnodup HfI; simpl.
  { inversion HfI. }
  rewrite fmap_cons in Hnodup. apply NoDup_cons in Hnodup as [Hfresh Hnodup].
  destruct (genField gqlSch def f) as [[t p]|] eqn:Hf; [|done].
  intros Hrest.
  assert (fI ∈ rest → fName f ≠ fn) as Hother.
  { intros Hin Heq. apply Hfresh. rewrite Heq, <- Hfn.
    apply list_elem_of_fmap. by exists fI. }
  destruct (decide (fName f = fn)) as [Heq|Hne].
  - assert (fI = f) as ->.
    { apply elem_of_cons in HfI as [?|Hin]; [done|]. by destruct (Hother Hin). }
    rewrite (genFields_count_none _ _ _ _ _ _ _ _ _ Hrest).
    + simplify_eq. rewrite countPred_app. lia.
    + intros g t' p' Hg Hgen. eapply genField_count_other; [done|]. right.
      intros Hgn. apply Hfresh. rewrite Heq, Hgn.
      apply list_elem_of_fmap. by exists g.
  - apply elem_of_cons in HfI as [->|HfI]; [congruence|].
    rewrite (IH _ _ Hnodup HfI Hrest), countPred_app.
    rewrite (genField_count_other _ _ _ _ _ _ _ Hf); [done|]. right. congruence.
Qed.

(** **** One type, and the loop over the definitions *)

Lemma genType_inv gqlSch def typeDef preds :
  genType gqlSch def = Some (typeDef, preds) →
  ∃ typeDef0,
    genFields gqlSch def (dFields def) [LTypeOpen (dName def)] []
      = Some (typeDef0, preds) ∧
    typeDef = typeDef0 ++ [LTypeClose].
Proof.
  unfold Schema.genType.
  destruct (Schema.genFields _ _ _ _ _ _ _ _ _) as [[t p]|]; [|done].
  intros [= <- <-]. eauto.
Qed.

Lemma genType_total gqlSch def :
  interfaces_resolve gqlSch def →
  (∀ f, f ∈ dFields def → Type_Name (fType f) ≠ "ID" →
     is_Some (Types gqlSch !! Type_Name (fType f))) →
  is_Some (genType gqlSch def).
Proof.
  intros Hres Hty. unfold Schema.genType.
  destruct (genFields_total gqlSch def (dFields def) [LTypeOpen (dName def)] [])
    as [[t p] ->]; [|eauto].
  intros f Hf. apply genField_total; auto.
Qed.

(** A type declares predicates in its own namespace only. *)
Lemma genType_count_other gqlSch def block tn fn :
  genType gqlSch def = Some block → tn ≠ dName def →
  countPred tn fn block.2 = 0%nat.
Proof.
  destruct block as [typeDef preds]. intros Hgen Hne.
  apply genType_inv in Hgen as (typeDef0 & Hgen & _). simpl.
  rewrite (genFields_count_none _ _ _ _ _ _ _ _ _ Hgen); [done|].
  intros f t p _ Hf. eapply genField_count_other; eauto.
Qed.

Lemma declaredPreds_cons block blocks :
  declaredPreds (block :: blocks) = block.2 ++ declaredPreds blocks.
Proof. reflexivity. Qed.

Lemma genDgSchema_blocks_total gqlSch definitions :
  gen_wf gqlSch definitions → is_Some (genDgSchema_blocks gqlSch definitions).
Proof.
  induction definitions as [|key rest IH]; intros Hwf; simpl; [eauto|].
  destruct (Hwf key) as (def & -> & Hdef); [left|].
  destruct IH as [blocks Hblocks]; [intros k Hk; apply Hwf; by right|].
  assert (dKind def = Object ∨ dKind def = Interface →
          is_Some (genType gqlSch def)) as Hty.
  { intros HK. destruct (Hdef HK). by apply genType_total. }
  rewrite Hblocks.
  destruct (dKind def); eauto; destruct Hty as [b ->]; simpl; eauto.
Qed.

(** The block of a definition of Object or Interface kind is in the output. *)
Lemma genDgSchema_blocks_member gqlSch definitions blocks key def :
  genDgSchema_blocks gqlSch definitions = Some blocks →
  key ∈ definitions → Types gqlSch !! key = Some def →
  dKind def = Object ∨ dKind def = Interface →
  ∃ block, genType gqlSch def = Some block ∧ block ∈ blocks.
Proof.
  intros Hrun Hkey Hdef HK. revert blocks Hrun.
  induction definitions as [|k rest IH]; intros blocks; simpl; [inversion Hkey|].
  destruct (Types gqlSch !! k) as [d|] eqn:Hd; [|done].
  assert (∀ bs, Schema.genDgSchema_blocks searchableDirective searchableArg
                  scalarToDgraph defaultSearchables gqlSch rest = Some bs →
                k ≠ key → ∃ block, genType gqlSch def = Some block ∧ block ∈ bs)
    as Hrest.
  { intros bs Hbs Hne. apply IH; [|done].
    apply elem_of_cons in Hkey as [->|?]; done. }
  destruct (decide (k = key)) as [->|Hne].
  - simplify_eq. destruct HK as [-> | ->];
      (destruct (genType gqlSch def) as [b|]; [|done]);
      (destruct (Schema.genDgSchema_blocks _ _ _ _ _ _) as [bs|]; [|done]);
      intros [= <-]; exists b; (split; [done | left]).
  - destruct (dKind d); try (intros; by apply Hrest);
      (destruct (genType gqlSch d) as [b|]; [|done]);
      (destruct (Schema.genDgSchema_blocks _ _ _ _ _ _) as [bs|]; [|done]);
      intros [= <-]; destruct (Hrest bs eq_refl Hne) as (block & ? & ?);
      exists block; (split; [done | by right]).
Qed.

(** Definitions that do not declare the predicate: the count is zero. *)
Lemma genDgSchema_blocks_count_none gqlSch definitions blocks tn fn :
  genDgSchema_blocks gqlSch definitions = Some blocks →
  (∀ key def block, key ∈ definitions → Types gqlSch !! key = Some def →
     genType gqlSch def = Some block → countPred tn fn block.2 = 0%nat) →
  countPred tn fn (declaredPreds blocks) = 0%nat.
Proof.
  revert blocks.
  induction definitions as [|k rest IH]; intros blocks; simpl.
  { by intros [= <-]. }
  destruct (Types gqlSch !! k) as [d|] eqn:Hd; [|done].
  intros Hrun Hnone.
  assert (∀ bs, Schema.genDgSchema_blocks searchableDirective searchableArg
                  scalarToDgraph defaultSearchables gqlSch rest = Some bs →
                countPred tn fn (declaredPreds bs) = 0%nat) as Hrest.
  { intros bs Hbs. apply IH; [done|]. intros key def block Hkey.
    apply Hnone. by right. }
  destruct (dKind d); try (by apply Hrest);
    (destruct (genType gqlSch d) as [b|] eqn:Hb; [|done]);
    (destruct (Schema.genDgSchema_blocks _ _ _ _ _ _) as [bs|]; [|done]);
    simplify_eq/=; rewrite declaredPreds_cons, countPred_app;
    rewrite (Hnone k d b), Hrest; done || left.
Qed.

(** Among distinct definitions, the one that declares the predicate once
    makes it declared once in the whole output. *)
Lemma genDgSchema_blocks_count_one gqlSch definitions blocks ikey I iblock tn fn :
  NoDup definitions → ikey ∈ definitions →
  Types gqlSch !! ikey = Some I → dKind I = Object ∨ dKind I = Interface →
  genType gqlSch I = Some iblock → countPred tn fn iblock.2 = 1%nat →
  (∀ key def block, key ∈ definitions → key ≠ ikey →
     Types gqlSch !! key = Some def → genType gqlSch def = Some block →
     countPred tn fn block.2 = 0%nat) →
  genDgSchema_blocks gqlSch definitions = Some blocks →
  countPred tn fn (declaredPreds blocks) = 1%nat.
Proof.
  intros Hnodup Hin HI HK HgenI HcountI. revert blocks Hnodup Hin.
  induction definitions as [|k rest IH]; intros blocks Hnodup Hin Hothers; simpl.
  { inversion Hin. }
  apply NoDup_cons in Hnodup as [Hfresh Hnodup].
  destruct (Types gqlSch !! k) as [d|] eqn:Hd; [|done].
  destruct (decide (k = ikey)) as [->|Hne].
  - simplify_eq.
    assert (∀ bs, Schema.genDgSchema_blocks searchableDirective searchableArg
                    scalarToDgraph defaultSearchables gqlSch rest = Some bs →
                  countPred tn fn (declaredPreds bs) = 0%nat) as Hrest.
    { intros bs Hbs. eapply genDgSchema_blocks_count_none; [done|].
      intros key def block Hkey. apply Hothers; [by right|].
      intros ->. done. }
    rewrite HgenI.
    destruct HK as [-> | ->];
      (destruct (Schema.genDgSchema_blocks _ _ _ _ _ _) as [bs|]; [|done]);
      intros [= <-]; rewrite declaredPreds_cons, countPred_app, HcountI,
        (Hrest bs eq_refl); done.
  - apply elem_of_cons in Hin as [?|Hin]; [done|].
    assert (∀ bs, Schema.genDgSchema_blocks searchableDirective searchableArg
                    scalarToDgraph defaultSearchables gqlSch rest = Some bs →
                  countPred tn fn (declaredPreds bs) = 1%nat) as Hrest.
    { intros bs Hbs. apply IH; [done..| |done].
      intros key def block Hkey. apply Hothers. by right. }
    destruct (dKind d); try (by apply Hrest);
      (destruct (genType gqlSch d) as [b|] eqn:Hb; [|done]);
      (destruct (Schema.genDgSchema_blocks _ _ _ _ _ _) as [bs|]; [|done]);
      intros [= <-]; rewrite declaredPreds_cons, countPred_app,
        (Hothers k d b), (Hrest bs eq_refl); done || left.
Qed.

(** C3 (amended). In a schema that the generator can read, with distinct
    definitions, take a type [T] implementing the interface [I], and a
    field declared by [I], and by no other interface of [T], that is stored
    under a predicate (its type is not [ID] and is of Object, Scalar or Enum
    kind).  Then the block of [T] names the field [I.field] wherever [T]
    lists it as a stored field, and never [T.field]; no declaration for the
    field is written when [T] is processed; one is written when [I] is
    processed; and the predicate [I.field] is declared exactly once in the
    whole output. *)
Theorem genDgSchema_inherited_predicate gqlSch definitions tkey T ikey I fI :
  names_agree gqlSch → Types gqlSch !! "" = None →
  NoDup definitions → gen_wf gqlSch definitions →
  tkey ∈ definitions → Types gqlSch !! tkey = Some T → dKind T = Object →
  ikey ∈ definitions → Types gqlSch !! ikey = Some I → dKind I = Interface →
  dInterfaces I = [] → NoDup (fName <$> dFields I) →
  ikey ∈ dInterfaces T →
  (∀ j, j ∈ dInterfaces T → declares gqlSch j (fName fI) → j = ikey) →
  fI ∈ dFields I → has_predicate gqlSch fI →
  ∃ blocks tblock iblock,
    genDgSchema_blocks gqlSch definitions = Some blocks ∧
    genType gqlSch T = Some tblock ∧ tblock ∈ blocks ∧
    genType gqlSch I = Some iblock ∧ iblock ∈ blocks ∧
    (∀ f, f ∈ dFields T → fName f = fName fI → has_predicate gqlSch f →
       ∃ typStr, LTypeField ikey (fName fI) typStr ∈ tblock.1) ∧
    (∀ typStr, LTypeField tkey (fName fI) typStr ∉ tblock.1) ∧
    (∀ tn typStr indexStr, LPred tn (fName fI) typStr indexStr ∉ tblock.2) ∧
    countPred ikey (fName fI) iblock.2 = 1%nat ∧
    countPred ikey (fName fI) (declaredPreds blocks) = 1%nat.
Proof.
  intros Hnames Hempty Hnodup Hwf Htkey HT HKT Hikey HI HKI HIifaces HInodup
    Himpl Honly HfI [HfIID (fIdef & HfIdef & HfIK)].
  pose proof (Hnames _ _ HT) as HTname. pose proof (Hnames _ _ HI) as HIname.
  assert (ikey ≠ "") as Hikey_ne by (intros ->; congruence).
  assert (ikey ≠ tkey) as Hkeys.
  { intros Heq. assert (T = I) as HTI by congruence.
    rewrite HTI, HIifaces in Himpl. inversion Himpl. }
  destruct (genDgSchema_blocks_total gqlSch definitions Hwf) as [blocks Hblocks].
  destruct (genDgSchema_blocks_member _ _ _ _ _ Hblocks Htkey HT)
    as (tblock & HgenT & HtIn); [by left|].
  destruct (genDgSchema_blocks_member _ _ _ _ _ Hblocks Hikey HI)
    as (iblock & HgenI & HiIn); [by right|].
  exists blocks, tblock, iblock. do 5 (split; [done|]).
  (* in [T] the field is inherited from [I] *)
  assert (parentInterface gqlSch T (fName fI) = Some ikey) as HpT.
  { destruct (Hwf tkey Htkey) as (T' & HT' & HwfT).
    assert (T' = T) as -> by congruence.
    destruct HwfT as [HresT _]; [by left|].
    apply list_elem_of_split_l in Himpl as (pre & post & Hsplit & Hpre).
    rewrite parentInterface_unfold, Hsplit.
    rewrite parentInterface_range_skip; cycle 1.
    { intros j Hj. apply HresT. rewrite Hsplit. apply elem_of_app. by left. }
    { intros j Hj Hdj. assert (j = ikey) as ->; [|done].
      apply Honly; [|done]. rewrite Hsplit. apply elem_of_app. by left. }
    simpl. rewrite HI.
    assert (declaresField (dFields I) (fName fI) = true) as ->; [|done].
    apply declaresField_true. by exists fI. }
  assert (pickNamespace ikey (dName T) = ikey) as Hpick.
  { unfold pickNamespace. by apply String.eqb_neq in Hikey_ne as ->. }
  destruct tblock as [tTypeDef tPreds].
  destruct (genType_inv _ _ _ _ HgenT) as (tTypeDef0 & HfieldsT & ->).
  destruct (genFields_origin _ _ _ _ _ _ _ HfieldsT) as [HoriginT HoriginP].
  destruct (genFields_typeDef_keeps _ _ _ _ _ _ _ HfieldsT) as [_ HkeepsT].
  (* in [I] the field is the interface's own *)
  assert (parentInterface gqlSch I (fName fI) = Some "") as HpI.
  { unfold parentInterface. by rewrite HIifaces. }
  pose proof (genField_stored gqlSch I fI fIdef "" HfIID HpI HfIdef HfIK)
    as HgenIf.
  destruct iblock as [iTypeDef iPreds].
  destruct (genType_inv _ _ _ _ HgenI) as (iTypeDef0 & HfieldsI & ->).
  assert (countPred ikey (fName fI) iPreds = 1%nat) as HcountI.
  { rewrite <- HIname.
    assert (countPred (dName I) (fName fI)
              [LPred (pickNamespace "" (dName I)) (fName fI)
                 (typStrOf fI fIdef) (indexStrOf fI fIdef)] = 1%nat) as Hone.
    { unfold countPred. simpl. by rewrite !String.eqb_refl. }
    by rewrite (genFields_count_one _ _ _ _ _ _ _ fI _ _ (fName fI)
                  HInodup HfI eq_refl HgenIf Hone HfieldsI). }
  simpl. repeat split.
  - intros f Hf Hfn [HfID (fdef & Hfdef & HfK)].
    rewrite <- Hfn in HpT.
    pose proof (genField_stored gqlSch T f fdef ikey HfID HpT Hfdef HfK)
      as HgenTf.
    rewrite Hpick, Hfn in HgenTf.
    exists (typStrOf f fdef). apply elem_of_app. left.
    eapply HkeepsT; [exact Hf | exact HgenTf | left].
  - intros typStr Hin. apply elem_of_app in Hin as [Hin|Hin]; cycle 1.
    { apply list_elem_of_singleton in Hin. done. }
    destruct (HoriginT _ Hin) as [Hopen|(g & t & p & Hg & Hgen & Hline)].
    { apply list_elem_of_singleton in Hopen. done. }
    destruct (genField_typeDef_inv _ _ _ _ _ _ Hgen Hline)
      as (pi & ts & Hpi & [= Hns Hname _]).
    rewrite <- Hname, HpT in Hpi. assert (pi = ikey) by congruence.
    subst pi. congruence.
  - intros tn typStr indexStr Hin.
    destruct (HoriginP _ Hin) as [Hnil|(g & t & p & Hg & Hgen & Hline)].
    { inversion Hnil. }
    destruct (genField_pred_inv _ _ _ _ _ _ Hgen Hline)
      as (Hpi & ts & ix & [= _ Hname _ _]).
    rewrite <- Hname, HpT in Hpi. congruence.
  - done.
  - eapply (genDgSchema_blocks_count_one gqlSch definitions blocks ikey I
              (iTypeDef0 ++ [LTypeClose], iPreds)); eauto.
    intros key def block Hkey Hne Hdef Hgen.
    eapply genType_count_other; [done|].
    rewrite (Hnames _ _ Hdef). congruence.
Qed.

End GeneratorFacts.


Example genDgSchema_searchable_Int :
  genDgSchema exDirective exArg exScalarToDgraph exDefaultSearchables schT ["T"]
  = Some ("type T {" +:+ lf +:+ "  T.f: int" +:+ lf +:+ "}" +:+ lf +:+
          "T.f: int @index(int) ." +:+ lf).
Proof. by vm_compute. Qed.

(** The example with the interface [Character] meets the hypotheses. *)
Lemma schHuman_names_agree : names_agree schHuman.
Proof.
  intros key def Hdef. apply elem_of_map_to_list in Hdef.
  vm_compute in Hdef.
  repeat (apply elem_of_cons in Hdef as [Hdef|Hdef]; [by simplify_eq|]).
  inversion Hdef.
Qed.

Lemma schHuman_gen_wf : gen_wf schHuman defsHuman.
Proof.
  intros key Hkey. unfold defsHuman in Hkey. each_elem Hkey.
  - exists ifaceCharacter. split; [by vm_compute|]. intros _. split.
    + intros j Hj. inversion Hj.
    + intros f Hf HID. simpl in Hf. each_elem Hf; vm_compute; eauto.
  - exists typeHuman. split; [by vm_compute|]. intros _. split.
    + intros j Hj. simpl in Hj. each_elem Hj. vm_compute; eauto.
    + intros f Hf HID. simpl in Hf. each_elem Hf; vm_compute; eauto.
  - exists typeDroid. split; [by vm_compute|]. intros _. split.
    + intros j Hj. simpl in Hj. each_elem Hj. vm_compute; eauto.
    + intros f Hf HID. simpl in Hf. each_elem Hf; vm_compute; eauto.
Qed.

Lemma schHuman_name_stored : has_predicate schHuman (field "name" tString).
Proof.
  split; [discriminate|]. exists (scalarDef "String").
  split; [by vm_compute | right; by left].
Qed.

Lemma genDgSchema_inherited_predicate_witness :
  ∃ blocks tblock,
    genDgSchema_blocks exDirective exArg exScalarToDgraph exDefaultSearchables
      schHuman defsHuman = Some blocks ∧
    genType exDirective exArg exScalarToDgraph exDefaultSearchables
      schHuman typeHuman = Some tblock ∧
    (∃ typStr, LTypeField "Character" "name" typStr ∈ tblock.1) ∧
    countPred "Character" "name" (declaredPreds blocks) = 1%nat.
Proof.
  destruct (genDgSchema_inherited_predicate exDirective exArg exScalarToDgraph
              exDefaultSearchables schHuman defsHuman
              "Human" typeHuman "Character" ifaceCharacter
              (field "name" tString))
    as (blocks & tblock & iblock & Hblocks & HgenT & _ & _ & _ & Hnamed & _ & _
        & _ & Hcount).
  - exact schHuman_names_agree.
  - by vm_compute.
  - by apply (bool_decide_unpack _).
  - exact schHuman_gen_wf.
  - unfold defsHuman. elem_by_position.
  - by vm_compute.
  - reflexivity.
  - unfold defsHuman. elem_by_position.
  - by vm_compute.
  - reflexivity.
  - reflexivity.
  - by apply (bool_decide_unpack _).
  - simpl. elem_by_position.
  - intros j Hj _. simpl in Hj. by each_elem Hj.
  - simpl. elem_by_position.
  - exact schHuman_name_stored.
  - exists blocks, tblock. split; [exact Hblocks|]. split; [exact HgenT|].
    split; [|exact Hcount].
    apply (Hnamed (field "name" tString)); [simpl; elem_by_position | reflexivity |].
    exact schHuman_name_stored.
Defined.

(** C3, as stated, fails for a field of type [ID]: [Character] declares
    [id: ID!], [Human] lists it again and [Droid] does not, yet no
    predicate is declared for it, under any namespace, and no type block
    names it. *)
Lemma genDgSchema_ID_field_counterexample :
  field "id" tID ∈ dFields ifaceCharacter ∧
  "Character" ∈ dInterfaces typeHuman ∧ "Character" ∈ dInterfaces typeDroid ∧
  (λ blocks, (countPred "Character" "id" (declaredPreds blocks),
              countPred "Human" "id" (declaredPreds blocks),
              countPred "Droid" "id" (declaredPreds blocks))) <$>
    genDgSchema_blocks exDirective exArg exScalarToDgraph exDefaultSearchables
      schHuman defsHuman = Some (0, 0, 0)%nat ∧
  genDgSchema exDirective exArg exScalarToDgraph exDefaultSearchables
    schHuman defsHuman =
  Some ("type Character {" +:+ lf +:+
        "  Character.name: string" +:+ lf +:+
        "}" +:+ lf +:+
        "Character.name: string ." +:+ lf +:+
        "type Human {" +:+ lf +:+
        "  Character.name: string" +:+ lf +:+
        "  Human.totalCredits: int" +:+ lf +:+
        "  Human.friends: [uid]" +:+ lf +:+
        "}" +:+ lf +:+
        "Human.totalCredits: int ." +:+ lf +:+
        "Human.friends: [uid] ." +:+ lf +:+
        "type Droid {" +:+ lf +:+
        "  Droid.primaryFunction: string" +:+ lf +:+
        "}" +:+ lf +:+
        "Droid.primaryFunction: string ." +:+ lf).
Proof.
  split; [simpl; elem_by_position|].
  split; [simpl; elem_by_position|].
  split; [simpl; elem_by_position|].
  split; by vm_compute.
Qed.

End SchemaFacts.

(** ** Properties of package [alpha] *)

Module AlphaFacts.

Import GoStrings GoStringsFacts Alpha.

(** *** [handleAbort] *)

(** C1. [handleAbort] calls the commit with a context that carries the
    start timestamp and the aborted flag, and maps its error: the sentinel
    [dgo.ErrAborted] gives the success envelope and no error; no error gives
    the error "transaction could not be aborted"; any other error is
    returned as it is.  The commit endpoint, called with a start timestamp
    that is not zero and [abort] true, answers with what [handleAbort]
    returns: the envelope, or the error as an invalid-request status. *)
Theorem handleAbort_maps_commit_error
    (CommitOverNetwork : TxnContext.t → Z * option error) (startTs : Z) :
  let err := (CommitOverNetwork (abortContext startTs)).2 in
  (err = Some dgo_ErrAborted →
   handleAbort CommitOverNetwork startTs = inl successEnvelope) ∧
  (err = None →
   handleAbort CommitOverNetwork startTs =
     inr (errorString "transaction could not be aborted")) ∧
  (∀ other, err = Some other → other ≠ dgo_ErrAborted →
   handleAbort CommitOverNetwork startTs = inr other) ∧
  (∀ strconv_ParseUint commitPath URLQuery,
     parseUint64 strconv_ParseUint URLQuery "startTs" = inl startTs →
     startTs ≠ 0 →
     parseBool URLQuery "abort" = inl true →
     commitHandler strconv_ParseUint CommitOverNetwork commitPath URLQuery =
       match handleAbort CommitOverNetwork startTs with
       | inl response => Done response
       | inr err => Failed (EvSetStatusErr ErrorInvalidRequest err)
       end).
Proof.
  split; [|split; [|split]].
  - unfold handleAbort. fold (abortContext startTs).
    destruct (CommitOverNetwork (abortContext startTs)) as [cts err].
    simpl. by intros ->.
  - unfold handleAbort. fold (abortContext startTs).
    destruct (CommitOverNetwork (abortContext startTs)) as [cts err].
    simpl. by intros ->.
  - unfold handleAbort. fold (abortContext startTs).
    destruct (CommitOverNetwork (abortContext startTs)) as [cts err].
    simpl. intros other -> Hother. by destruct other.
  - intros strconv_ParseUint commitPath URLQuery Hts Hnz Habort.
    unfold commitHandler. rewrite Hts, Habort.
    apply Z.eqb_neq in Hnz as ->.
    by destruct (handleAbort CommitOverNetwork startTs).
Qed.

Lemma handleAbort_maps_commit_error_witness :
  handleAbort abortingCommit 5 = inl successEnvelope ∧
  commitHandler (λ _, Some 5) abortingCommit (λ _, Panic) exAbortQuery =
    Done successEnvelope.
Proof.
  destruct (handleAbort_maps_commit_error abortingCommit 5)
    as (Haborted & _ & _ & Hendpoint).
  split.
  - apply Haborted. reflexivity.
  - rewrite (Hendpoint (λ _, Some 5) (λ _, Panic) exAbortQuery);
      [by rewrite Haborted | reflexivity | discriminate | reflexivity].
Defined.

(** *** [readRequest] *)

Lemma Values_Get_absent (v : gmap string (list string)) key :
  v !! key = None → Values_Get v key = "".
Proof. unfold Values_Get. by intros ->. Qed.

(** C10. [readRequest] on the value of the [Content-Encoding] header:
    absent, empty or [identity], the body is read as it is, with no
    decompressor; [gzip], and only it, creates the decompressor, through
    which the body is then read; any other value is answered with
    "Unsupported content encoding" and nothing is read. *)
Theorem readRequest_content_encoding (Reader : Type)
    (ioutil_ReadAll : Reader → string + string)
    (gzip_NewReader : Reader → option Reader)
    (Header : gmap string (list string)) (Body : Reader) :
  let enc := Values_Get Header "Content-Encoding" in
  let run := readRequest Reader ioutil_ReadAll gzip_NewReader Header Body in
  (Header !! "Content-Encoding" = None → enc = "") ∧
  (enc = "" ∨ enc = "identity" →
   run = match ioutil_ReadAll Body with
         | inl body => (Some body, [EvReadAll])
         | inr errText =>
             (None, [EvReadAll; EvSetStatus ErrorInvalidRequest errText])
         end) ∧
  (enc = "gzip" →
   run = match gzip_NewReader Body with
         | None =>
             (None, [EvGzipNewReader;
                     EvSetStatus Error "Unable to create decompressor"])
         | Some gz =>
             match ioutil_ReadAll gz with
             | inl body => (Some body, [EvGzipNewReader; EvReadAll])
             | inr errText =>
                 (None, [EvGzipNewReader; EvReadAll;
                         EvSetStatus ErrorInvalidRequest errText])
             end
         end) ∧
  (EvGzipNewReader ∈ run.2 ↔ enc = "gzip") ∧
  (enc ≠ "" → enc ≠ "identity" → enc ≠ "gzip" →
   run = (None,
          [EvSetStatus ErrorInvalidRequest "Unsupported content encoding"])).
Proof.
  intros enc run. subst run. unfold readRequest. fold enc.
  split; [apply Values_Get_absent|].
  destruct (String.eqb_spec enc "") as [He|He];
    [|destruct (String.eqb_spec enc "identity") as [Hi|Hi];
      [|destruct (String.eqb_spec enc "gzip") as [Hg|Hg]]]; simpl;
    try rewrite He; try rewrite Hi;
    repeat split; intros;
    repeat match goal with
      | H : _ ∨ _ |- _ => destruct H
      | |- context [ioutil_ReadAll ?r] => destruct (ioutil_ReadAll r)
      | |- context [gzip_NewReader ?r] => destruct (gzip_NewReader r)
      | H : context [ioutil_ReadAll ?r] |- _ => destruct (ioutil_ReadAll r)
      | H : context [gzip_NewReader ?r] |- _ => destruct (gzip_NewReader r)
      end; simpl in *;
    repeat match goal with
      | H : _ ∈ _ :: _ |- _ => apply elem_of_cons in H as [?|H]
      | H : _ ∈ [] |- _ => inversion H
      end;
    try done; by left.
Qed.

Lemma readRequest_content_encoding_witness :
  readRequest string inl (λ _, None) (<["Content-Encoding" := ["deflate"]]> ∅)
    "body" =
  (None, [EvSetStatus ErrorInvalidRequest "Unsupported content encoding"]).
Proof.
  apply (readRequest_content_encoding string inl (λ _, None)
           (<["Content-Encoding" := ["deflate"]]> ∅) "body");
    by vm_compute.
Defined.

(** *** [parseBool] and the flags of [queryHandler] *)

Lemma parseBool_true URLQuery name :
  Values_Get URLQuery name = "true" → parseBool URLQuery name = inl true.
Proof. unfold parseBool. by intros ->. Qed.

(** C8. With a zero start timestamp, and both parameters well formed, the
    request sent to the engine is best-effort exactly when [be] is true and
    read-only exactly when [be] or [ro] is true; [be=true] and [ro=true] in
    the query string are read as true.  So [be=true] sets both flags, and
    [ro=true] sets read-only whatever [be] is and leaves best-effort to
    [be]. *)
Theorem queryHandler_request_flags URLQuery paramsQuery :
  (∀ isBestEffort isReadOnly,
     parseBool URLQuery "be" = inl isBestEffort →
     parseBool URLQuery "ro" = inl isReadOnly →
     ∃ req, queryHandler_request URLQuery paramsQuery 0 = inr req ∧
       Request.BestEffort req = isBestEffort ∧
       Request.ReadOnly req = isBestEffort || isReadOnly ∧
       Request.StartTs req = 0 ∧ Request.Query req = paramsQuery) ∧
  (Values_Get URLQuery "be" = "true" → parseBool URLQuery "be" = inl true) ∧
  (Values_Get URLQuery "ro" = "true" → parseBool URLQuery "ro" = inl true).
Proof.
  split; [|split; apply parseBool_true].
  intros isBestEffort isReadOnly Hbe Hro.
  unfold queryHandler_request. simpl. rewrite Hbe, Hro.
  destruct isBestEffort, isReadOnly; eexists; done.
Qed.

Lemma queryHandler_request_flags_witness :
  ∃ req, queryHandler_request exQueryQuery "{ q(func: uid(1)) { uid } }" 0
           = inr req ∧
    Request.BestEffort req = true ∧ Request.ReadOnly req = true.
Proof.
  destruct (proj1 (queryHandler_request_flags exQueryQuery
                     "{ q(func: uid(1)) { uid } }") true false)
    as (req & Hreq & Hbe & Hro & _).
  - reflexivity.
  - reflexivity.
  - exists req. split; [exact Hreq|]. split; [exact Hbe | exact Hro].
Defined.

(** *** [mutationHandler]: the transaction metadata *)

Lemma sort_Strings_Sorted a : Sorted String.le (sort_Strings a).
Proof. apply (Sorted_merge_sort String.le). Qed.

Lemma sort_Strings_Permutation a : sort_Strings a ≡ₚ a.
Proof. apply merge_sort_Permutation. Qed.

(** Sorting has one result, whatever the algorithm. *)
Lemma sort_Strings_unique a b :
  Sorted String.le b → b ≡ₚ a → b = sort_Strings a.
Proof.
  intros Hsorted Hperm. apply (Sorted_unique String.le); [done | |].
  - apply sort_Strings_Sorted.
  - by rewrite sort_Strings_Permutation.
Qed.

Lemma mutationHandler_extensions_done parsingNs commitNow resp e :
  mutationHandler_extensions parsingNs commitNow resp = Done e →
  ∃ txn, Response.Txn resp = Some txn ∧
    TxnContext.Keys (Extensions.Txn e) =
      (if commitNow then [] else sort_Strings (TxnContext.Keys txn)) ∧
    TxnContext.Preds (Extensions.Txn e) = sort_Strings (TxnContext.Preds txn).
Proof.
  unfold mutationHandler_extensions.
  destruct (Response.Latency resp); [|done].
  destruct (Response.Txn resp) as [txn|]; [|done].
  intros [= <-]. by exists txn.
Qed.

(** C6. In the response of every successful mutation request the conflict
    keys and the predicates of the transaction metadata are sorted in the
    byte-wise lexicographic order; the predicates are those the engine
    returned, and so are the keys unless the request was to commit now; with
    [commitNow=true] in the query string the list of keys is empty. *)
Theorem mutationHandler_txn_sorted strconv_ParseUint json_Marshal edgraph_Query
    URLQuery parsed parsingNs e data :
  mutationHandler strconv_ParseUint json_Marshal edgraph_Query
    URLQuery parsed parsingNs = Done (e, data) →
  Sorted String.le (TxnContext.Keys (Extensions.Txn e)) ∧
  Sorted String.le (TxnContext.Preds (Extensions.Txn e)) ∧
  (∃ req resp txn commitNow,
     parseBool URLQuery "commitNow" = inl commitNow ∧
     Request.CommitNow req = commitNow ∧
     edgraph_Query req = inl resp ∧ Response.Txn resp = Some txn ∧
     TxnContext.Preds (Extensions.Txn e) ≡ₚ TxnContext.Preds txn ∧
     (commitNow = false →
      TxnContext.Keys (Extensions.Txn e) ≡ₚ TxnContext.Keys txn)) ∧
  (Values_Get URLQuery "commitNow" = "true" →
   TxnContext.Keys (Extensions.Txn e) = []).
Proof.
  unfold mutationHandler.
  destruct (parseBool URLQuery "commitNow") as [commitNow|] eqn:Hcommit; [|done].
  destruct (parseUint64 _ _ _) as [startTs|]; [|done].
  destruct parsed as [|req0]; [done|].
  match goal with |- context [edgraph_Query ?r] => set (req := r) end.
  destruct (edgraph_Query req) as [resp|] eqn:Hquery; [|done].
  destruct (mutationHandler_extensions _ _ _) as [e'| |] eqn:Hext; [|done..].
  destruct (mutationHandler_data _ _) as [data'| |]; [|done..].
  intros [= <- <-].
  apply mutationHandler_extensions_done in Hext as (txn & Htxn & Hkeys & Hpreds).
  simpl in Hkeys. rewrite Hkeys, Hpreds. repeat split.
  - destruct commitNow; [constructor | apply sort_Strings_Sorted].
  - apply sort_Strings_Sorted.
  - exists req, resp, txn, commitNow. repeat split; try done.
    + apply sort_Strings_Permutation.
    + intros ->. apply sort_Strings_Permutation.
  - intros Htrue. rewrite (parseBool_true _ _ Htrue) in Hcommit.
    by injection Hcommit as <-.
Qed.

(** An engine that answers every request with the example response. *)
Lemma mutationHandler_txn_sorted_witness :
  ∃ e data,
    mutationHandler (λ _, None) (λ _, inl "{}") (λ _, inl exResponse)
      exMutationQuery (inr exRequest) 11 = Done (e, data) ∧
    TxnContext.Keys (Extensions.Txn e) = [] ∧
    Sorted String.le (TxnContext.Preds (Extensions.Txn e)).
Proof.
  eexists _, _. split; [reflexivity|].
  pose proof (mutationHandler_txn_sorted (λ _, None) (λ _, inl "{}")
                (λ _, inl exResponse) exMutationQuery (inr exRequest) 11
                _ _ eq_refl) as (_ & Hpreds & _ & Hkeys).
  split; [apply Hkeys; reflexivity | exact Hpreds].
Defined.

(** *** [mutationHandler]: the data field *)

(** C7. When the raw result is longer than two bytes and ends with a
    closing brace, the data field is the raw result without that brace,
    a comma, and the serialized [{code, message, uids}] without its first
    byte, the opening brace; when the raw result is at most two bytes long
    or does not end with a closing brace, the data field is the
    [{code, message, uids}] object itself. *)
Theorem mutationHandler_data_splice (json_Marshal : gmap string Value → string + string)
    (resp : Response.t) :
  let mp : gmap string Value :=
    <["uids" := VUids (Response.Uids resp)]>
      (<["message" := VString "Done"]> (<["code" := VCode Success]> ∅)) in
  (∀ body c rest,
     Response.Json resp = body +:+ "}" →
     (2 < String.length (Response.Json resp))%nat →
     json_Marshal mp = inl (String c rest) →
     mutationHandler_data json_Marshal resp =
       Done (DataRaw (body +:+ "," +:+ rest))) ∧
  ((String.length (Response.Json resp) ≤ 2)%nat ∨
   (¬ ∃ body, Response.Json resp = body +:+ "}") →
   mutationHandler_data json_Marshal resp = Done (DataMap mp)).
Proof.
  intros mp. unfold mutationHandler_data, mutationHandler_mp. fold mp. split.
  - intros body c rest Hjson Hlen Hmarshal. rewrite Hmarshal, Hjson.
    rewrite Hjson in Hlen. rewrite length_append in *. simpl String.length in *.
    replace (String.length body + 1 - 1)%nat with (String.length body) by lia.
    rewrite get_append_last, take_bytes_append.
    rewrite bool_decide_eq_true_2 by done.
    assert ((2 <? String.length body + 1)%nat = true) as ->
      by (apply Nat.ltb_lt; lia).
    simpl. by rewrite append_assoc.
  - intros Hnot.
    destruct (2 <? String.length (Response.Json resp))%nat eqn:Hlen; [|done].
    apply Nat.ltb_lt in Hlen. destruct Hnot as [Hshort|Hnobrace]; [lia|].
    rewrite bool_decide_eq_false_2; [done|].
    intros Hget. apply Hnobrace.
    eexists. by apply last_byte_split.
Qed.

Lemma mutationHandler_data_splice_witness :
  mutationHandler_data exMarshal exQueryResponse =
  Done (DataRaw ("{" +:+ dquote +:+ "q" +:+ dquote +:+ ":[]" +:+ "," +:+
                 dquote +:+ "code" +:+ dquote +:+ ":" +:+
                 dquote +:+ "Success" +:+ dquote +:+ "}")).
Proof.
  apply (proj1 (mutationHandler_data_splice exMarshal exQueryResponse)
           ("{" +:+ dquote +:+ "q" +:+ dquote +:+ ":[]") "{"%char).
  - reflexivity.
  - vm_compute. lia.
  - reflexivity.
Defined.

(** *** [jsonLineAndChar] and [convertJSONError] *)

Lemma countLF_snoc runes b :
  countLF (runes ++ [b]) = countLF runes + (if isLF b then 1 else 0).
Proof.
  unfold countLF. rewrite List.filter_app, length_app. simpl.
  destruct (isLF b); simpl; lia.
Qed.


Lemma lastLine_snoc runes b :
  lastLine (runes ++ [b]) = if isLF b then [b] else lastLine runes ++ [b].
Proof.
  induction runes as [|a runes IH]; simpl.
  - by destruct (isLF b).
  - rewrite existsb_app, IH. simpl. rewrite orb_false_r.
    destruct (isLF b); [by rewrite orb_true_r|]. rewrite orb_false_r.
    by destruct (existsb isLF runes).
Qed.

(** The loop keeps the line and the character of the runes passed so far,
    [passed], in step with their definition. *)
Lemma jsonLineAndChar_range_spec pairs offset passed :
  jsonLineAndChar_range pairs offset
    (1 + countLF passed) (Z.of_nat (length (lastLine passed))) =
  (1 + countLF (passed ++ (scanned pairs offset).*2),
   Z.of_nat (length (lastLine (passed ++ (scanned pairs offset).*2)))).
Proof.
  revert passed. induction pairs as [|[i b] rest IH]; intros passed; simpl.
  { by rewrite app_nil_r. }
  assert ((if b =? 10 then (1 + countLF passed + 1, 0)
           else (1 + countLF passed, Z.of_nat (length (lastLine passed)))) =
          (1 + countLF (passed ++ [b]),
           Z.of_nat (length (lastLine (passed ++ [b]))) - 1)) as ->.
  { rewrite countLF_snoc, lastLine_snoc. unfold isLF.
    destruct (b =? 10); simpl; [f_equal; lia|].
    rewrite length_app. simpl. f_equal; lia. }
  replace (Z.of_nat (length (lastLine (passed ++ [b]))) - 1 + 1)
    with (Z.of_nat (length (lastLine (passed ++ [b])))) by lia.
  destruct (i =? offset); simpl.
  - done.
  - rewrite IH. by rewrite <- app_assoc.
Qed.



(** On a second line the line feed counts as the first character. *)
Example jsonLineAndChar_second_line :
  jsonLineAndChar ("{" +:+ String (ascii_of_nat 10) "" +:+ "  }") 3 = (2, 3, None).
Proof. reflexivity. Qed.

(** A rune of several bytes is one character; an offset inside it stops
    the loop nowhere. *)
Example jsonLineAndChar_multibyte :
  let e_acute := String (ascii_of_nat 195) (String (ascii_of_nat 169) "") in
  jsonLineAndChar (e_acute +:+ "}") 2 = (1, 2, None) ∧
  jsonLineAndChar (e_acute +:+ "}}") 1 = (1, 3, None).
Proof. split; reflexivity. Qed.

End AlphaFacts.

(** ** Further properties of package [schema] *)

Module SchemaExtras.

Import GoStrings GoStringsFacts Schema SchemaFacts.

(** *** [DgraphMapping]: what the map holds *)

(** An entry after the loop over the fields was there before or is the
    predicate of one of the fields. *)
Lemma DgraphMapping_fields_entry sch orig T tn flds acc m k v :
  DgraphMapping_fields sch orig T tn flds acc = Some m →
  m !! k = Some v →
  acc !! k = Some v ∨
  ∃ fld parentInt, fld ∈ flds ∧ k = dName orig +:+ fName fld ∧
    parentInterface sch T (fName fld) = Some parentInt ∧
    v = predicateOf (pickNamespace parentInt tn) (fName fld).
Proof.
  revert acc. induction flds as [|fld rest IH]; simpl; intros acc.
  { intros [= <-]. by left. }
  destruct (parentInterface sch T (fName fld)) as [p|] eqn:Hp; [|done].
  intros Hrun Hm. destruct (IH _ Hrun Hm) as [Hacc|(g & q & Hg & ? & ? & ?)].
  - destruct (decide (dName orig +:+ fName fld = k)) as [<-|Hne].
    + rewrite lookup_insert_eq in Hacc. injection Hacc as <-.
      right. exists fld, p. split; [left | done].
    + rewrite lookup_insert_ne in Hacc by done. by left.
  - right. exists g, q. split; [by right | done].
Qed.

Lemma DgraphMapping_type_entry sch U acc m k v :
  DgraphMapping_type sch U acc = Some m →
  m !! k = Some v →
  acc !! k = Some v ∨
  (skipped U = false ∧
   ∃ T tn fld parentInt, resolveTyp sch U = Some (T, tn) ∧ fld ∈ dFields T ∧
     k = dName U +:+ fName fld ∧
     parentInterface sch T (fName fld) = Some parentInt ∧
     v = predicateOf (pickNamespace parentInt tn) (fName fld)).
Proof.
  unfold DgraphMapping_type.
  destruct (skipped U) eqn:Hskip; [intros [= <-]; by left|].
  destruct (resolveTyp sch U) as [[T tn]|] eqn:Hres; [|done].
  intros Hrun Hm.
  destruct (DgraphMapping_fields_entry _ _ _ _ _ _ _ _ _ Hrun Hm)
    as [?|(fld & p & ? & ? & ? & ?)]; [by left|].
  right. split; [done|]. by exists T, tn, fld, p.
Qed.

(** The namespace picked is the name read for the type or one of the
    interfaces of the type, one that declares the field. *)
Lemma pickNamespace_cases sch T tn fieldName parentInt :
  parentInterface sch T fieldName = Some parentInt →
  pickNamespace parentInt tn = tn ∨
  (pickNamespace parentInt tn ∈ dInterfaces T ∧
   declares sch (pickNamespace parentInt tn) fieldName).
Proof.
  rewrite parentInterface_unfold. intros Hp.
  apply parentInterface_range_inv in Hp as [(pre & post & Hsplit & _ & Hd)|[-> _]].
  - unfold pickNamespace. destruct (String.eqb_spec parentInt ""); [by left|].
    right. split; [|done]. rewrite Hsplit. apply elem_of_app. right. left.
  - by left.
Qed.

(** X1. Every entry of the map [DgraphMapping] returns was written for a
    visited type [U] that the loop does not skip (not built in, not named
    [query] or [mutation], of Object or Interface kind) and a field of the
    type [U] is read through: the key is the name of [U] followed by the
    field name, the value is [ns.field] with [ns] the name the type is read
    under or an interface of that type which declares the field. *)
Theorem DgraphMapping_entries_justified sch visit m k v :
  DgraphMapping sch visit = Some m →
  m !! k = Some v →
  ∃ U T tn fld ns,
    U ∈ visit ∧ skipped U = false ∧ resolveTyp sch U = Some (T, tn) ∧
    fld ∈ dFields T ∧
    k = dName U +:+ fName fld ∧ v = ns +:+ "." +:+ fName fld ∧
    (ns = tn ∨ (ns ∈ dInterfaces T ∧ declares sch ns (fName fld))).
Proof.
  unfold DgraphMapping.
  assert (∀ acc, DgraphMapping_range sch visit acc = Some m →
            m !! k = Some v →
            acc !! k = Some v ∨
            ∃ U T tn fld ns,
              U ∈ visit ∧ skipped U = false ∧ resolveTyp sch U = Some (T, tn) ∧
              fld ∈ dFields T ∧
              k = dName U +:+ fName fld ∧ v = ns +:+ "." +:+ fName fld ∧
              (ns = tn ∨ (ns ∈ dInterfaces T ∧ declares sch ns (fName fld))))
    as Hgen.
  { induction visit as [|U rest IH]; simpl; intros acc.
    { intros [= <-]. by left. }
    destruct (DgraphMapping_type sch U acc) as [acc'|] eqn:HU; [|done].
    intros Hrun Hm.
    destruct (IH _ Hrun Hm)
      as [Hacc|(V & T & tn & fld & ns & HV & ? & ? & ? & ? & ? & ?)].
    - destruct (DgraphMapping_type_entry _ _ _ _ _ _ HU Hacc)
        as [?|(Hskip & T & tn & fld & p & Hres & Hfld & Hk & Hp & Hv)];
        [by left|].
      right. exists U, T, tn, fld, (pickNamespace p tn).
      split; [left|]. repeat (split; [done|]).
      by eapply pickNamespace_cases.
    - right. exists V, T, tn, fld, ns. split; [by right | done]. }
  intros Hrun Hm. destruct (Hgen ∅ Hrun Hm) as [Hempty|?]; [|done].
  by rewrite lookup_empty in Hempty.
Qed.

(** The map of the example and one of its entries. *)
Lemma schAuthor_mapping_entry :
  ∃ m, DgraphMapping schAuthor visitAuthor = Some m ∧
    m !! "DeleteAuthorPayloadname" = Some "Person.name".
Proof.
  destruct (DgraphMapping_range_total schAuthor visitAuthor ∅ visitAuthor_wf)
    as [m Hm].
  exists m. split; [exact Hm|].
  apply (DgraphMapping_range_hit schAuthor visitAuthor ∅ m
           typeDeleteAuthorPayload typeAuthor "Author" (field "name" tString)
           "Person").
  - reflexivity.
  - by vm_compute.
  - left.
  - by vm_compute.
  - exact Hm.
  - apply (visitAuthor_one_writer typeDeleteAuthorPayload "name");
      elem_by_position.
  - left. rewrite visitAuthor_eq. elem_by_position.
Qed.

Lemma DgraphMapping_entries_justified_witness :
  ∃ U T tn fld ns,
    U ∈ visitAuthor ∧ skipped U = false ∧
    resolveTyp schAuthor U = Some (T, tn) ∧ fld ∈ dFields T ∧
    "DeleteAuthorPayloadname" = dName U +:+ fName fld ∧
    "Person.name" = ns +:+ "." +:+ fName fld ∧
    (ns = tn ∨ (ns ∈ dInterfaces T ∧ declares schAuthor ns (fName fld))).
Proof.
  destruct schAuthor_mapping_entry as (m & Hm & Hentry).
  exact (DgraphMapping_entries_justified schAuthor visitAuthor m
           "DeleteAuthorPayloadname" "Person.name" Hm Hentry).
Defined.

(** *** [DgraphMapping]: panics and the order of the visit *)

(** Whether the pass over a type panics does not depend on the map so far. *)
Lemma DgraphMapping_fields_Some_any sch orig T tn flds acc acc' :
  is_Some (DgraphMapping_fields sch orig T tn flds acc) →
  is_Some (DgraphMapping_fields sch orig T tn flds acc').
Proof.
  revert acc acc'. induction flds as [|fld rest IH]; simpl; [eauto|].
  intros acc acc'. destruct (parentInterface sch T (fName fld)); [|done].
  apply IH.
Qed.

Lemma DgraphMapping_type_Some_any sch U acc acc' :
  is_Some (DgraphMapping_type sch U acc) →
  is_Some (DgraphMapping_type sch U acc').
Proof.
  unfold DgraphMapping_type. destruct (skipped U); [eauto|].
  destruct (resolveTyp sch U) as [[T tn]|]; [|done].
  apply DgraphMapping_fields_Some_any.
Qed.

Lemma DgraphMapping_range_Some sch visit acc :
  is_Some (DgraphMapping_range sch visit acc) ↔
  Forall (λ U, is_Some (DgraphMapping_type sch U ∅)) visit.
Proof.
  revert acc. induction visit as [|U rest IH]; simpl; intros acc.
  { split; [constructor | eauto]. }
  rewrite Forall_cons. split.
  - destruct (DgraphMapping_type sch U acc) as [acc'|] eqn:HU;
      [|by intros [? ?]].
    intros Hrest. split; [|by eapply IH].
    apply (DgraphMapping_type_Some_any sch U acc). by rewrite HU.
  - intros [HU Hrest].
    destruct (DgraphMapping_type_Some_any sch U ∅ acc HU) as [acc' ->].
    by apply IH.
Qed.

(** The pass over the types leaves a key alone or one of them writes it. *)
Lemma DgraphMapping_range_other sch visit acc m k :
  DgraphMapping_range sch visit acc = Some m →
  m !! k = acc !! k ∨ ∃ U, U ∈ visit ∧ writes_key sch U k.
Proof.
  revert acc. induction visit as [|U rest IH]; simpl; intros acc.
  { intros [= <-]. by left. }
  destruct (DgraphMapping_type sch U acc) as [acc'|] eqn:HU; [|done].
  intros Hrun. destruct (IH _ Hrun) as [Heq|(V & HV & Hw)].
  - destruct (DgraphMapping_type_other _ _ _ _ k HU) as [Heq'|Hw].
    + left. congruence.
    + right. exists U. split; [left | done].
  - right. exists V. split; [by right | done].
Qed.

(** In a run without panic, the key of a writer holds its predicate when
    it is the only writer of the key. *)
Lemma DgraphMapping_writer_entry sch visit m U k :
  DgraphMapping sch visit = Some m →
  U ∈ visit → writes_key sch U k →
  (∀ V, V ∈ visit → writes_key sch V k → V = U) →
  ∃ T tn fld parentInt,
    resolveTyp sch U = Some (T, tn) ∧ fld ∈ dFields T ∧
    k = dName U +:+ fName fld ∧
    parentInterface sch T (fName fld) = Some parentInt ∧
    m !! k = Some (predicateOf (pickNamespace parentInt tn) (fName fld)).
Proof.
  intros Hrun HU (Hskip & T & tn & fld & Hres & Hfld & Hk) Honly.
  assert (is_Some (DgraphMapping_type sch U ∅)) as [mU HmU].
  { assert (is_Some (DgraphMapping_range sch visit ∅)) as Hsome
      by (unfold DgraphMapping in Hrun; by rewrite Hrun).
    apply DgraphMapping_range_Some in Hsome.
    by apply (proj1 (Forall_forall _ _) Hsome). }
  unfold DgraphMapping_type in HmU. rewrite Hskip, Hres in HmU.
  destruct (DgraphMapping_fields_hit _ _ _ _ _ _ _ fld HmU Hfld)
    as (p & Hp & _).
  exists T, tn, fld, p. repeat (split; [done|]). subst k.
  by apply (DgraphMapping_range_hit sch visit ∅ m U T tn fld p);
    [..|left].
Qed.

(** X2. Go visits the types of the schema in an order it does not fix; when
    no two visited types write the same key, the map [DgraphMapping]
    returns, or its panic, is the same for every order. *)
Theorem DgraphMapping_order_independent sch visit1 visit2 :
  visit1 ≡ₚ visit2 →
  unambiguous sch visit1 →
  DgraphMapping sch visit1 = DgraphMapping sch visit2.
Proof.
  intros Hperm Hunamb.
  assert (unambiguous sch visit2) as Hunamb2.
  { intros U1 U2 k H1 H2. apply Hunamb; by rewrite Hperm. }
  assert (is_Some (DgraphMapping sch visit1) ↔
          is_Some (DgraphMapping sch visit2)) as Hsome.
  { unfold DgraphMapping. rewrite !DgraphMapping_range_Some. by rewrite Hperm. }
  destruct (DgraphMapping sch visit1) as [m1|] eqn:H1,
           (DgraphMapping sch visit2) as [m2|] eqn:H2; [|..|done].
  2: { destruct (proj1 Hsome) as [? ?]; [eauto | done]. }
  2: { destruct (proj2 Hsome) as [? ?]; [eauto | done]. }
  f_equal. apply map_eq. intros k.
  assert (∀ visit visit' m m',
            visit ≡ₚ visit' → unambiguous sch visit →
            DgraphMapping sch visit = Some m →
            DgraphMapping sch visit' = Some m' →
            (∃ U, U ∈ visit ∧ writes_key sch U k) → m !! k = m' !! k) as Hw.
  { intros visit visit' m m' Hp Hu Hm Hm' (U & HU & Hwrites).
    destruct (DgraphMapping_writer_entry sch visit m U k Hm HU Hwrites)
      as (T & tn & fld & p & Hres & Hfld & Hk & Hpi & ->).
    { intros V HV HwV. by apply (Hu V U k). }
    destruct (DgraphMapping_writer_entry sch visit' m' U k Hm')
      as (T' & tn' & fld' & p' & Hres' & Hfld' & Hk' & Hpi' & ->);
      [by rewrite <- Hp | done | |].
    { intros V HV HwV. apply (Hu V U k); [by rewrite Hp | done..]. }
    assert (fName fld' = fName fld) as Hname.
    { rewrite Hk in Hk'. by apply (inj (String.append (dName U))) in Hk'. }
    rewrite Hname in *. congruence. }
  unfold DgraphMapping in H1, H2.
  destruct (DgraphMapping_range_other _ _ _ _ k H1) as [Hk1|Hw1];
    [|by apply (Hw visit1 visit2)].
  destruct (DgraphMapping_range_other _ _ _ _ k H2) as [Hk2|Hw2];
    [congruence|].
  symmetry. by apply (Hw visit2 visit1).
Qed.

(** In the example no key is written twice. *)
Lemma visitAuthor_unambiguous : unambiguous schAuthor visitAuthor.
Proof.
  intros U1 U2 k H1 H2 (Hs1 & T1 & tn1 & f1 & Hr1 & Hf1 & Hk1)
    (Hs2 & T2 & tn2 & f2 & Hr2 & Hf2 & Hk2).
  rewrite visitAuthor_eq in H1, H2. subst k.
  each_elem H1; try discriminate Hs1; vm_compute in Hr1; simplify_eq;
    vm_compute in Hf1; each_elem Hf1;
    each_elem H2; try discriminate Hs2; vm_compute in Hr2; simplify_eq;
    vm_compute in Hf2; each_elem Hf2;
    try discriminate Hk2; reflexivity.
Qed.

Lemma DgraphMapping_order_independent_witness :
  DgraphMapping schAuthor visitAuthor =
  DgraphMapping schAuthor (reverse visitAuthor).
Proof.
  apply DgraphMapping_order_independent.
  - by rewrite reverse_Permutation.
  - exact visitAuthor_unambiguous.
Defined.

(** With two types that write one key the order shows: the type visited
    last has the last word. *)
Example DgraphMapping_clash_depends_on_order :
  DgraphMapping schClash [typeA_bc; typeAb_c] ≫= (.!! "Abc") = Some "Ab.c" ∧
  DgraphMapping schClash [typeAb_c; typeA_bc] ≫= (.!! "Abc") = Some "A.bc".
Proof. split; by vm_compute. Qed.

(** X3. A visited type named [Delete<X>Payload] that the loop does not skip,
    with no type named [X] in the schema, makes [DgraphMapping] panic: the
    fields are read through a nil definition. *)
Theorem DgraphMapping_orphan_payload_panics sch visit W X :
  W ∈ visit → skipped W = false →
  dName W = del +:+ X +:+ payload →
  Types sch !! X = None →
  DgraphMapping sch visit = None.
Proof.
  intros HW Hskip Hname HX.
  destruct (DgraphMapping sch visit) as [m|] eqn:Hrun; [|done].
  assert (is_Some (DgraphMapping_range sch visit ∅)) as Hsome
    by (unfold DgraphMapping in Hrun; by rewrite Hrun).
  apply DgraphMapping_range_Some in Hsome.
  pose proof (proj1 (Forall_forall _ _) Hsome W HW) as [mW HmW].
  unfold DgraphMapping_type in HmW.
  by rewrite Hskip, (resolveTyp_delete_payload sch W X Hname), HX in HmW.
Qed.

Lemma DgraphMapping_orphan_payload_panics_witness :
  DgraphMapping schOrphan [typeDeleteAuthorPayload] = None.
Proof.
  apply (DgraphMapping_orphan_payload_panics schOrphan
           [typeDeleteAuthorPayload] typeDeleteAuthorPayload "Author").
  - left.
  - reflexivity.
  - reflexivity.
  - by vm_compute.
Defined.

(** X4. The fields a [Delete<X>Payload] type declares itself are not
    mapped: its keys come from the fields of [X] alone, so the key of a
    field name that [X] does not have, and that no other type writes, is
    absent from the map. *)
Theorem DgraphMapping_wrapper_own_fields_unmapped sch visit m W X T g :
  DgraphMapping sch visit = Some m →
  dName W = del +:+ X +:+ payload →
  Types sch !! X = Some T →
  (∀ fld, fld ∈ dFields T → fName fld ≠ g) →
  (∀ U, U ∈ visit → writes_key sch U (dName W +:+ g) → U = W) →
  m !! (dName W +:+ g) = None.
Proof.
  intros Hrun Hname HT Hnot Honly. unfold DgraphMapping in Hrun.
  destruct (DgraphMapping_range_other _ _ _ _ (dName W +:+ g) Hrun)
    as [->|(U & HU & Hw)]; [apply lookup_empty|].
  exfalso. pose proof (Honly U HU Hw) as ->.
  destruct Hw as (_ & T' & tn & fld & Hres & Hfld & Hk).
  rewrite (resolveTyp_delete_payload sch W X Hname), HT in Hres.
  injection Hres as <- <-.
  apply (inj (String.append (dName W))) in Hk. by apply (Hnot fld).
Qed.

Lemma DgraphMapping_wrapper_own_fields_unmapped_witness :
  ∃ m, DgraphMapping schAuthor visitAuthor = Some m ∧
    field "msg" tString ∈ dFields typeDeleteAuthorPayload ∧
    m !! "DeleteAuthorPayloadmsg" = None.
Proof.
  destruct schAuthor_mapping_entry as (m & Hm & _).
  exists m. split; [exact Hm|]. split; [left|].
  apply (DgraphMapping_wrapper_own_fields_unmapped schAuthor visitAuthor m
           typeDeleteAuthorPayload "Author" typeAuthor "msg" Hm).
  - reflexivity.
  - by vm_compute.
  - intros fld Hfld. simpl in Hfld. by each_elem Hfld.
  - intros U HU (Hskip & T & tn & fld & Hres & Hfld & Hk).
    rewrite visitAuthor_eq in HU. revert Hk.
    each_elem HU; try discriminate Hskip;
      vm_compute in Hres; injection Hres as <- <-; vm_compute in Hfld;
      each_elem Hfld; intros Hk; discriminate Hk.
Defined.

(** *** [genDgSchema]: composition and shape of the output *)

Lemma Join0_app l1 l2 : Join0 (l1 ++ l2) = Join0 l1 +:+ Join0 l2.
Proof.
  induction l1 as [|s l1 IH]; [done|].
  cbn [app]. unfold Join0 in *. cbn [fold_right]. by rewrite IH, append_assoc.
Qed.

Section GeneratorExtras.

Variable searchableDirective searchableArg : string.
Variable scalarToDgraph defaultSearchables : gmap string string.

Local Abbreviation genField :=
  (genField searchableDirective searchableArg scalarToDgraph defaultSearchables).
Local Abbreviation genFields :=
  (genFields searchableDirective searchableArg scalarToDgraph defaultSearchables).
Local Abbreviation genType :=
  (genType searchableDirective searchableArg scalarToDgraph defaultSearchables).
Local Abbreviation genDgSchema_blocks :=
  (genDgSchema_blocks searchableDirective searchableArg scalarToDgraph
     defaultSearchables).
Local Abbreviation genDgSchema :=
  (genDgSchema searchableDirective searchableArg scalarToDgraph
     defaultSearchables).

Lemma genDgSchema_blocks_app gqlSch defs1 defs2 :
  genDgSchema_blocks gqlSch (defs1 ++ defs2) =
  match genDgSchema_blocks gqlSch defs1, genDgSchema_blocks gqlSch defs2 with
  | Some blocks1, Some blocks2 => Some (blocks1 ++ blocks2)
  | _, _ => None
  end.
Proof.
  induction defs1 as [|key rest IH]; cbn [app]; simpl.
  { by destruct (Schema.genDgSchema_blocks _ _ _ _ _ _). }
  destruct (Types gqlSch !! key) as [def|]; [|done].
  destruct (dKind def); try apply IH;
    (destruct (genType gqlSch def); [|done]); rewrite IH;
    destruct (Schema.genDgSchema_blocks _ _ _ _ gqlSch rest);
    destruct (Schema.genDgSchema_blocks _ _ _ _ gqlSch defs2); done.
Qed.

(** X5. The predicate schema of a list of definitions is the text for its
    first part followed by the text for the rest, and it panics exactly
    when one of the parts does: no definition changes what is written for
    another. *)
Theorem genDgSchema_app gqlSch defs1 defs2 :
  genDgSchema gqlSch (defs1 ++ defs2) =
  match genDgSchema gqlSch defs1, genDgSchema gqlSch defs2 with
  | Some text1, Some text2 => Some (text1 +:+ text2)
  | _, _ => None
  end.
Proof.
  unfold Schema.genDgSchema. rewrite genDgSchema_blocks_app.
  destruct (Schema.genDgSchema_blocks _ _ _ _ gqlSch defs1) as [b1|]; [|done].
  destruct (Schema.genDgSchema_blocks _ _ _ _ gqlSch defs2) as [b2|]; [|done].
  simpl. by rewrite fmap_app, Join0_app.
Qed.

(** X6. Definitions that are not of Object or Interface kind (enums,
    scalars, unions, inputs) leave no trace: when every key is a type of
    the schema, dropping them from the list gives the same output. *)
Theorem genDgSchema_only_objects_and_interfaces gqlSch definitions :
  (∀ key, key ∈ definitions → is_Some (Types gqlSch !! key)) →
  genDgSchema gqlSch definitions =
  genDgSchema gqlSch (List.filter (isGenerated gqlSch) definitions).
Proof.
  intros Hkeys. unfold Schema.genDgSchema. f_equal.
  induction definitions as [|key rest IH]; [done|]. simpl.
  destruct (Hkeys key) as [def Hdef]; [left|].
  assert (genDgSchema_blocks gqlSch rest =
          genDgSchema_blocks gqlSch (List.filter (isGenerated gqlSch) rest))
    as IH' by (apply IH; intros; apply Hkeys; by right).
  unfold isGenerated at 1. rewrite Hdef.
  destruct (dKind def) eqn:HK; simpl; rewrite ?Hdef, ?HK; simpl;
    by rewrite ?IH'.
Qed.

(** The lines one field adds, and what they say. *)
Lemma genFields_shape gqlSch def fields typeDef preds typeDef' preds' :
  genFields gqlSch def fields typeDef preds = Some (typeDef', preds') →
  ∃ t p, typeDef' = typeDef ++ t ∧ preds' = preds ++ p ∧
    Forall isTypeFieldLine t ∧ Forall isPredLine p ∧
    (∀ n f ts ix, LPred n f ts ix ∈ p → LTypeField n f ts ∈ t) ∧
    (length p ≤ length t)%nat ∧ (length t ≤ length fields)%nat.
Proof.
  revert typeDef preds.
  induction fields as [|f rest IH]; intros typeDef preds; simpl.
  { intros [= <- <-]. exists [], []. rewrite !app_nil_r.
    repeat split; try done. intros ???? Hin. inversion Hin. }
  destruct (genField gqlSch def f) as [[t0 p0]|] eqn:Hf; [|done].
  intros Hrest.
  destruct (IH _ _ Hrest) as (t & p & -> & -> & Ht & Hp & Hsub & Hlen1 & Hlen2).
  exists (t0 ++ t), (p0 ++ p). rewrite !app_assoc.
  split; [done|]. split; [done|].
  apply genField_inv in Hf
    as [[-> ->]|(fdef & pi & _ & _ & _ & _ & -> & ->)]; simpl.
  - split; [done|]. split; [done|]. split; [done|]. lia.
  - destruct (String.eqb pi ""); simpl.
    + split; [by constructor|]. split; [by constructor|]. split; [|lia].
      intros n fn ts ix Hin. apply elem_of_cons in Hin as [[= -> -> -> _]|Hin];
        [left | right; eauto].
    + split; [by constructor|]. split; [done|]. split; [|lia].
      intros n fn ts ix Hin. right. eauto.
Qed.

(** X7. A type block is the line that opens the type, at most one field
    line per declared field, and the closing line; the declarations after
    it are no more than the field lines, and each declares a predicate that
    a field line of the same block names with the same storage type. *)
Theorem genType_block_shape gqlSch def typeDef preds :
  genType gqlSch def = Some (typeDef, preds) →
  ∃ body,
    typeDef = LTypeOpen (dName def) :: body ++ [LTypeClose] ∧
    Forall isTypeFieldLine body ∧ Forall isPredLine preds ∧
    (∀ n f ts ix, LPred n f ts ix ∈ preds → LTypeField n f ts ∈ body) ∧
    (length preds ≤ length body)%nat ∧
    (length body ≤ length (dFields def))%nat.
Proof.
  intros Hgen. apply genType_inv in Hgen as (typeDef0 & Hfields & ->).
  apply genFields_shape in Hfields
    as (t & p & -> & -> & Ht & Hp & Hsub & Hlen1 & Hlen2).
  exists t. done.
Qed.

Lemma append_empty_r s : s +:+ "" = s.
Proof. induction s as [|c s IH]; [done|]. by rewrite append_cons, IH. Qed.

(** X8. Every field line of a type block stems from a field of the
    definition whose type is not [ID] and is of Object, Scalar or Enum
    kind, so fields of type [ID] and fields of any other kind are named
    nowhere.  The storage type is [uid] for an Object and the entry of the
    scalar table for a Scalar, in brackets exactly when the field type is a
    list (whatever the nesting), and [string] for an Enum, list or not. *)
Theorem genType_field_lines_from_stored_fields gqlSch def typeDef preds n fn ts :
  genType gqlSch def = Some (typeDef, preds) →
  LTypeField n fn ts ∈ typeDef →
  ∃ fld fdef,
    fld ∈ dFields def ∧ fName fld = fn ∧ Type_Name (fType fld) ≠ "ID" ∧
    Types gqlSch !! Type_Name (fType fld) = Some fdef ∧
    ((dKind fdef = Object ∧
      ts = match Elem (fType fld) with Some _ => "[uid]" | None => "uid" end) ∨
     (dKind fdef = Scalar ∧
      ts = match Elem (fType fld) with
           | Some _ =>
               "[" +:+ tableGet scalarToDgraph (Type_Name (fType fld)) +:+ "]"
           | None => tableGet scalarToDgraph (Type_Name (fType fld))
           end) ∨
     (dKind fdef = Enum ∧ ts = "string")).
Proof.
  intros Hgen Hin. apply genType_inv in Hgen as (typeDef0 & Hfields & ->).
  apply elem_of_app in Hin as [Hin|Hin];
    [|by apply list_elem_of_singleton in Hin].
  destruct (genFields_origin _ _ _ _ _ _ _ _ _ _ _ Hfields) as [Horigin _].
  destruct (Horigin _ Hin) as [Hopen|(fld & t & p & Hfld & Hf & Hline)];
    [by apply list_elem_of_singleton in Hopen|].
  apply genField_inv in Hf
    as [[-> _]|(fdef & pi & HID & _ & Hfdef & HK & -> & _)];
    [inversion Hline|].
  apply list_elem_of_singleton in Hline. injection Hline as -> -> ->.
  exists fld, fdef. repeat (split; [done|]).
  unfold Schema.typStrOf.
  destruct HK as [HK|[HK|HK]]; rewrite HK; destruct (Elem (fType fld));
    rewrite ?append_nil, ?append_empty_r; tauto.
Qed.

(** Where a declaration of the output comes from. *)
Lemma declaredPreds_origin gqlSch definitions blocks n fn ts ix :
  genDgSchema_blocks gqlSch definitions = Some blocks →
  LPred n fn ts ix ∈ declaredPreds blocks →
  ∃ key def fld,
    key ∈ definitions ∧ Types gqlSch !! key = Some def ∧
    (dKind def = Object ∨ dKind def = Interface) ∧ n = dName def ∧
    fld ∈ dFields def ∧ fName fld = fn ∧ Type_Name (fType fld) ≠ "ID" ∧
    parentInterface gqlSch def fn = Some "".
Proof.
  revert blocks.
  induction definitions as [|k rest IH]; intros blocks; simpl.
  { intros [= <-] Hin. inversion Hin. }
  destruct (Types gqlSch !! k) as [d|] eqn:Hd; [|done].
  assert (∀ bs, Schema.genDgSchema_blocks searchableDirective searchableArg
                  scalarToDgraph defaultSearchables gqlSch rest = Some bs →
                LPred n fn ts ix ∈ declaredPreds bs →
                ∃ key def fld,
                  key ∈ k :: rest ∧ Types gqlSch !! key = Some def ∧
                  (dKind def = Object ∨ dKind def = Interface) ∧
                  n = dName def ∧ fld ∈ dFields def ∧ fName fld = fn ∧
                  Type_Name (fType fld) ≠ "ID" ∧
                  parentInterface gqlSch def fn = Some "") as Hrest.
  { intros bs Hbs Hin.
    destruct (IH bs Hbs Hin) as (key & def & fld & Hkey & Hrest).
    exists key, def, fld. split; [by right | done]. }
  assert (∀ b, dKind d = Object ∨ dKind d = Interface →
               genType gqlSch d = Some b → LPred n fn ts ix ∈ b.2 →
               ∃ key def fld,
                 key ∈ k :: rest ∧ Types gqlSch !! key = Some def ∧
                 (dKind def = Object ∨ dKind def = Interface) ∧
                 n = dName def ∧ fld ∈ dFields def ∧ fName fld = fn ∧
                 Type_Name (fType fld) ≠ "ID" ∧
                 parentInterface gqlSch def fn = Some "") as Hhere.
  { intros [td pr] HK Hb Hin. simpl in Hin.
    apply genType_inv in Hb as (td0 & Hfields & _).
    destruct (genFields_origin _ _ _ _ _ _ _ _ _ _ _ Hfields) as [_ Horigin].
    destruct (Horigin _ Hin) as [Hnil|(fld & t & p & Hfld & Hf & Hline)];
      [inversion Hnil|].
    destruct (genField_pred_inv _ _ _ _ _ _ _ _ _ _ Hf Hline)
      as (Hp & ts' & ix' & [= -> -> _ _]).
    exists k, d, fld. split; [left|]. repeat (split; [done|]). split; [|done].
    intros HID. rewrite genField_ID in Hf by done.
    injection Hf as <- <-. inversion Hline. }
  destruct (dKind d) eqn:HK; try (by apply Hrest);
    (destruct (genType gqlSch d) as [b|] eqn:Hb; [|done]);
    (destruct (Schema.genDgSchema_blocks _ _ _ _ _ _) as [bs|] eqn:Hbs; [|done]);
    intros [= <-]; rewrite declaredPreds_cons;
    intros Hin; apply elem_of_app in Hin as [Hin|Hin];
    try (by apply (Hrest bs)); apply (Hhere b); auto.
Qed.

(** X9. A standalone predicate declaration appears in the output only for
    a field of the definition it is named after: the definition is in the
    list and of Object or Interface kind, the field is its own (no
    interface it implements declares a field of that name) and is not of
    type [ID]. *)
Theorem genDgSchema_declarations_owned gqlSch definitions blocks n fn ts ix :
  Types gqlSch !! "" = None →
  genDgSchema_blocks gqlSch definitions = Some blocks →
  LPred n fn ts ix ∈ declaredPreds blocks →
  ∃ key def fld,
    key ∈ definitions ∧ Types gqlSch !! key = Some def ∧
    (dKind def = Object ∨ dKind def = Interface) ∧ n = dName def ∧
    fld ∈ dFields def ∧ fName fld = fn ∧ Type_Name (fType fld) ≠ "ID" ∧
    (∀ j, j ∈ dInterfaces def → ¬ declares gqlSch j fn).
Proof.
  intros Hempty Hblocks Hin.
  destruct (declaredPreds_origin _ _ _ _ _ _ _ Hblocks Hin)
    as (key & def & fld & ? & ? & ? & ? & ? & ? & ? & Hp).
  exists key, def, fld. repeat (split; [done|]).
  rewrite parentInterface_unfold in Hp.
  apply parentInterface_range_inv in Hp
    as [(pre & post & _ & _ & (dd & Hdd & _))|[_ Hno]]; [congruence|done].
Qed.

Lemma originalDefinitions_elem definitions name :
  name ∈ originalDefinitions definitions ↔
  ∃ defn, defn ∈ definitions ∧ dBuiltIn defn = false ∧ dName defn = name.
Proof.
  induction definitions as [|d rest IH]; simpl.
  { split; [intros H; inversion H | intros (? & H & _); inversion H]. }
  destruct (dBuiltIn d) eqn:Hb.
  - rewrite IH. split.
    + intros (defn & Hin & ?). exists defn. split; [by right | done].
    + intros (defn & Hin & Hnb & ?).
      apply elem_of_cons in Hin as [->|Hin]; [congruence | eauto].
  - rewrite elem_of_cons, IH. split.
    + intros [->|(defn & Hin & ?)]; [exists d; split; [left | done]|].
      exists defn. split; [by right | done].
    + intros (defn & Hin & Hnb & Hname).
      apply elem_of_cons in Hin as [->|Hin]; [by left | right; eauto].
Qed.

Section NewHandlerExtras.

Variable SchemaDocument : Type.
Variable Definitions : SchemaDocument → list Definition_.
Variable parser_ParseSchemas : string → SchemaDocument + string.
Variable preGQLValidation : SchemaDocument → option (list string).
Variable expandSchema : SchemaDocument → SchemaDocument.
Variable validator_ValidateSchemaDocument : SchemaDocument → Schema + string.
Variable postGQLValidation : Schema → list string → option (list string).
Variable completeSchema : Schema → list string → Schema.

Local Abbreviation NewHandler :=
  (NewHandler searchableDirective searchableArg scalarToDgraph
     defaultSearchables SchemaDocument Definitions parser_ParseSchemas
     preGQLValidation expandSchema validator_ValidateSchemaDocument
     postGQLValidation completeSchema).

(** X10. [NewHandler] never returns a handler for the empty input.  When it
    returns one, the original definitions are the names of the definitions
    of the parsed document that are not built in, recorded before the
    expansion, and the predicate schema is generated from them on the
    validated schema: with a validator that files each type under its name,
    every predicate it declares is in the namespace of a definition the
    user wrote, never of a type the expansion added. *)
Theorem NewHandler_declares_for_user_definitions input h :
  (∀ doc sch, validator_ValidateSchemaDocument doc = inl sch →
              names_agree sch) →
  NewHandler input = HandlerOk h →
  input ≠ "" ∧
  ∃ doc sch blocks,
    parser_ParseSchemas input = inl doc ∧
    validator_ValidateSchemaDocument (expandSchema doc) = inl sch ∧
    originalDefs h = originalDefinitions (Definitions doc) ∧
    genDgSchema_blocks sch (originalDefs h) = Some blocks ∧
    DGSchema h = Join0 (blockString <$> blocks) ∧
    ∀ n fn ts ix, LPred n fn ts ix ∈ declaredPreds blocks →
      ∃ defn, defn ∈ Definitions doc ∧ dBuiltIn defn = false ∧ dName defn = n.
Proof.
  intros Hvalid. unfold Schema.NewHandler.
  destruct (String.eqb_spec input "") as [->|Hne]; [done|].
  destruct (parser_ParseSchemas input) as [doc|]; [|done].
  destruct (preGQLValidation doc); [done|].
  destruct (validator_ValidateSchemaDocument (expandSchema doc))
    as [sch|] eqn:Hsch; [|done].
  destruct (postGQLValidation sch _); [done|].
  unfold Schema.genDgSchema.
  destruct (Schema.genDgSchema_blocks _ _ _ _ sch _) as [blocks|] eqn:Hblocks;
    [|done].
  simpl. intros [= <-]. split; [done|].
  exists doc, sch, blocks. simpl. repeat (split; [done|]).
  intros n fn ts ix Hin.
  destruct (declaredPreds_origin _ _ _ _ _ _ _ Hblocks Hin)
    as (key & def & fld & Hkey & Hdef & _ & -> & _).
  apply originalDefinitions_elem.
  by rewrite (Hvalid _ _ Hsch _ _ Hdef).
Qed.

End NewHandlerExtras.

End GeneratorExtras.

Lemma genDgSchema_only_objects_and_interfaces_witness :
  genDgSchema exDirective exArg exScalarToDgraph exDefaultSearchables
    schHuman ["String"; "Character"; "Int"; "Human"; "Droid"] =
  genDgSchema exDirective exArg exScalarToDgraph exDefaultSearchables
    schHuman defsHuman.
Proof.
  rewrite (genDgSchema_only_objects_and_interfaces exDirective exArg
             exScalarToDgraph exDefaultSearchables schHuman
             ["String"; "Character"; "Int"; "Human"; "Droid"]).
  - reflexivity.
  - intros key Hkey. each_elem Hkey; vm_compute; eauto.
Defined.

Lemma genType_block_shape_witness :
  ∃ body,
    [LTypeOpen "Human"; LTypeField "Character" "name" "string";
     LTypeField "Human" "totalCredits" "int";
     LTypeField "Human" "friends" "[uid]"; LTypeClose] =
      LTypeOpen (dName typeHuman) :: body ++ [LTypeClose] ∧
    Forall isTypeFieldLine body.
Proof.
  destruct (genType_block_shape exDirective exArg exScalarToDgraph
              exDefaultSearchables schHuman typeHuman
              [LTypeOpen "Human"; LTypeField "Character" "name" "string";
               LTypeField "Human" "totalCredits" "int";
               LTypeField "Human" "friends" "[uid]"; LTypeClose]
              [LPred "Human" "totalCredits" "int" "";
               LPred "Human" "friends" "[uid]" ""])
    as (body & Hbody & Hlines & _).
  - by vm_compute.
  - exists body. split; [exact Hbody | exact Hlines].
Defined.

Lemma genType_field_lines_from_stored_fields_witness :
  ∃ fld fdef,
    fld ∈ dFields typeHuman ∧ fName fld = "friends" ∧
    Type_Name (fType fld) ≠ "ID" ∧
    Types schHuman !! Type_Name (fType fld) = Some fdef.
Proof.
  destruct (genType_field_lines_from_stored_fields exDirective exArg
              exScalarToDgraph exDefaultSearchables schHuman typeHuman
              [LTypeOpen "Human"; LTypeField "Character" "name" "string";
               LTypeField "Human" "totalCredits" "int";
               LTypeField "Human" "friends" "[uid]"; LTypeClose]
              [LPred "Human" "totalCredits" "int" "";
               LPred "Human" "friends" "[uid]" ""]
              "Human" "friends" "[uid]")
    as (fld & fdef & Hfld & Hname & HID & Hfdef & _).
  - by vm_compute.
  - elem_by_position.
  - exists fld, fdef. repeat split; assumption.
Defined.

Lemma genDgSchema_declarations_owned_witness :
  ∃ key def fld,
    key ∈ defsHuman ∧ Types schHuman !! key = Some def ∧
    "Human" = dName def ∧ fld ∈ dFields def ∧ fName fld = "totalCredits".
Proof.
  destruct (genDgSchema_blocks exDirective exArg exScalarToDgraph
              exDefaultSearchables schHuman defsHuman) as [blocks|] eqn:Hblocks;
    [|by vm_compute in Hblocks].
  destruct (genDgSchema_declarations_owned exDirective exArg exScalarToDgraph
              exDefaultSearchables schHuman defsHuman blocks
              "Human" "totalCredits" "int" "")
    as (key & def & fld & Hkey & Hdef & _ & Hn & Hfld & Hfn & _).
  - by vm_compute.
  - exact Hblocks.
  - vm_compute in Hblocks. injection Hblocks as <-.
    unfold declaredPreds. simpl. elem_by_position.
  - exists key, def, fld. repeat split; assumption.
Defined.

Lemma NewHandler_declares_for_user_definitions_witness :
  ∃ h, exNewHandler exInput = HandlerOk h ∧
    originalDefs h = ["Character"; "Human"; "Droid"].
Proof.
  destruct (exNewHandler exInput) as [h| |] eqn:Hrun;
    [|by vm_compute in Hrun..].
  exists h. split; [reflexivity|].
  destruct (NewHandler_declares_for_user_definitions exDirective exArg
              exScalarToDgraph exDefaultSearchables
              (list Definition_) id exParse (λ _, None) id (λ _, inl schHuman)
              (λ _ _, None) (λ sch _, sch) exInput h)
    as (_ & doc & sch & blocks & Hdoc & _ & Hdefs & _).
  - intros doc sch [= <-]. exact schHuman_names_agree.
  - exact Hrun.
  - rewrite Hdefs. injection Hdoc as <-. reflexivity.
Defined.

End SchemaExtras.

(** ** More properties of package [alpha] *)

Module AlphaExtras.

Import GoStrings GoStringsFacts Alpha AlphaFacts.

(** Membership in a list that is written out: no element matches, the
    element is at some position, the element is a status. *)
Ltac no_elem :=
  let H := fresh "Helem" in
  intros H;
  repeat (apply elem_of_cons in H as [H|H]; [discriminate H|]);
  by apply elem_of_nil in H.

Ltac elem_by_last := repeat first [by left | right].

Ltac status_cases H :=
  repeat (apply elem_of_cons in H as [H|H];
          [first [discriminate H
                 | injection H as -> ->; split; [done | by eauto]]|]);
  by apply elem_of_nil in H.

(** *** [allowed] and [commonHandler] *)

(** X11. [commonHandler] lets a request through exactly when its method is
    POST or PUT.  OPTIONS is answered with the headers alone; every other
    method with status 400 and the invalid-method status.  The CORS headers
    and the JSON content type are set first in every case. *)
Theorem commonHandler_method_gate (Method : string) :
  let run := commonHandler Method in
  (run.1 = false ↔ Method = "POST" ∨ Method = "PUT") ∧
  (Method = "OPTIONS" → run.1 = true ∧ length run.2 = 2%nat) ∧
  (CevSetStatus ErrorInvalidMethod "Invalid method" ∈ run.2 ↔
   Method ≠ "OPTIONS" ∧ Method ≠ "POST" ∧ Method ≠ "PUT") ∧
  (CevWriteHeader 400 ∈ run.2 ↔
   Method ≠ "OPTIONS" ∧ Method ≠ "POST" ∧ Method ≠ "PUT") ∧
  take 2 run.2 =
    [CevAddCorsHeaders; CevHeaderSet "Content-Type" "application/json"].
Proof.
  unfold commonHandler, allowed.
  destruct (String.eqb_spec Method "OPTIONS") as [->|Ho]; simpl.
  { split; [split; [done | by intros [?|?]]|].
    split; [done|].
    split; [split; [no_elem | by intros (? & _)]|].
    split; [split; [no_elem | by intros (? & _)]|]. done. }
  destruct (String.eqb_spec Method "POST") as [->|Hp]; simpl.
  { split; [split; [by left | done]|].
    split; [done|].
    split; [split; [no_elem | by intros (_ & ? & _)]|].
    split; [split; [no_elem | by intros (_ & ? & _)]|]. done. }
  destruct (String.eqb_spec Method "PUT") as [->|Hu]; simpl.
  { split; [split; [by right | done]|].
    split; [done|].
    split; [split; [no_elem | by intros (_ & _ & ?)]|].
    split; [split; [no_elem | by intros (_ & _ & ?)]|]. done. }
  split; [split; [done | by intros [?|?]]|].
  split; [done|].
  split; [split; [done | intros _; do 3 right; by left]|].
  split; [split; [done | intros _; do 2 right; by left]|]. done.
Qed.

Lemma commonHandler_method_gate_witness :
  (commonHandler "OPTIONS").1 = true ∧ length (commonHandler "OPTIONS").2 = 2%nat.
Proof.
  apply (commonHandler_method_gate "OPTIONS"). reflexivity.
Defined.

(** *** [strings.Contains] and [writeResponse] *)

Lemma HasPrefix_split s p :
  HasPrefix s p = true → s = p +:+ drop_bytes (String.length p) s.
Proof.
  revert s. induction p as [|c p IH]; intros s; [by destruct s|].
  destruct s as [|a s]; [done|]. simpl.
  destruct (Ascii.eqb_spec a c) as [->|]; [|done].
  intros Hp. rewrite append_cons. f_equal. by apply IH.
Qed.

Lemma Contains_unfold s substr :
  Contains s substr =
  if HasPrefix s substr then true
  else match s with
       | EmptyString => false
       | String _ s' => Contains s' substr
       end.
Proof. by destruct s. Qed.

(** [strings.Contains] holds exactly of the strings with [substr] inside. *)
Lemma Contains_spec s substr :
  Contains s substr = true ↔ ∃ pre post, s = pre +:+ substr +:+ post.
Proof.
  split.
  - induction s as [|c s IH]; rewrite Contains_unfold.
    + destruct (HasPrefix "" substr) eqn:Hp; [|done].
      intros _. exists "", (drop_bytes (String.length substr) "").
      by apply HasPrefix_split.
    + destruct (HasPrefix (String c s) substr) eqn:Hp.
      * intros _. exists "", (drop_bytes (String.length substr) (String c s)).
        by apply HasPrefix_split.
      * intros (pre & post & ->)%IH. exists (String c pre), post.
        by rewrite append_cons.
  - intros (pre & post & ->). induction pre as [|c pre IH].
    + rewrite append_nil, Contains_unfold. by rewrite HasPrefix_append.
    + rewrite append_cons, Contains_unfold. rewrite IH.
      by destruct (HasPrefix _ _).
Qed.

(** X12. [writeResponse] compresses exactly when the first value of the
    [Accept-Encoding] header of the request has [gzip] somewhere inside it:
    then the response gets the header [Content-Encoding: gzip] and the
    compressed bytes; otherwise the header is left as it was and the bytes
    are written as they are.  No other header of the response changes. *)
Theorem writeResponse_compresses_iff_gzip_inside
    (gzip_compress : string → string) (w : ResponseWriter)
    (Header : gmap string (list string)) (b : string) :
  let accept := Values_Get Header "Accept-Encoding" in
  let w' := writeResponse gzip_compress w Header b in
  ((∃ pre post, accept = pre +:+ "gzip" +:+ post) →
   wHeader w' !! "Content-Encoding" = Some ["gzip"] ∧
   wBody w' = wBody w +:+ gzip_compress b) ∧
  ((¬ ∃ pre post, accept = pre +:+ "gzip" +:+ post) →
   wHeader w' = wHeader w ∧ wBody w' = wBody w +:+ b) ∧
  (∀ key, key ≠ "Content-Encoding" → wHeader w' !! key = wHeader w !! key).
Proof.
  intros accept w'. subst w'. unfold writeResponse. fold accept.
  destruct (Contains accept "gzip") eqn:Hc.
  - split; [|split].
    + intros _. simpl. by rewrite lookup_insert_eq.
    + intros Hno. destruct Hno. by apply Contains_spec.
    + intros key Hkey. simpl. by rewrite lookup_insert_ne.
  - split; [|split]; [|done..].
    intros Hin%Contains_spec. congruence.
Qed.

(** A client that lists gzip with quality zero gets gzip all the same. *)
Lemma writeResponse_compresses_iff_gzip_inside_witness :
  let w' := writeResponse exCompress exWriter
              (<["Accept-Encoding" := ["gzip;q=0, identity"]]> ∅) "{}" in
  wHeader w' !! "Content-Encoding" = Some ["gzip"] ∧ wBody w' = "gz:{}".
Proof.
  apply (proj1 (writeResponse_compresses_iff_gzip_inside exCompress exWriter
                  (<["Accept-Encoding" := ["gzip;q=0, identity"]]> ∅) "{}")).
  by exists "", ";q=0, identity".
Defined.

(** X13. What [writeResponse] writes to a fresh response, [readRequest]
    reads back: whatever the request accepts, the header [writeResponse]
    sets and the bytes it writes give the original bytes again, with no
    error status, when the decompressor undoes the compressor. *)
Theorem writeResponse_readRequest_round_trip
    (gzip_compress : string → string) (gzip_NewReader : string → option string)
    (w : ResponseWriter) (Header : gmap string (list string)) (b : string) :
  (∀ bytes, gzip_NewReader (gzip_compress bytes) = Some bytes) →
  wBody w = "" →
  wHeader w !! "Content-Encoding" = None →
  let w' := writeResponse gzip_compress w Header b in
  let run := readRequest string inl gzip_NewReader (wHeader w') (wBody w') in
  run.1 = Some b ∧ ∀ code msg, EvSetStatus code msg ∉ run.2.
Proof.
  intros Hgz Hbody Hhdr w' run. subst run w'. unfold writeResponse.
  destruct (Contains _ "gzip"); simpl; rewrite Hbody, append_nil.
  - unfold readRequest, Values_Get. rewrite lookup_insert_eq. simpl.
    rewrite Hgz. simpl. split; [done|]. intros code msg. no_elem.
  - unfold readRequest. rewrite (Values_Get_absent _ _ Hhdr). simpl.
    split; [done|]. intros code msg. no_elem.
Qed.

Lemma writeResponse_readRequest_round_trip_witness :
  let w' := writeResponse exCompress exWriter exAcceptGzip "{}" in
  (readRequest string inl exDecompress (wHeader w') (wBody w')).1 = Some "{}".
Proof.
  apply (writeResponse_readRequest_round_trip exCompress exDecompress
           exWriter exAcceptGzip "{}").
  - intros bytes. unfold exCompress, exDecompress.
    rewrite HasPrefix_append. reflexivity.
  - reflexivity.
  - reflexivity.
Defined.

(** *** [readRequest] *)

(** X14. [readRequest] returns nil exactly when it has written an error
    status to the response; it writes at most one, as its last action, with
    the code [Error] or [ErrorInvalidRequest].  So a caller that stops on
    nil leaves a response that carries the reason. *)
Theorem readRequest_nil_iff_status_written (Reader : Type)
    (ioutil_ReadAll : Reader → string + string)
    (gzip_NewReader : Reader → option Reader)
    (Header : gmap string (list string)) (Body : Reader) :
  let run := readRequest Reader ioutil_ReadAll gzip_NewReader Header Body in
  (run.1 = None ↔ ∃ code msg, EvSetStatus code msg ∈ run.2) ∧
  (∀ code msg, EvSetStatus code msg ∈ run.2 →
     last run.2 = Some (EvSetStatus code msg) ∧
     (code = Error ∨ code = ErrorInvalidRequest)).
Proof.
  intros run. subst run. unfold readRequest.
  destruct (_ && _); [destruct (String.eqb _ "gzip")|];
    repeat match goal with
      | |- context [ioutil_ReadAll ?r] => destruct (ioutil_ReadAll r)
      | |- context [gzip_NewReader ?r] => destruct (gzip_NewReader r)
      end; simpl;
    (split; [split; [try done; intros _; eexists _, _; elem_by_last
                    | try done; intros (code & msg & H); exfalso; revert H; no_elem]
            | intros code msg H; status_cases H]).
Qed.

Lemma readRequest_nil_iff_status_written_witness :
  (readRequest string inl (λ _, None) (<["Content-Encoding" := ["gzip"]]> ∅)
     "body").1 = None.
Proof.
  apply (readRequest_nil_iff_status_written string inl (λ _, None)
           (<["Content-Encoding" := ["gzip"]]> ∅) "body").
  exists Error, "Unable to create decompressor". vm_compute. right. left.
Defined.

(** *** [queryHandler]: the flags of the request *)

(** X15. Every request [queryHandler] sends to the engine carries the
    query and the start timestamp it was given, never asks to commit, and
    is read-only whenever it is best-effort.  With a start timestamp that is
    not zero the parameters [be] and [ro] are not read at all: the request
    is sent with both flags off, even when their values are malformed. *)
Theorem queryHandler_request_best_effort_is_read_only
    (URLQuery : gmap string (list string)) (paramsQuery : string) (startTs : Z) :
  (∀ req, queryHandler_request URLQuery paramsQuery startTs = inr req →
     Request.Query req = paramsQuery ∧ Request.StartTs req = startTs ∧
     Request.CommitNow req = false ∧
     (Request.BestEffort req = true → Request.ReadOnly req = true)) ∧
  (startTs ≠ 0 →
   queryHandler_request URLQuery paramsQuery startTs =
     inr {| Request.Query := paramsQuery; Request.StartTs := startTs;
            Request.ReadOnly := false; Request.BestEffort := false;
            Request.CommitNow := false |}) ∧
  (startTs = 0 →
   (∃ req, queryHandler_request URLQuery paramsQuery startTs = inr req) ↔
   (∃ isBestEffort, parseBool URLQuery "be" = inl isBestEffort) ∧
   (∃ isReadOnly, parseBool URLQuery "ro" = inl isReadOnly)).
Proof.
  unfold queryHandler_request. simpl. split; [|split].
  - intros req. destruct (startTs =? 0).
    + destruct (parseBool URLQuery "be") as [[]|]; [| |done];
        (destruct (parseBool URLQuery "ro") as [[]|]; [| |done]);
        by intros [= <-].
    + by intros [= <-].
  - intros Hnz. by apply Z.eqb_neq in Hnz as ->.
  - intros ->. simpl.
    destruct (parseBool URLQuery "be") as [be|err].
    + destruct (parseBool URLQuery "ro") as [ro|err].
      * split; [intros _; eauto | intros _; eauto].
      * split; [by intros [req ?] | by intros [_ [ro ?]]].
    + split; [by intros [req ?] | by intros [[be ?] _]].
Qed.

(** With [startTs=7] a malformed [be] goes unnoticed. *)
Lemma queryHandler_request_best_effort_is_read_only_witness :
  queryHandler_request (<["be" := ["maybe"]]> ∅) "{ q(func: uid(1)) { uid } }" 7 =
    inr {| Request.Query := "{ q(func: uid(1)) { uid } }"; Request.StartTs := 7;
           Request.ReadOnly := false; Request.BestEffort := false;
           Request.CommitNow := false |}.
Proof.
  apply (queryHandler_request_best_effort_is_read_only
           (<["be" := ["maybe"]]> ∅) "{ q(func: uid(1)) { uid } }" 7).
  discriminate.
Defined.

(** *** [commitHandler] *)



(** *** [handleCommit] *)

(** X17. [handleCommit] takes the keys from a body that decodes as a list
    of strings, whatever it would decode to as a map, and then sends no
    predicates; otherwise it takes the keys and the predicates of the body
    decoded as a map, an absent one as empty.  The engine is asked to commit
    the start timestamp, not to abort.  The response carries the start
    timestamp, the commit timestamp of the engine and the predicates sent,
    never the keys, with the success envelope as data.  An error is that of
    decoding the body as a map, when it is no list either, or that of the
    engine, returned as it is. *)
Theorem handleCommit_response
    (json_Unmarshal_list : string → option (list string))
    (json_Unmarshal_map : string → gmap string (list string) + error)
    (CommitOverNetwork : TxnContext.t → Z * option error)
    (startTs : Z) (reqText : string) :
  let run := handleCommit json_Unmarshal_list json_Unmarshal_map
               CommitOverNetwork startTs reqText in
  let sent keys preds :=
    {| TxnContext.StartTs := startTs; TxnContext.CommitTs := 0;
       TxnContext.Aborted := false; TxnContext.Keys := keys;
       TxnContext.Preds := preds |} in
  let decoded keys preds :=
    (json_Unmarshal_list reqText = Some keys ∧ preds = []) ∨
    (json_Unmarshal_list reqText = None ∧
     ∃ reqMap, json_Unmarshal_map reqText = inl reqMap ∧
       keys = mapGet reqMap "keys" ∧ preds = mapGet reqMap "preds") in
  (∀ response, run = inl response →
     ∃ keys preds cts, decoded keys preds ∧
       CommitOverNetwork (sent keys preds) = (cts, None) ∧
       crTxn response =
         {| TxnContext.StartTs := startTs; TxnContext.CommitTs := cts;
            TxnContext.Aborted := false; TxnContext.Keys := [];
            TxnContext.Preds := preds |} ∧
       crData response = successEnvelope) ∧
  (∀ err, run = inr err →
     (json_Unmarshal_list reqText = None ∧ json_Unmarshal_map reqText = inr err) ∨
     (∃ keys preds cts, decoded keys preds ∧
        CommitOverNetwork (sent keys preds) = (cts, Some err))).
Proof.
  intros run sent decoded. subst run. unfold handleCommit.
  destruct (json_Unmarshal_list reqText) as [reqList|] eqn:Hlist.
  - fold (sent reqList []).
    destruct (CommitOverNetwork (sent reqList [])) as [cts [err|]] eqn:Hcommit.
    + split; [done|]. intros ? [= <-]. right.
      exists reqList, [], cts. split; [by left | done].
    + split; [|done]. intros ? [= <-].
      exists reqList, [], cts. split; [by left | done].
  - destruct (json_Unmarshal_map reqText) as [reqMap|errMap] eqn:Hmap.
    + fold (sent (mapGet reqMap "keys") (mapGet reqMap "preds")).
      destruct (CommitOverNetwork _) as [cts [err|]] eqn:Hcommit.
      * split; [done|]. intros ? [= <-]. right.
        exists (mapGet reqMap "keys"), (mapGet reqMap "preds"), cts.
        split; [right; eauto | done].
      * split; [|done]. intros ? [= <-].
        exists (mapGet reqMap "keys"), (mapGet reqMap "preds"), cts.
        split; [right; eauto | done].
    + split; [done|]. intros ? [= <-]. by left.
Qed.

Lemma handleCommit_response_witness :
  ∃ response,
    handleCommit exUnmarshalList (λ _, inr (errorString "not a map"))
      exCommitEngine 5 "[]" = inl response ∧
    TxnContext.Keys (crTxn response) = [] ∧
    TxnContext.CommitTs (crTxn response) = 42.
Proof.
  destruct (handleCommit exUnmarshalList (λ _, inr (errorString "not a map"))
              exCommitEngine 5 "[]") as [response|err] eqn:Hrun;
    [|discriminate Hrun].
  exists response. split; [reflexivity|].
  destruct (proj1 (handleCommit_response exUnmarshalList
                     (λ _, inr (errorString "not a map")) exCommitEngine 5 "[]")
              response Hrun)
    as (keys & preds & cts & _ & Hcommit & -> & _).
  injection Hcommit as <-. split; reflexivity.
Defined.

(** *** [convertJSONError] and the JSON body of a mutation *)

(** [convertJSONError] answers an error with an error. *)
Lemma convertJSONError_Some input e :
  ∃ e', convertJSONError input (Some e) = Some e'.
Proof.
  unfold convertJSONError.
  destruct e; eauto;
    destruct (jsonLineAndChar input Offset) as [[line character] [lcErr|]];
    eauto.
Qed.

(** X18. [convertJSONError] returns nil for nil only.  An error that is
    neither a syntax error nor a type error of the JSON decoder is returned
    as it is, and so is one of these two whose offset is negative or past
    the end of the input. *)
Theorem convertJSONError_keeps_unlocated_errors (input : string)
    (err : option error) :
  (convertJSONError input err = None ↔ err = None) ∧
  (∀ e, err = Some e →
     (∀ msg Offset,
        e = json_SyntaxError msg Offset ∨ e = json_UnmarshalTypeError msg Offset →
        Offset < 0 ∨ Z.of_nat (String.length input) < Offset) →
     convertJSONError input err = Some e).
Proof.
  split.
  - split; [|by intros ->].
    destruct err as [e|]; [|done].
    by destruct (convertJSONError_Some input e) as [e' ->].
  - intros e -> Hout. unfold convertJSONError, jsonLineAndChar.
    destruct e as [|msg Offset|msg Offset| | |]; try done.
    + assert ((Z.of_nat (String.length input) <? Offset) || (Offset <? 0) = true)
        as -> by (destruct (Hout msg Offset); [by left|lia..]).
      done.
    + assert ((Z.of_nat (String.length input) <? Offset) || (Offset <? 0) = true)
        as -> by (destruct (Hout msg Offset); [by right|lia..]).
      done.
Qed.

Lemma convertJSONError_keeps_unlocated_errors_witness :
  convertJSONError badBody (Some (json_SyntaxError "unexpected end" 40)) =
    Some (json_SyntaxError "unexpected end" 40).
Proof.
  apply (convertJSONError_keeps_unlocated_errors badBody
           (Some (json_SyntaxError "unexpected end" 40))); [reflexivity|].
  intros msg Offset [[= _ <-]|[=]]. right. vm_compute. reflexivity.
Defined.

(** How [mutationFromMap] ends, by what the map holds under [query] and
    [cond]. *)
Lemma mutationFromMap_outcome (strconv_Unquote : string → string + error)
    (ms : gmap string (option string)) :
  let run := mutationFromMap strconv_Unquote ms in
  let unquotes key :=
    ∀ text, msGet ms key = Some text → ∃ s, strconv_Unquote text = inl s in
  run ≠ Panic ∧
  (∀ ev, run = Failed ev → ∃ err, ev = EvSetStatusErr ErrorInvalidRequest err) ∧
  ((∃ result, run = Done result) ↔ unquotes "query" ∧ unquotes "cond").
Proof.
  intros run unquotes. subst run unquotes. unfold mutationFromMap.
  destruct (msGet ms "query") as [queryText|].
  - destruct (strconv_Unquote queryText) as [query|errq] eqn:Hq.
    + destruct (msGet ms "cond") as [condText|].
      * destruct (strconv_Unquote condText) as [cond|errc] eqn:Hc.
        -- split; [done|]. split; [done|]. split; [|eauto].
           intros _. split; intros text [= <-]; eauto.
        -- split; [done|]. split; [intros ev [= <-]; eauto|].
           split; [by intros [? ?]|]. intros [_ Hcond].
           destruct (Hcond _ eq_refl) as [? ?]. congruence.
      * split; [done|]. split; [done|]. split; [|eauto].
        intros _. split; [intros text [= <-]; eauto | done].
    + split; [done|]. split; [intros ev [= <-]; eauto|].
      split; [by intros [? ?]|]. intros [Hquery _].
      destruct (Hquery _ eq_refl) as [? ?]. congruence.
  - destruct (msGet ms "cond") as [condText|].
    + destruct (strconv_Unquote condText) as [cond|errc] eqn:Hc.
      * split; [done|]. split; [done|]. split; [|eauto].
        intros _. split; [done | intros text [= <-]; eauto].
      * split; [done|]. split; [intros ev [= <-]; eauto|].
        split; [by intros [? ?]|]. intros [_ Hcond].
        destruct (Hcond _ eq_refl) as [? ?]. congruence.
    + split; [done|]. split; [done|]. split; [|eauto].
      intros _. by split.
Qed.

(** X19. Decoding the JSON body of a mutation never panics: the error of
    the decoder always reaches the response, as an invalid-request status,
    and so does the error of unquoting the query or the condition.  The
    decoding succeeds exactly when the body decodes to a map in which both
    [query] and [cond], where present and not null, unquote; what is under
    [set] and [delete] is taken as it is. *)
Theorem decodeMutationJSON_never_panics
    (json_Unmarshal_ms : string → gmap string (option string) + error)
    (strconv_Unquote : string → string + error) (body : string) :
  let run := decodeMutationJSON json_Unmarshal_ms strconv_Unquote body in
  let unquotes ms key :=
    ∀ text, msGet ms key = Some text → ∃ s, strconv_Unquote text = inl s in
  run ≠ Panic ∧
  (∀ ev, run = Failed ev → ∃ err, ev = EvSetStatusErr ErrorInvalidRequest err) ∧
  ((∃ result, run = Done result) ↔
   ∃ ms, json_Unmarshal_ms body = inl ms ∧
     unquotes ms "query" ∧ unquotes ms "cond") ∧
  (∀ query mu, run = Done (query, mu) →
     ∃ ms, json_Unmarshal_ms body = inl ms ∧
       Mutation.SetJson mu = msGet ms "set" ∧
       Mutation.DeleteJson mu = msGet ms "delete").
Proof.
  intros run unquotes. subst run unquotes. unfold decodeMutationJSON.
  destruct (json_Unmarshal_ms body) as [ms|err].
  - destruct (mutationFromMap_outcome strconv_Unquote ms)
      as (Hpanic & Hfailed & Hdone).
    split; [done|]. split; [done|]. split.
    + rewrite Hdone. split; [intros ?; by exists ms|].
      by intros (ms' & [= <-] & ?).
    + intros query mu Hrun. exists ms. split; [done|].
      unfold mutationFromMap in Hrun.
      destruct (msGet ms "query") as [queryText|];
        [destruct (strconv_Unquote queryText); [|done]|];
        (destruct (msGet ms "cond") as [condText|];
         [destruct (strconv_Unquote condText); [|done]|]);
        by injection Hrun as <- <-.
  - destruct (convertJSONError_Some body err) as [jsonErr ->].
    split; [done|]. split; [intros ev [= <-]; eauto|].
    split; [split; [by intros [? ?] | by intros (ms & ? & _)]|].
    done.
Qed.

Lemma decodeMutationJSON_never_panics_witness :
  ∃ result, decodeMutationJSON exUnmarshalMs inl "{}" = Done result.
Proof.
  apply (decodeMutationJSON_never_panics exUnmarshalMs inl "{}").
  eexists. split; [reflexivity|].
  split; intros text Hget; vm_compute in Hget; discriminate Hget.
Defined.

(** X20. The mutation read from the decoded body depends on the keys
    [set], [delete], [query] and [cond] alone, and takes a null for an
    absent key: adding any other key, or a null under any key that is
    absent, changes nothing. *)
Theorem mutationFromMap_ignores_other_keys
    (strconv_Unquote : string → string + error)
    (ms : gmap string (option string)) (key : string) (value : option string) :
  (key ∉ ["set"; "delete"; "query"; "cond"] ∨ (ms !! key = None ∧ value = None)) →
  mutationFromMap strconv_Unquote (<[key := value]> ms) =
  mutationFromMap strconv_Unquote ms.
Proof.
  intros Hkey.
  assert (∀ k, k ∈ ["set"; "delete"; "query"; "cond"] →
               msGet (<[key := value]> ms) k = msGet ms k) as Hget.
  { intros k Hk. unfold msGet.
    destruct (decide (key = k)) as [->|Hne].
    - destruct Hkey as [Hout|[Hnone ->]]; [done|].
      by rewrite lookup_insert_eq, Hnone.
    - by rewrite lookup_insert_ne. }
  unfold mutationFromMap.
  rewrite !Hget; [done|repeat first [by left | right]..].
Qed.

Lemma mutationFromMap_ignores_other_keys_witness :
  mutationFromMap inl (<["upsert" := Some "true"]> (<["set" := Some "[]"]> ∅)) =
  mutationFromMap inl (<["set" := Some "[]"]> ∅).
Proof.
  apply (mutationFromMap_ignores_other_keys inl (<["set" := Some "[]"]> ∅)
           "upsert" (Some "true")).
  left. apply not_elem_of_cons; split; [discriminate|].
  apply not_elem_of_cons; split; [discriminate|].
  apply not_elem_of_cons; split; [discriminate|].
  apply not_elem_of_cons; split; [discriminate|]. apply not_elem_of_nil.
Defined.

(** *** [jsonLineAndChar] on the bytes of the input *)

Lemma length_bytesZ s : length (bytesZ s) = String.length s.
Proof. induction s as [|c s IH]; [done|]. simpl. by rewrite IH. Qed.

(** On one-byte runes the loop scans the bytes up to and with the one at
    [offset]. *)
Lemma scanned_ascii s i offset :
  isASCII s = true → i ≤ offset →
  (scanned (range_string_go s i 0) offset).*2 =
    take (Z.to_nat (offset - i) + 1) (bytesZ s).
Proof.
  revert i. induction s as [|c s IH]; intros i Hascii Hi.
  { simpl. by rewrite take_nil. }
  unfold isASCII in Hascii. simpl in Hascii.
  apply andb_true_iff in Hascii as [Hc Hs].
  cbn [range_string_go]. unfold DecodeRuneInString. rewrite Hc.
  cbn [scanned fmap list_fmap snd bytesZ].
  destruct (Z.eqb_spec i offset) as [->|Hne].
  - by rewrite Z.sub_diag.
  - replace (Z.to_nat (offset - i) + 1)%nat
      with (S (Z.to_nat (offset - (i + 1)) + 1)) by lia.
    cbn [take]. f_equal. apply IH; [done | lia].
Qed.

Lemma existsb_isLF_countLF runes :
  countLF runes = 0 → existsb isLF runes = false.
Proof.
  unfold countLF. induction runes as [|b runes IH]; [done|]. simpl.
  destruct (isLF b); simpl; [lia|]. exact IH.
Qed.

Lemma countLF_take n runes : countLF runes = 0 → countLF (take n runes) = 0.
Proof.
  unfold countLF. revert n. induction runes as [|b runes IH]; intros n.
  - by rewrite take_nil.
  - destruct n as [|n]; [done|]. simpl.
    destruct (isLF b); simpl; [lia|]. apply IH.
Qed.

Lemma lastLine_one_line runes : countLF runes = 0 → lastLine runes = runes.
Proof.
  destruct runes as [|b runes]; [done|]. unfold countLF. simpl.
  destruct (isLF b) eqn:Hb; simpl; [lia|].
  intros Hrest. by rewrite (existsb_isLF_countLF runes Hrest).
Qed.

(** X21. On an input of one-byte characters and an offset within it,
    [jsonLineAndChar] scans the bytes up to and with the one at the offset:
    the line is 1 plus the number of line feeds among them, the character
    the number of bytes from the last of these line feeds on.  On an input
    of one line the character is the offset plus one, but the length of the
    input for the offset at its end: the last byte and the end of the input
    are reported as the same position. *)
Theorem jsonLineAndChar_ascii (input : string) (offset : Z) :
  isASCII input = true →
  0 ≤ offset ≤ Z.of_nat (String.length input) →
  let scannedBytes := take (Z.to_nat offset + 1) (bytesZ input) in
  jsonLineAndChar input offset =
    (1 + countLF scannedBytes, Z.of_nat (length (lastLine scannedBytes)), None) ∧
  (countLF (bytesZ input) = 0 →
   jsonLineAndChar input offset =
     (1, Z.min (offset + 1) (Z.of_nat (String.length input)), None)).
Proof.
  intros Hascii Hoffset scannedBytes.
  assert (jsonLineAndChar input offset =
          (1 + countLF scannedBytes,
           Z.of_nat (length (lastLine scannedBytes)), None)) as Hrun.
  { unfold jsonLineAndChar.
    assert ((Z.of_nat (String.length input) <? offset) || (offset <? 0) = false)
      as -> by lia.
    pose proof (jsonLineAndChar_range_spec (range_string input) offset []) as H.
    change (jsonLineAndChar_range (range_string input) offset 1 0 =
            (1 + countLF ((scanned (range_string input) offset).*2),
             Z.of_nat (length (lastLine
                                 ((scanned (range_string input) offset).*2)))))
      in H.
    rewrite H. unfold range_string.
    rewrite (scanned_ascii input 0 offset Hascii) by lia.
    by rewrite Z.sub_0_r. }
  split; [exact Hrun|].
  intros Hone. rewrite Hrun. subst scannedBytes.
  rewrite (countLF_take _ _ Hone).
  rewrite (lastLine_one_line _ (countLF_take _ _ Hone)).
  rewrite length_take, length_bytesZ. do 2 f_equal. lia.
Qed.

(** In [{ "a": x }] the [x] is the eighth byte; the offset 8, that of the
    byte after it, is cited as character 9.  At the end of [badBody] the
    offsets 10 and 11 are cited as the same character. *)
Lemma jsonLineAndChar_ascii_witness :
  jsonLineAndChar ("{ " +:+ dquote +:+ "a" +:+ dquote +:+ ": x }") 8 =
    (1, 9, None) ∧
  jsonLineAndChar badBody 10 = jsonLineAndChar badBody 11.
Proof.
  split.
  - apply (jsonLineAndChar_ascii
             ("{ " +:+ dquote +:+ "a" +:+ dquote +:+ ": x }") 8);
      [reflexivity | vm_compute; split; discriminate | reflexivity].
  - rewrite (proj2 (jsonLineAndChar_ascii badBody 10 eq_refl
                      ltac:(vm_compute; split; discriminate)) eq_refl).
    rewrite (proj2 (jsonLineAndChar_ascii badBody 11 eq_refl
                      ltac:(vm_compute; split; discriminate)) eq_refl).
    reflexivity.
Defined.

(** *** [jsonLineAndChar] on an offset where no character starts *)

Lemma range_string_go_index s i skip p :
  p ∈ range_string_go s i skip → i ≤ p.1 < i + Z.of_nat (String.length s).
Proof.
  revert i skip. induction s as [|c s IH]; intros i skip.
  { intros H. by apply elem_of_nil in H. }
  cbn [range_string_go]. destruct skip as [|skip].
  - destruct (DecodeRuneInString (String c s)) as [b width].
    intros [->|H%IH]%elem_of_cons; simpl String.length in *; simpl; lia.
  - intros H%IH. simpl String.length. lia.
Qed.

Lemma scanned_no_start pairs offset :
  (∀ p, p ∈ pairs → p.1 ≠ offset) → scanned pairs offset = pairs.
Proof.
  induction pairs as [|[i b] rest IH]; intros Hno; [done|]. simpl.
  destruct (Z.eqb_spec i offset) as [Heq|_].
  - destruct (Hno (i, b)); [by left | done].
  - f_equal. apply IH. intros p Hp. apply Hno. by right.
Qed.

(** X22. For an offset within the input at which no character starts, one
    inside a character of several bytes, [jsonLineAndChar] returns no error
    and the position of the end of the input: the loop never stops early.
    The length of the input is such an offset. *)
Theorem jsonLineAndChar_no_start_gives_end (input : string) (offset : Z) :
  0 ≤ offset ≤ Z.of_nat (String.length input) →
  (∀ b, (offset, b) ∉ range_string input) →
  let runes := (range_string input).*2 in
  jsonLineAndChar input offset =
    (1 + countLF runes, Z.of_nat (length (lastLine runes)), None) ∧
  jsonLineAndChar input offset =
    jsonLineAndChar input (Z.of_nat (String.length input)).
Proof.
  intros Hoffset Hno runes.
  assert (∀ off, 0 ≤ off ≤ Z.of_nat (String.length input) →
            (∀ b, (off, b) ∉ range_string input) →
            jsonLineAndChar input off =
              (1 + countLF runes, Z.of_nat (length (lastLine runes)), None))
    as Hend.
  { intros off Hoff Hnone. unfold jsonLineAndChar.
    assert ((Z.of_nat (String.length input) <? off) || (off <? 0) = false)
      as -> by lia.
    pose proof (jsonLineAndChar_range_spec (range_string input) off []) as H.
    change (jsonLineAndChar_range (range_string input) off 1 0 =
            (1 + countLF ((scanned (range_string input) off).*2),
             Z.of_nat (length (lastLine
                                 ((scanned (range_string input) off).*2)))))
      in H.
    rewrite H, scanned_no_start; [done|].
    intros [i b] Hp Heq. simpl in Heq. subst i. by apply (Hnone b). }
  split; [by apply Hend|].
  rewrite (Hend offset Hoffset Hno). symmetry. apply Hend; [lia|].
  intros b Hin. apply range_string_go_index in Hin. simpl in Hin. lia.
Qed.

(** The offset 1 is inside the two bytes of [é]. *)
Lemma jsonLineAndChar_no_start_gives_end_witness :
  let e_acute := String (ascii_of_nat 195) (String (ascii_of_nat 169) "") in
  jsonLineAndChar (e_acute +:+ "}}") 1 = jsonLineAndChar (e_acute +:+ "}}") 4.
Proof.
  intros e_acute.
  apply (jsonLineAndChar_no_start_gives_end (e_acute +:+ "}}") 1).
  - vm_compute. split; discriminate.
  - intros b. vm_compute. no_elem.
Defined.

(** *** [mutationHandler]: what the response does not depend on *)

Lemma sort_Strings_Permutation_eq a b :
  a ≡ₚ b → sort_Strings a = sort_Strings b.
Proof.
  intros Hperm. apply sort_Strings_unique; [apply sort_Strings_Sorted|].
  by rewrite sort_Strings_Permutation.
Qed.

(** X23. The transaction metadata of a mutation response does not depend
    on the order in which the engine lists the conflict keys and the
    predicates: two engine responses with the same timestamps, the same
    latency and the same keys and predicates in any order give the same
    metadata. *)
Theorem mutationHandler_extensions_order_independent (parsingNs : Z)
    (reqCommitNow : bool) (resp1 resp2 : Response.t) (txn1 txn2 : TxnContext.t) :
  Response.Txn resp1 = Some txn1 → Response.Txn resp2 = Some txn2 →
  Response.Latency resp1 = Response.Latency resp2 →
  TxnContext.StartTs txn1 = TxnContext.StartTs txn2 →
  TxnContext.CommitTs txn1 = TxnContext.CommitTs txn2 →
  TxnContext.Aborted txn1 = TxnContext.Aborted txn2 →
  TxnContext.Keys txn1 ≡ₚ TxnContext.Keys txn2 →
  TxnContext.Preds txn1 ≡ₚ TxnContext.Preds txn2 →
  mutationHandler_extensions parsingNs reqCommitNow resp1 =
  mutationHandler_extensions parsingNs reqCommitNow resp2.
Proof.
  intros Htxn1 Htxn2 Hlat Hstart Hcommit Haborted Hkeys Hpreds.
  unfold mutationHandler_extensions. rewrite Htxn1, Htxn2, Hlat.
  destruct (Response.Latency resp2); [|done].
  rewrite Hstart, Hcommit, Haborted.
  rewrite (sort_Strings_Permutation_eq _ _ Hkeys).
  by rewrite (sort_Strings_Permutation_eq _ _ Hpreds).
Qed.

Lemma mutationHandler_extensions_order_independent_witness :
  mutationHandler_extensions 11 false exResponse =
  mutationHandler_extensions 11 false
    {| Response.Json := "{}";
       Response.Txn := Some {| TxnContext.StartTs := 7; TxnContext.CommitTs := 9;
                               TxnContext.Aborted := false;
                               TxnContext.Keys := ["k1"; "k2"];
                               TxnContext.Preds := ["1-age"; "1-name"] |};
       Response.Latency := Response.Latency exResponse;
       Response.Uids := ∅ |}.
Proof.
  eapply mutationHandler_extensions_order_independent;
    try reflexivity; simpl; apply Permutation_swap.
Defined.

(** *** [mutationHandler]: the request sent and the rest of the metadata *)

(** X24. A mutation request that succeeds was sent to the engine with the
    start timestamp and the commit flag of the URL, and with the query of
    the body.  Its response carries the start timestamp, the commit
    timestamp and the aborted flag of the engine, and the latency of the
    engine with the parsing time replaced by the one measured. *)
Theorem mutationHandler_request_and_metadata
    (strconv_ParseUint : string → option Z)
    (json_Marshal : gmap string Value → string + string)
    (edgraph_Query : Request.t → Response.t + error)
    (URLQuery : gmap string (list string)) (parsed : Event + Request.t)
    (parsingNs : Z) (e : Extensions.t) (data : Data) :
  mutationHandler strconv_ParseUint json_Marshal edgraph_Query
    URLQuery parsed parsingNs = Done (e, data) →
  ∃ req0 req resp txn latency,
    parsed = inr req0 ∧ edgraph_Query req = inl resp ∧
    Request.Query req = Request.Query req0 ∧
    parseUint64 strconv_ParseUint URLQuery "startTs" = inl (Request.StartTs req) ∧
    parseBool URLQuery "commitNow" = inl (Request.CommitNow req) ∧
    Response.Txn resp = Some txn ∧ Response.Latency resp = Some latency ∧
    TxnContext.StartTs (Extensions.Txn e) = TxnContext.StartTs txn ∧
    TxnContext.CommitTs (Extensions.Txn e) = TxnContext.CommitTs txn ∧
    TxnContext.Aborted (Extensions.Txn e) = TxnContext.Aborted txn ∧
    Extensions.Latency e =
      {| Latency.ParsingNs := parsingNs;
         Latency.ProcessingNs := Latency.ProcessingNs latency;
         Latency.EncodingNs := Latency.EncodingNs latency |}.
Proof.
  unfold mutationHandler.
  destruct (parseBool URLQuery "commitNow") as [commitNow|] eqn:Hcommit; [|done].
  destruct (parseUint64 _ _ _) as [startTs|] eqn:Hstart; [|done].
  destruct parsed as [|req0]; [done|].
  match goal with |- context [edgraph_Query ?r] => set (req := r) end.
  destruct (edgraph_Query req) as [resp|] eqn:Hquery; [|done].
  destruct (mutationHandler_extensions _ _ _) as [e'| |] eqn:Hext; [|done..].
  destruct (mutationHandler_data _ _) as [data'| |]; [|done..].
  intros [= <- <-]. unfold mutationHandler_extensions in Hext.
  destruct (Response.Latency resp) as [latency|] eqn:Hlat; [|done].
  destruct (Response.Txn resp) as [txn|] eqn:Htxn; [|done].
  injection Hext as <-.
  by exists req0, req, resp, txn, latency.
Qed.

Lemma mutationHandler_request_and_metadata_witness :
  ∃ e data,
    mutationHandler (λ _, None) (λ _, inl "{}") (λ _, inl exResponse)
      exMutationQuery (inr exRequest) 11 = Done (e, data) ∧
    Extensions.Latency e =
      {| Latency.ParsingNs := 11; Latency.ProcessingNs := 5;
         Latency.EncodingNs := 3 |}.
Proof.
  eexists _, _. split; [reflexivity|].
  destruct (mutationHandler_request_and_metadata (λ _, None) (λ _, inl "{}")
              (λ _, inl exResponse) exMutationQuery (inr exRequest) 11
              _ _ eq_refl)
    as (req0 & req & resp & txn & latency & _ & [= <-] & _ & _ & _ & _ &
        [= <-] & _ & _ & _ & Hlatency).
  exact Hlatency.
Defined.

(** X25. [mutationHandler] panics only on what the engine or the
    serializer hand it: when every response of the engine carries the
    transaction context and the latency, and the serializer never returns
    an empty object, the handler ends with the two entries of the response
    or with an error status. *)
Theorem mutationHandler_never_panics
    (strconv_ParseUint : string → option Z)
    (json_Marshal : gmap string Value → string + string)
    (edgraph_Query : Request.t → Response.t + error)
    (URLQuery : gmap string (list string)) (parsed : Event + Request.t)
    (parsingNs : Z) :
  (∀ req resp, edgraph_Query req = inl resp →
     is_Some (Response.Txn resp) ∧ is_Some (Response.Latency resp)) →
  (∀ mp, json_Marshal mp ≠ inl "") →
  mutationHandler strconv_ParseUint json_Marshal edgraph_Query
    URLQuery parsed parsingNs ≠ Panic.
Proof.
  intros Hengine Hmarshal. unfold mutationHandler.
  destruct (parseBool URLQuery "commitNow") as [commitNow|]; [|done].
  destruct (parseUint64 _ _ _) as [startTs|]; [|done].
  destruct parsed as [|req0]; [done|].
  match goal with |- context [edgraph_Query ?r] => set (req := r) end.
  destruct (edgraph_Query req) as [resp|] eqn:Hquery; [|done].
  destruct (Hengine req resp Hquery) as [[txn Htxn] [latency Hlat]].
  unfold mutationHandler_extensions. rewrite Hlat, Htxn.
  unfold mutationHandler_data.
  destruct (_ && _); [|done].
  destruct (json_Marshal (mutationHandler_mp resp)) as [[|c rest]|errText]
    eqn:Hdata; [|done..].
  by destruct (Hmarshal (mutationHandler_mp resp)).
Qed.

Lemma mutationHandler_never_panics_witness :
  mutationHandler (λ _, None) exMarshal (λ _, inl exQueryResponse)
    exMutationQuery (inr exRequest) 11 ≠ Panic.
Proof.
  apply (mutationHandler_never_panics (λ _, None) exMarshal
           (λ _, inl exQueryResponse) exMutationQuery (inr exRequest) 11).
  - intros req resp [= <-]. split; eexists; reflexivity.
  - intros mp. discriminate.
Defined.

(** The panics are real: an engine response without latency, and a
    serializer that returns nothing, each make the handler panic. *)
Example mutationHandler_panics :
  mutationHandler (λ _, None) exMarshal
    (λ _, inl {| Response.Json := "{}"; Response.Txn := Response.Txn exResponse;
                 Response.Latency := None; Response.Uids := ∅ |})
    exMutationQuery (inr exRequest) 11 = Panic ∧
  mutationHandler (λ _, None) (λ _, inl "") (λ _, inl exQueryResponse)
    exMutationQuery (inr exRequest) 11 = Panic.
Proof. split; reflexivity. Qed.

End AlphaExtras.
